(** * Lightbus [BusClient]: lifecycle and dispatch engine

    A shallow embedding of [lightbus/client/bus_client.py].  The client is a
    coordinator: almost everything it does is a call to a collaborator
    (transports, schema, plugin registry, the asyncio loop).  The embedding
    therefore has three layers:

    - the data the client owns ([BusClient], messages, the hook registry);
    - the collaborators, as a record [World] of functions that answer each
      call from the history of calls made so far;
    - the methods of [BusClient], written in a state-and-exception monad [M]
      that threads the client and appends every collaborator call to the
      history.

    Calls to the logger are left out, but for the two lines that carry
    information ([logger.exception] in the handlers, and the notice that
    [run_forever] disables the serving of RPCs).  A coroutine is run from
    start to end; where callers may overlap, the method is cut at its awaits
    (see [lazy_step]).  [while True] takes fuel.

    The file has the model first, then the vocabulary of the properties,
    then the properties with their proofs. *)

From stdpp Require Import base option list strings gmap pretty.

(** ** Python values and exceptions *)

(** The exceptions the client raises, catches or lets through.  The last two
    constructors stand for every other class: [OtherException] for
    subclasses of [Exception], [OtherBaseException] for classes that derive
    from [BaseException] only (KeyboardInterrupt, SystemExit). *)
Inductive exn : Type :=
  | BusAlreadyClosed
  | NoApisToListenOn (msg : string)
  | LightbusTimeout (msg : string)
  | LightbusServerError (msg : string)
  | UnsupportedUse (msg : string)
  | UnknownApi (name : string)
  | TransportIsClosed
  | SuddenDeathException
  | AssertionError (msg : string)
  | ValueError (msg : string)
  | AttributeError (msg : string)
  | CancelledError
  | TimeoutError
  | OtherException (cls msg : string)
  | OtherBaseException (cls msg : string).

#[global] Instance exn_eq_dec : EqDecision exn.
Proof. solve_decision. Defined.

(** [str(e)]. *)
Definition exn_str (e : exn) : string :=
  match e with
  | NoApisToListenOn m | LightbusTimeout m | LightbusServerError m
  | UnsupportedUse m | UnknownApi m | AssertionError m | ValueError m
  | AttributeError m | OtherException _ m | OtherBaseException _ m => m
  | BusAlreadyClosed | TransportIsClosed | SuddenDeathException
  | CancelledError | TimeoutError => ""
  end.

Definition exn_class (e : exn) : string :=
  match e with
  | BusAlreadyClosed => "BusAlreadyClosed"
  | NoApisToListenOn _ => "NoApisToListenOn"
  | LightbusTimeout _ => "LightbusTimeout"
  | LightbusServerError _ => "LightbusServerError"
  | UnsupportedUse _ => "UnsupportedUse"
  | UnknownApi _ => "UnknownApi"
  | TransportIsClosed => "TransportIsClosed"
  | SuddenDeathException => "SuddenDeathException"
  | AssertionError _ => "AssertionError"
  | ValueError _ => "ValueError"
  | AttributeError _ => "AttributeError"
  | CancelledError => "CancelledError"
  | TimeoutError => "TimeoutError"
  | OtherException c _ | OtherBaseException c _ => c
  end.

(** The values that travel in kwargs, options and results. *)
Inductive pyvalue : Type :=
  | VNone
  | VBool (b : bool)
  | VInt (z : Z)
  | VStr (s : string)
  | VExc (e : exn).

#[global] Instance pyvalue_eq_dec : EqDecision pyvalue.
Proof. solve_decision. Defined.

(** [str(v)], as ["{}".format(v)] prints it. *)
Definition py_str (v : pyvalue) : string :=
  match v with
  | VNone => "None"
  | VBool true => "True"
  | VBool false => "False"
  | VInt z => pretty z
  | VStr s => s
  | VExc e => exn_str e
  end.

Definition py_str_opt (o : option string) : string :=
  match o with
  | Some s => s
  | None => "None"
  end.

(** The result of running a piece of Python: a value or a raised exception. *)
Inductive outcome (A : Type) : Type :=
  | Ok (a : A)
  | Raise (e : exn).
Arguments Ok {A} a.
Arguments Raise {A} e.

#[global] Instance outcome_eq_dec `{EqDecision A} : EqDecision (outcome A).
Proof. solve_decision. Defined.

(** ** Messages, APIs, transports, tasks *)

Record Api : Type := mkApi {
  meta_name : string;          (* api.meta.name *)
  api_methods : list string    (* the attributes getattr(api, name) finds *)
}.

#[global] Instance Api_eq_dec : EqDecision Api.
Proof. solve_decision. Defined.

Inductive transport : Type := Transport (name : string).

#[global] Instance transport_eq_dec : EqDecision transport.
Proof. solve_decision. Defined.

Inductive task : Type := Task (id : nat).

#[global] Instance task_eq_dec : EqDecision task.
Proof. solve_decision. Defined.

Inductive Feature : Type := RPCS | EVENTS | TASKS.

#[global] Instance Feature_eq_dec : EqDecision Feature.
Proof. solve_decision. Defined.

Abbreviation pydict := (gmap string pyvalue).

Record RpcMessage : Type := mkRpcMessage {
  rpc_id : string;
  api_name : string;
  procedure_name : string;
  kwargs : pydict;
  return_path : option string
}.

#[global] Instance RpcMessage_eq_dec : EqDecision RpcMessage.
Proof. solve_decision. Defined.

Record ResultMessage : Type := mkResultMessage {
  rpc_message_id : string;
  result : pyvalue;
  error : bool;
  trace : option string
}.

#[global] Instance ResultMessage_eq_dec : EqDecision ResultMessage.
Proof. solve_decision. Defined.

Inductive message : Type :=
  | MsgRpc (m : RpcMessage)
  | MsgResult (m : ResultMessage).

#[global] Instance message_eq_dec : EqDecision message.
Proof. solve_decision. Defined.

(** A user function handed to a hook decorator.  [cb_callable] is what
    Python's [callable(fn)] answers. *)
Record callback : Type := mkCallback {
  cb_name : string;
  cb_callable : bool
}.

#[global] Instance callback_eq_dec : EqDecision callback.
Proof. solve_decision. Defined.

(** The keyword arguments a hook is fired with, besides [client]. *)
Record hook_kwargs : Type := mkHookKwargs {
  hk_rpc_message : option RpcMessage;
  hk_result_message : option ResultMessage
}.

#[global] Instance hook_kwargs_eq_dec : EqDecision hook_kwargs.
Proof. solve_decision. Defined.

Definition no_kwargs : hook_kwargs := mkHookKwargs None None.

(** What [asyncio.ensure_future] is given. *)
Inductive coroutine : Type :=
  | CoServerShutdownMonitor
  | CoSchemaMonitor
  | CoConsumeRpcs
  | CoGatherConsumers (cs : list (transport * list Api))
  | CoUser (name : string).

#[global] Instance coroutine_eq_dec : EqDecision coroutine.
Proof. solve_decision. Defined.

(** ** The history of collaborator calls

    One constructor per call site of the source.  A call is recorded when it
    is made; what it answers is the [World]'s business. *)
Inductive event : Type :=
  | LogInfo (msg : string)
  | LogException (e : exn)
  | WelcomeMessage
  | AllTasks
  | Cancel (ts : list (option task))
  | GetAllTransports
  | TransportOpen (t : transport)
  | TransportClose (t : transport)
  | SchemaTransportClose
  | InvokerStop
  | EnsureLoadedFromBus
  | SchemaAddApi (api : Api)
  | Validate (m : message) (direction : string)
      (v_api_name v_procedure_name : option string)
  | ValidateName (v_api_name v_type v_name : string)
  | PluginHook (name : string) (kw : hook_kwargs)
  | RunCallback (name : string) (cb : callback) (kw : hook_kwargs)
  | Spawn (t : task) (c : coroutine)
  | StartListener (listener_name : string)
  | RunLoopForever
  | GetRpcTransport (a : string)
  | GetResultTransport (a : string)
  | GetRpcTransports (api_names : list string)
  | TransportConsumeRpcs (t : transport) (apis : list Api)
  | CastToSignature (a name : string) (kw : pydict)
  | RunMethod (a name : string) (kw : pydict)
  | DeformToBus (v : pyvalue)
  | DeformKwargs (kw : pydict)
  | NewRpcMessage (a name : string) (kw : pydict)
  | GetReturnPath (t : transport) (m : RpcMessage)
  | Gather (m : RpcMessage) (options : pydict)
  | WaitFor (m : RpcMessage) (timeout : pyvalue)
  | AwaitFuture (m : RpcMessage)
  | TransportSendResult (t : transport) (m : RpcMessage) (r : ResultMessage)
      (path : option string)
  | EventClientListen (a name : string) (kw options : option pydict).

#[global] Instance event_eq_dec : EqDecision event.
Proof. solve_decision. Defined.

Abbreviation history := (list event).

(** ** The collaborators

    Everything the client calls but does not define: the asyncio loop, the
    transport registry and its transports, the schema, the plugin registry,
    the configuration, user callables.  Each answer may depend on the calls
    made before it. *)
Record World : Type := mkWorld {
  (* Python: is asyncio.CancelledError a subclass of Exception (3.7) or of
     BaseException only (3.8 and later)? *)
  cancelled_is_exception : bool;
  (* asyncio and lightbus.utilities.async_tools *)
  all_tasks : history → list (task * bool);     (* task, its is_listener *)
  cancel : history → list (option task) → outcome unit;
  run_loop_forever : history → outcome unit;
  run_callback : history → string → callback → hook_kwargs → outcome unit;
  (* transport registry and transports *)
  get_all_transports : history → list transport;
  get_rpc_transport : history → string → outcome transport;
  get_result_transport : history → string → outcome transport;
  get_rpc_transports :
    history → list string → outcome (list (transport * list string));
  transport_open : history → transport → outcome unit;
  transport_close : history → transport → outcome unit;
  transport_consume_rpcs :
    history → transport → list Api → outcome (list RpcMessage);
  transport_send_result :
    history → transport → RpcMessage → ResultMessage → option string →
    outcome unit;
  get_return_path : history → transport → RpcMessage → outcome string;
  invoker_stop : history → outcome unit;
  (* the gathered receive_result and call_rpc under asyncio.wait_for: the
     result message when both finish in time, [TimeoutError] when the
     deadline passes first, any other exception when one of the two raises;
     and the same future awaited once more after a timeout *)
  wait_for : history → RpcMessage → pyvalue → outcome ResultMessage;
  await_future : history → RpcMessage → outcome unit;
  (* schema *)
  ensure_loaded_from_bus : history → outcome unit;
  schema_add_api : history → Api → outcome unit;
  schema_transport_close : history → outcome unit;
  validate :
    history → message → string → option string → option string →
    outcome unit;
  validate_name : history → string → string → string → outcome unit;
  (* plugins *)
  plugin_execute_hook : history → string → hook_kwargs → outcome unit;
  (* configuration *)
  rpc_timeout : string → pyvalue;
  cast_values : string → bool;
  (* served methods *)
  cast_to_signature : history → string → string → pydict → outcome pydict;
  run_method : history → string → string → pydict → outcome pyvalue;
  deform_to_bus : history → pyvalue → outcome pyvalue;
  deform_kwargs : history → pydict → outcome pydict;
  new_message_id : history → string;
  (* event client *)
  event_client_listen :
    history → string → string → option pydict → option pydict →
    outcome pyvalue
}.

(** [except Exception] catches [e]. *)
Definition is_Exception (W : World) (e : exn) : bool :=
  match e with
  | OtherBaseException _ _ => false
  | CancelledError => cancelled_is_exception W
  | _ => true
  end.

(** ** The client's own state *)

Abbreviation hook_registry := (gmap (string * bool) (list callback)).

Record BusClient : Type := mkBusClient {
  _event_listeners : list string;
  _consumers : list task;
  _background_coroutines : list string;    (* user coroutines, by name *)
  _background_tasks : list task;
  _hook_callbacks : hook_registry;
  features : list Feature;
  api_registry : list Api;
  _server_shutdown_queue : bool;          (* is not None *)
  _shutdown_monitor_task : option task;
  exit_code : Z;
  _closed : bool;
  _server_tasks : list (option task);
  _lazy_load_complete : bool
}.

Definition set_consumers (v : list task) (c : BusClient) : BusClient :=
  mkBusClient (_event_listeners c) v (_background_coroutines c)
    (_background_tasks c) (_hook_callbacks c) (features c) (api_registry c)
    (_server_shutdown_queue c) (_shutdown_monitor_task c) (exit_code c)
    (_closed c) (_server_tasks c) (_lazy_load_complete c).

Definition set_background_coroutines (v : list string) (c : BusClient)
  : BusClient :=
  mkBusClient (_event_listeners c) (_consumers c) v
    (_background_tasks c) (_hook_callbacks c) (features c) (api_registry c)
    (_server_shutdown_queue c) (_shutdown_monitor_task c) (exit_code c)
    (_closed c) (_server_tasks c) (_lazy_load_complete c).

Definition set_background_tasks (v : list task) (c : BusClient) : BusClient :=
  mkBusClient (_event_listeners c) (_consumers c) (_background_coroutines c)
    v (_hook_callbacks c) (features c) (api_registry c)
    (_server_shutdown_queue c) (_shutdown_monitor_task c) (exit_code c)
    (_closed c) (_server_tasks c) (_lazy_load_complete c).

Definition set_hook_callbacks (v : hook_registry) (c : BusClient)
  : BusClient :=
  mkBusClient (_event_listeners c) (_consumers c) (_background_coroutines c)
    (_background_tasks c) v (features c) (api_registry c)
    (_server_shutdown_queue c) (_shutdown_monitor_task c) (exit_code c)
    (_closed c) (_server_tasks c) (_lazy_load_complete c).

Definition set_features_field (v : list Feature) (c : BusClient)
  : BusClient :=
  mkBusClient (_event_listeners c) (_consumers c) (_background_coroutines c)
    (_background_tasks c) (_hook_callbacks c) v (api_registry c)
    (_server_shutdown_queue c) (_shutdown_monitor_task c) (exit_code c)
    (_closed c) (_server_tasks c) (_lazy_load_complete c).

Definition set_api_registry (v : list Api) (c : BusClient) : BusClient :=
  mkBusClient (_event_listeners c) (_consumers c) (_background_coroutines c)
    (_background_tasks c) (_hook_callbacks c) (features c) v
    (_server_shutdown_queue c) (_shutdown_monitor_task c) (exit_code c)
    (_closed c) (_server_tasks c) (_lazy_load_complete c).

Definition set_server_shutdown_queue (v : bool) (c : BusClient)
  : BusClient :=
  mkBusClient (_event_listeners c) (_consumers c) (_background_coroutines c)
    (_background_tasks c) (_hook_callbacks c) (features c) (api_registry c)
    v (_shutdown_monitor_task c) (exit_code c)
    (_closed c) (_server_tasks c) (_lazy_load_complete c).

Definition set_shutdown_monitor_task (v : option task) (c : BusClient)
  : BusClient :=
  mkBusClient (_event_listeners c) (_consumers c) (_background_coroutines c)
    (_background_tasks c) (_hook_callbacks c) (features c) (api_registry c)
    (_server_shutdown_queue c) v (exit_code c)
    (_closed c) (_server_tasks c) (_lazy_load_complete c).

Definition set_closed (v : bool) (c : BusClient) : BusClient :=
  mkBusClient (_event_listeners c) (_consumers c) (_background_coroutines c)
    (_background_tasks c) (_hook_callbacks c) (features c) (api_registry c)
    (_server_shutdown_queue c) (_shutdown_monitor_task c) (exit_code c)
    v (_server_tasks c) (_lazy_load_complete c).

Definition set_server_tasks (v : list (option task)) (c : BusClient)
  : BusClient :=
  mkBusClient (_event_listeners c) (_consumers c) (_background_coroutines c)
    (_background_tasks c) (_hook_callbacks c) (features c) (api_registry c)
    (_server_shutdown_queue c) (_shutdown_monitor_task c) (exit_code c)
    (_closed c) v (_lazy_load_complete c).

Definition set_lazy_load_complete (v : bool) (c : BusClient) : BusClient :=
  mkBusClient (_event_listeners c) (_consumers c) (_background_coroutines c)
    (_background_tasks c) (_hook_callbacks c) (features c) (api_registry c)
    (_server_shutdown_queue c) (_shutdown_monitor_task c) (exit_code c)
    (_closed c) (_server_tasks c) v.

(** The client together with the calls it has made. *)
Record State : Type := mkState {
  client : BusClient;
  calls : history
}.

(** ** The monad of client methods *)

Definition M (A : Type) : Type := State → outcome A * State.

Definition ret {A} (a : A) : M A := λ s, (Ok a, s).

Definition bind {A B} (m : M A) (k : A → M B) : M B :=
  λ s, match m s with
       | (Ok a, s') => k a s'
       | (Raise e, s') => (Raise e, s')
       end.

Declare Scope client_scope.
Delimit Scope client_scope with client.
Notation "x <- m ;; k" := (bind m (λ x, k))
  (at level 100, m at next level, right associativity) : client_scope.
Notation "m ;; k" := (bind m (λ _, k))
  (at level 100, right associativity) : client_scope.
Open Scope client_scope.

Definition raise {A} (e : exn) : M A := λ s, (Raise e, s).

Definition get_client : M BusClient := λ s, (Ok (client s), s).

Definition modify_client (f : BusClient → BusClient) : M unit :=
  λ s, (Ok tt, mkState (f (client s)) (calls s)).

(** Make a collaborator call: the collaborator answers from the calls made
    before this one, and the call is recorded. *)
Definition perform {A} (ev : event) (answer : history → outcome A) : M A :=
  λ s, (answer (calls s), mkState (client s) (calls s ++ [ev])).

(** [try: body / except: ...].  The handler answers [None] for an exception
    no [except] clause matches. *)
Definition try_except {A} (body : M A) (handler : exn → option (M A)) : M A :=
  λ s, match body s with
       | (Ok a, s') => (Ok a, s')
       | (Raise e, s') =>
           match handler e with
           | Some h => h s'
           | None => (Raise e, s')
           end
       end.

(** [try: body / finally: final]. *)
Definition try_finally {A} (body : M A) (final : M unit) : M A :=
  λ s, let '(r, s') := body s in
       match final s' with
       | (Ok _, s'') => (r, s'')
       | (Raise e, s'') => (Raise e, s'')
       end.

(** [for x in xs: body(x)]. *)
Fixpoint for_each {X} (xs : list X) (body : X → M unit) : M unit :=
  match xs with
  | [] => ret tt
  | x :: rest => body x ;; for_each rest body
  end.

(** [for x in xs: ...] whose body may [return] from the enclosing function. *)
Inductive loop_ctl : Type := Next | Stop.

Fixpoint for_each_until {X} (xs : list X) (body : X → M loop_ctl)
  : M loop_ctl :=
  match xs with
  | [] => ret Next
  | x :: rest =>
      c <- body x ;;
      match c with
      | Stop => ret Stop
      | Next => for_each_until rest body
      end
  end.

(** [asyncio.ensure_future(c)]: the new task is named after the number of
    calls made so far, which no earlier task can share. *)
Definition spawn (c : coroutine) : M task :=
  λ s, let t := Task (length (calls s)) in
       (Ok t, mkState (client s) (calls s ++ [Spawn t c])).

Definition run {A} (m : M A) (c : BusClient) : outcome A * State :=
  m (mkState c []).

(** ** Collaborating classes without source *)

(** Modelled from the spec: [lightbus.api.ApiRegistry], of which the source
    only has the calls.  "mapping api_name → Api; unique by name; fails with
    UnknownApi on missing lookups", with [add], [get], [all] and [names].
    The registry is kept in insertion order. *)
Fixpoint registry_add (api : Api) (reg : list Api) : list Api :=
  match reg with
  | [] => [api]
  | a :: rest =>
      if decide (meta_name a = meta_name api) then api :: rest
      else a :: registry_add api rest
  end.

Fixpoint registry_get (name : string) (reg : list Api) : outcome Api :=
  match reg with
  | [] => Raise (UnknownApi name)
  | a :: rest =>
      if decide (meta_name a = name) then Ok a else registry_get name rest
  end.

Definition registry_all (reg : list Api) : list Api := reg.

Definition registry_names (reg : list Api) : list string :=
  meta_name <$> reg.

(** Modelled from the spec: the two built-in APIs of
    [lightbus.internal_apis], "a state-reporting API and a metrics API". *)
Definition LightbusStateApi : Api := mkApi "internal.state" [].
Definition LightbusMetricsApi : Api := mkApi "internal.metrics" [].

(** Modelled from the spec: the constructor of [lightbus.message.
    ResultMessage].  "ResultMessage: rpc_message_id, result (value or error
    marker), error (bool), trace (string, only when error)" and
    "ResultMessage.error ⇒ result is the exception description": given an
    exception as result, the message carries its description and trace and
    has [error] set; given anything else it carries the value. *)
Definition exn_trace (e : exn) : string :=
  "Traceback (most recent call last):
" +:+ exn_class e +:+ ": " +:+ exn_str e.

Definition new_ResultMessage (res : pyvalue) (id : string) : ResultMessage :=
  match res with
  | VExc e => mkResultMessage id (VStr (exn_str e)) true (Some (exn_trace e))
  | v => mkResultMessage id v false None
  end.

(** Modelled from the spec: [RpcMessage.canonical_name], "api_name + "." +
    procedure_name". *)
Definition canonical_name (m : RpcMessage) : string :=
  api_name m +:+ "." +:+ procedure_name m.

Definition with_return_path (p : string) (m : RpcMessage) : RpcMessage :=
  mkRpcMessage (rpc_id m) (api_name m) (procedure_name m) (kwargs m) (Some p).

(** Modelled from the spec: [lightbus.utilities.features].  "Feature: a
    top-level subsystem toggle: RPCS, EVENTS, or TASKS"; the values are the
    ones the docstring of [set_features] lists. *)
Definition ALL_FEATURES : list Feature := [RPCS; EVENTS; TASKS].

Definition feature_value (f : Feature) : string :=
  match f with
  | RPCS => "rpcs"
  | EVENTS => "events"
  | TASKS => "tasks"
  end.

(** What a caller may put in a features list: a member of the enum or a
    string. *)
Inductive feature_arg : Type :=
  | FeatureMember (f : Feature)
  | FeatureName (s : string).

(** [Feature(x)]. *)
Definition Feature_of (x : feature_arg) : outcome Feature :=
  match x with
  | FeatureMember f => Ok f
  | FeatureName s =>
      if decide (s = "rpcs") then Ok RPCS
      else if decide (s = "events") then Ok EVENTS
      else if decide (s = "tasks") then Ok TASKS
      else Raise (ValueError ("'" +:+ s +:+ "' is not a valid Feature"))
  end.

Definition feature_arg_str (x : feature_arg) : string :=
  match x with
  | FeatureMember RPCS => "Feature.RPCS"
  | FeatureMember EVENTS => "Feature.EVENTS"
  | FeatureMember TASKS => "Feature.TASKS"
  | FeatureName s => s
  end.

(** [list.remove(x)]: drops the first occurrence. *)
Fixpoint list_remove `{EqDecision X} (x : X) (l : list X) : list X :=
  match l with
  | [] => []
  | y :: rest => if decide (y = x) then rest else y :: list_remove x rest
  end.

(** ** The methods of [BusClient] *)

(** What [_make_hook_decorator] returns: [None] once the callback is
    registered, or the closure [hook_decorator] over [name] and
    [before_plugins]. *)
Inductive decorator_result : Type :=
  | ReturnedNone
  | hook_decorator (name : string) (before_plugins : bool).

Definition hooks_for (name : string) (before_plugins : bool)
    (c : BusClient) : list callback :=
  default [] (_hook_callbacks c !! (name, before_plugins)).

(** [BusClient.__init__], after [set_features] has converted the list. *)
Definition new_BusClient (features : list Feature) : BusClient :=
  mkBusClient [] [] [] [] ∅ features [] false None 0 false [] false.

(** [set_features]: every entry goes through [Feature(...)]; the list keeps
    its order and its repetitions. *)
Fixpoint convert_features (xs : list feature_arg) : outcome (list Feature) :=
  match xs with
  | [] => Ok []
  | x :: rest =>
      match Feature_of x with
      | Raise _ =>
          Raise (UnsupportedUse
                   ("Feature '" +:+ feature_arg_str x +:+
                    "' is not one of: rpcs, events, tasks
"))
      | Ok f =>
          match convert_features rest with
          | Ok fs => Ok (f :: fs)
          | Raise e => Raise e
          end
      end
  end.

Definition set_features (xs : list feature_arg) : M unit :=
  match convert_features xs with
  | Ok fs => modify_client (set_features_field fs)
  | Raise e => raise e
  end.

(** [BusClient(config, schema, plugin_registry, features)]. *)
Definition BusClient_init (xs : list feature_arg) : outcome BusClient :=
  match convert_features xs with
  | Ok fs => Ok (new_BusClient fs)
  | Raise e => Raise e
  end.

Definition register_api (api : Api) : M unit :=
  modify_client (λ c, set_api_registry (registry_add api (api_registry c)) c).

Definition add_background_task (co : string) : M unit :=
  modify_client
    (λ c, set_background_coroutines (_background_coroutines c ++ [co]) c).

(** *** Hooks *)

Definition _register_hook_callback (name : string) (fn : callback)
    (before_plugins : bool) : M unit :=
  modify_client (λ c,
    set_hook_callbacks
      (<[(name, before_plugins) := hooks_for name before_plugins c ++ [fn]]>
         (_hook_callbacks c)) c).

Definition _make_hook_decorator (name : string) (before_plugins : bool)
    (cb : option callback) : M decorator_result :=
  match cb with
  | Some fn =>
      if negb (cb_callable fn)
      then raise (AssertionError "The provided callback is not callable")
      else _register_hook_callback name fn before_plugins ;; ret ReturnedNone
  | None => ret (hook_decorator name before_plugins)
  end.

(** Applying the closure a decorator call returned to the decorated [fn]. *)
Definition apply_decorator (d : decorator_result) (fn : callback)
  : M callback :=
  match d with
  | hook_decorator name before_plugins =>
      _register_hook_callback name fn before_plugins ;; ret fn
  | ReturnedNone => raise (OtherException "TypeError"
                             "'NoneType' object is not callable")
  end.

Definition before_worker_start (cb : option callback) (before_plugins : bool)
  : M decorator_result :=
  _make_hook_decorator "before_worker_start" before_plugins cb.

Definition after_worker_stopped (cb : option callback) (before_plugins : bool)
  : M decorator_result :=
  _make_hook_decorator "after_worker_stopped" before_plugins cb.

Definition on_start (cb : option callback) (before_plugins : bool)
  : M decorator_result :=
  before_worker_start cb before_plugins.

Definition on_stop (cb : option callback) (before_plugins : bool)
  : M decorator_result :=
  before_worker_start cb before_plugins.

Definition before_rpc_call (cb : option callback) (before_plugins : bool)
  : M decorator_result :=
  _make_hook_decorator "before_rpc_call" before_plugins cb.

Definition after_rpc_call (cb : option callback) (before_plugins : bool)
  : M decorator_result :=
  _make_hook_decorator "after_rpc_call" before_plugins cb.

Definition before_event_sent (cb : option callback) (before_plugins : bool)
  : M decorator_result :=
  _make_hook_decorator "before_event_sent" before_plugins cb.

Definition after_event_sent (cb : option callback) (before_plugins : bool)
  : M decorator_result :=
  _make_hook_decorator "after_event_sent" before_plugins cb.

Definition before_rpc_execution (cb : option callback) (before_plugins : bool)
  : M decorator_result :=
  _make_hook_decorator "before_rpc_execution" before_plugins cb.

Section Methods.

Context (W : World).

Definition _execute_hook (name : string) (kw : hook_kwargs) : M unit :=
  c <- get_client ;;
  for_each (hooks_for name true c)
    (λ cb, perform (RunCallback name cb kw) (λ h, run_callback W h name cb kw)) ;;
  perform (PluginHook name kw) (λ h, plugin_execute_hook W h name kw) ;;
  c <- get_client ;;
  for_each (hooks_for name false c)
    (λ cb, perform (RunCallback name cb kw) (λ h, run_callback W h name cb kw)).

(** *** Lazy initialisation *)

Definition open_transports : M unit :=
  ts <- perform GetAllTransports (λ h, Ok (get_all_transports W h)) ;;
  for_each ts (λ t, perform (TransportOpen t) (λ h, transport_open W h t)).

Definition add_local_apis : M unit :=
  c <- get_client ;;
  for_each (registry_all (api_registry c))
    (λ api, perform (SchemaAddApi api) (λ h, schema_add_api W h api)).

Definition lazy_load_now : M unit :=
  c <- get_client ;;
  if _lazy_load_complete c then ret tt
  else
    (* 1. Load the schema *)
    perform EnsureLoadedFromBus (ensure_loaded_from_bus W) ;;
    (* 2. Add any local APIs to the schema *)
    add_local_apis ;;
    (* 3. Open the transports *)
    open_transports ;;
    (* 4. Done *)
    modify_client (set_lazy_load_complete true).

(** *** Closing *)

Definition cancel_logged (t : task) : M unit :=
  try_except
    (perform (Cancel [Some t]) (λ h, cancel W h [Some t]))
    (λ e, if is_Exception W e
          then Some (perform (LogException e) (λ _, Ok tt))
          else None).

Definition close_async : M unit :=
  try_finally
    (c <- get_client ;;
     if _closed c then raise BusAlreadyClosed
     else
       tasks <- perform AllTasks (λ h, Ok (all_tasks W h)) ;;
       let listener_tasks := fst <$> filter (λ p, snd p = true) tasks in
       for_each (listener_tasks ++ _background_tasks c) cancel_logged ;;
       ts <- perform GetAllTransports (λ h, Ok (get_all_transports W h)) ;;
       for_each ts
         (λ t, perform (TransportClose t) (λ h, transport_close W h t)) ;;
       perform SchemaTransportClose (schema_transport_close W) ;;
       modify_client (set_closed true))
    (perform InvokerStop (invoker_stop W)).

(** [close] is [block(self.close_async())]. *)
Definition close : M unit := close_async.

(** *** Results *)

Definition send_result (m : RpcMessage) (r : ResultMessage) : M unit :=
  lazy_load_now ;;
  rt <- perform (GetResultTransport (api_name m))
          (λ h, get_result_transport W h (api_name m)) ;;
  perform (TransportSendResult rt m r (return_path m))
    (λ h, transport_send_result W h rt m r (return_path m)).

(** *** Serving RPCs *)

(** [getattr(api, name)]. *)
Definition getattr_method (api : Api) (name : string) : M unit :=
  if bool_decide (name ∈ api_methods api) then ret tt
  else raise (AttributeError
                ("'" +:+ meta_name api +:+ "' object has no attribute '" +:+
                 name +:+ "'")).

Definition _call_rpc_local (a name : string) (kw : pydict) : M pyvalue :=
  lazy_load_now ;;
  c <- get_client ;;
  api <- (λ s, (registry_get a (api_registry c), s)) ;;
  perform (ValidateName a "rpc" name) (λ h, validate_name W h a "rpc" name) ;;
  try_except
    (getattr_method api name ;;
     kw' <- (if cast_values W a
             then perform (CastToSignature a name kw)
                    (λ h, cast_to_signature W h a name kw)
             else ret kw) ;;
     perform (RunMethod a name kw') (λ h, run_method W h a name kw'))
    (λ e, match e with
          | CancelledError | SuddenDeathException => None
          | _ =>
              if is_Exception W e
              then Some (perform (LogException e) (λ _, Ok tt) ;; raise e)
              else None
          end).

(** How the [try] around [_call_rpc_local] in the consume loop ends. *)
Inductive local_call : Type :=
  | Returned (v : pyvalue)      (* the [else] branch *)
  | Caught (e : exn)            (* [except Exception as e] *)
  | Died.                       (* [except SuddenDeathException: return] *)

Definition call_local_guarded (m : RpcMessage) : M local_call :=
  try_except
    (v <- _call_rpc_local (api_name m) (procedure_name m) (kwargs m) ;;
     ret (Returned v))
    (λ e, match e with
          | SuddenDeathException => Some (ret Died)
          | CancelledError => None
          | _ => if is_Exception W e then Some (ret (Caught e)) else None
          end).

Definition reply (m : RpcMessage) (res : pyvalue) : M loop_ctl :=
  let result_message := new_ResultMessage res (rpc_id m) in
  _execute_hook "after_rpc_execution"
    (mkHookKwargs (Some m) (Some result_message)) ;;
  (if negb (error result_message)
   then perform
          (Validate (MsgResult result_message) "outgoing"
             (Some (api_name m)) (Some (procedure_name m)))
          (λ h, validate W h (MsgResult result_message) "outgoing"
                  (Some (api_name m)) (Some (procedure_name m)))
   else ret tt) ;;
  send_result m result_message ;;
  ret Next.

(** The body of [for rpc_message in rpc_messages]. *)
Definition serve_rpc_message (m : RpcMessage) : M loop_ctl :=
  perform (Validate (MsgRpc m) "incoming" None None)
    (λ h, validate W h (MsgRpc m) "incoming" None None) ;;
  _execute_hook "before_rpc_execution" (mkHookKwargs (Some m) None) ;;
  r <- call_local_guarded m ;;
  match r with
  | Died => ret Stop
  | Caught e => reply m (VExc e)
  | Returned v =>
      v' <- perform (DeformToBus v) (λ h, deform_to_bus W h v) ;;
      reply m v'
  end.

(** One round of [while True]: ask the transport for a batch and serve it.
    [Stop] is a [return] of the consumer. *)
Definition consume_round (t : transport) (apis : list Api) : M loop_ctl :=
  batch <- try_except
             (ms <- perform (TransportConsumeRpcs t apis)
                      (λ h, transport_consume_rpcs W h t apis) ;;
              ret (Some ms))
             (λ e, match e with
                   | TransportIsClosed => Some (ret None)
                   | _ => None
                   end) ;;
  match batch with
  | None => ret Stop
  | Some ms => for_each_until ms serve_rpc_message
  end.

(** [while True] for at most [fuel] rounds: [Some tt] when the consumer
    returned, [None] when it is still looping. *)
Fixpoint consume_rounds (fuel : nat) (t : transport) (apis : list Api)
  : M (option unit) :=
  match fuel with
  | O => ret None
  | S fuel' =>
      c <- consume_round t apis ;;
      match c with
      | Stop => ret (Some tt)
      | Next => consume_rounds fuel' t apis
      end
  end.


(** [list(map(self.api_registry.get, names))]. *)
Fixpoint registry_get_all (names : list string) (reg : list Api)
  : outcome (list Api) :=
  match names with
  | [] => Ok []
  | n :: rest =>
      match registry_get n reg with
      | Raise e => Raise e
      | Ok a =>
          match registry_get_all rest reg with
          | Ok l => Ok (a :: l)
          | Raise e => Raise e
          end
      end
  end.

(** The [for rpc_transport, transport_api_names in ...] loop of
    [consume_rpcs], which builds the list of consumer coroutines. *)
Fixpoint consumer_coroutines (groups : list (transport * list string))
    (reg : list Api) : outcome (list (transport * list Api)) :=
  match groups with
  | [] => Ok []
  | (t, names) :: rest =>
      match registry_get_all names reg with
      | Raise e => Raise e
      | Ok apis =>
          match consumer_coroutines rest reg with
          | Ok l => Ok ((t, apis) :: l)
          | Raise e => Raise e
          end
      end
  end.

Definition consume_rpcs (apis : option (list Api)) : M unit :=
  lazy_load_now ;;
  c <- get_client ;;
  let apis :=
    match apis with
    | None => registry_all (api_registry c)
    | Some l => l
    end in
  match apis with
  | [] =>
      raise (NoApisToListenOn
               ("No APIs to consume on in consume_rpcs(). Either this method was called with apis=[], " +:+
                "or the API registry is empty."))
  | _ =>
      let api_names := meta_name <$> apis in
      groups <- perform (GetRpcTransports api_names)
                  (λ h, get_rpc_transports W h api_names) ;;
      coroutines <- (λ s, (consumer_coroutines groups (api_registry c), s)) ;;
      t <- spawn (CoGatherConsumers coroutines) ;;
      modify_client (λ c, set_consumers (_consumers c ++ [t]) c)
  end.

(** *** Calling RPCs *)

(** [options.get("timeout", self.config.api(api_name).rpc_timeout)]. *)
Definition effective_timeout (a : string) (options : pydict) : pyvalue :=
  default (rpc_timeout W a) (options !! "timeout").

Definition timeout_message (m : RpcMessage) (timeout : pyvalue) : string :=
  "Timeout when calling RPC " +:+ canonical_name m +:+ " after " +:+
  py_str timeout +:+ " seconds. " +:+
  "It is possible no Lightbus process is serving this API, or perhaps it is taking " +:+
  "too long to process the request. In which case consider raising the 'rpc_timeout' " +:+
  "config option.".

Definition server_error_message (m : RpcMessage) (r : ResultMessage)
  : string :=
  "Error while calling " +:+ canonical_name m +:+ ": " +:+ py_str (result r)
  +:+ "
Remote stack trace:
" +:+ py_str_opt (trace r).

(** The [except asyncio.TimeoutError] branch: let the future finish,
    swallowing its cancellation, then raise. *)
Definition drain_and_time_out {A} (m : RpcMessage) (timeout : pyvalue)
  : M A :=
  try_except
    (perform (AwaitFuture m) (λ h, await_future W h m))
    (λ e, match e with
          | CancelledError => Some (ret tt)
          | _ => None
          end) ;;
  raise (LightbusTimeout (timeout_message m timeout)).

Definition call_rpc_remote (a name : string) (kw : pydict)
    (options : option pydict) : M pyvalue :=
  lazy_load_now ;;
  _ <- perform (GetRpcTransport a) (λ h, get_rpc_transport W h a) ;;
  result_transport <-
    perform (GetResultTransport a) (λ h, get_result_transport W h a) ;;
  kw <- perform (DeformKwargs kw) (λ h, deform_kwargs W h kw) ;;
  id <- perform (NewRpcMessage a name kw) (λ h, Ok (new_message_id W h)) ;;
  let rpc_message := mkRpcMessage id a name kw None in
  path <- perform (GetReturnPath result_transport rpc_message)
            (λ h, get_return_path W h result_transport rpc_message) ;;
  let rpc_message := with_return_path path rpc_message in
  let options := default ∅ options in
  let timeout := effective_timeout a options in
  perform (ValidateName a "rpc" name) (λ h, validate_name W h a "rpc" name) ;;
  perform (Validate (MsgRpc rpc_message) "outgoing" None None)
    (λ h, validate W h (MsgRpc rpc_message) "outgoing" None None) ;;
  perform (Gather rpc_message options) (λ _, Ok tt) ;;
  _execute_hook "before_rpc_call" (mkHookKwargs (Some rpc_message) None) ;;
  result_message <-
    try_except
      (perform (WaitFor rpc_message timeout)
         (λ h, wait_for W h rpc_message timeout))
      (λ e, match e with
            | TimeoutError => Some (drain_and_time_out rpc_message timeout)
            | _ => None
            end) ;;
  _execute_hook "after_rpc_call"
    (mkHookKwargs (Some rpc_message) (Some result_message)) ;;
  if negb (error result_message)
  then
    perform (Validate (MsgResult result_message) "incoming" (Some a)
               (Some name))
      (λ h, validate W h (MsgResult result_message) "incoming" (Some a)
              (Some name)) ;;
    ret (result result_message)
  else
    raise (LightbusServerError
             (server_error_message rpc_message result_message)).

(** *** Events *)

Definition fire_event (a name : string) (kw options : option pydict)
  : M pyvalue :=
  perform (EventClientListen a name kw options)
    (λ h, event_client_listen W h a name kw options).

(** *** Running as a server *)

Definition _setup_server : M unit :=
  register_api LightbusStateApi ;;
  register_api LightbusMetricsApi ;;
  (* Push all registered APIs into the global schema *)
  add_local_apis ;;
  lazy_load_now ;;
  (* Setup schema monitoring *)
  monitor_task <- spawn CoSchemaMonitor ;;
  _execute_hook "before_worker_start" no_kwargs ;;
  (* Setup RPC consumption *)
  c <- get_client ;;
  consume_rpc_task <-
    (if bool_decide (RPCS ∈ features c)
     then t <- spawn CoConsumeRpcs ;; ret (Some t)
     else ret None) ;;
  (* Start off any registered event listeners *)
  c <- get_client ;;
  (if bool_decide (EVENTS ∈ features c)
   then for_each (_event_listeners c)
          (λ l, perform (StartListener l) (λ _, Ok tt))
   else ret tt) ;;
  (* Start off any background tasks *)
  c <- get_client ;;
  (if bool_decide (TASKS ∈ features c)
   then for_each (_background_coroutines c)
          (λ co, t <- spawn (CoUser co) ;;
                 modify_client
                   (λ c, set_background_tasks (_background_tasks c ++ [t]) c))
   else ret tt) ;;
  modify_client (set_server_tasks [consume_rpc_task; Some monitor_task]).

Definition start_server : M unit :=
  perform WelcomeMessage (λ _, Ok tt) ;;
  modify_client (set_server_shutdown_queue true) ;;
  modify_client (set_server_tasks []) ;;
  shutdown_monitor_task <- spawn CoServerShutdownMonitor ;;
  modify_client (set_shutdown_monitor_task (Some shutdown_monitor_task)) ;;
  _setup_server.

Definition _stop_server_inner : M unit :=
  c <- get_client ;;
  perform (Cancel (_server_tasks c)) (λ h, cancel W h (_server_tasks c)) ;;
  _execute_hook "after_worker_stopped" no_kwargs.

Definition stop_server : M unit :=
  c <- get_client ;;
  perform (Cancel [_shutdown_monitor_task c])
    (λ h, cancel W h [_shutdown_monitor_task c]) ;;
  _stop_server_inner.

(** The guard at the top of [run_forever]. *)
Definition disable_rpcs_if_no_apis : M unit :=
  c <- get_client ;;
  if bool_decide (registry_all (api_registry c) = [])
     && bool_decide (RPCS ∈ features c)
  then
    perform (LogInfo "Disabling serving of RPCs as no APIs have been registered")
      (λ _, Ok tt) ;;
    modify_client (λ c, set_features_field (list_remove RPCS (features c)) c)
  else ret tt.

Definition run_forever : M unit :=
  disable_rpcs_if_no_apis ;;
  start_server ;;
  perform RunLoopForever (run_loop_forever W) ;;
  stop_server ;;
  close.

End Methods.

(** * Vocabulary for the properties

    The pieces the statements below are made of: parts of methods given a
    name, predicates on the history of calls, callers that overlap, and a
    few concrete worlds and clients for the examples. *)

(** ** Which calls a method makes

    [emits P m]: whatever the state and the outcome, [m] only appends calls
    to the history, and every call it appends satisfies [P]. *)
Definition emits {A} (P : event → Prop) (m : M A) : Prop :=
  ∀ s r s', m s = (r, s') →
    ∃ evs, calls s' = calls s ++ evs ∧ Forall P evs.

(** [keeps f m]: [m] leaves the part [f] of the client as it was. *)
Definition keeps {A X} (f : BusClient → X) (m : M A) : Prop :=
  ∀ s r s', m s = (r, s') → f (client s') = f (client s).

(** The calls of a hook that fired to its end: the callbacks registered
    "before plugins", the plugin registry, the callbacks registered "after
    plugins". *)
Definition hook_calls (name : string) (kw : hook_kwargs) (c : BusClient)
  : history :=
  ((λ cb, RunCallback name cb kw) <$> hooks_for name true c)
  ++ [PluginHook name kw]
  ++ ((λ cb, RunCallback name cb kw) <$> hooks_for name false c).

(** Is [e] the hook [name] calling a callback or the plugin registry? *)
Definition is_hook_call (name : string) (e : event) : Prop :=
  match e with
  | RunCallback n _ _ | PluginHook n _ => n = name
  | _ => False
  end.

Definition is_lazy_load_call (e : event) : Prop :=
  match e with
  | EnsureLoadedFromBus | SchemaAddApi _ | GetAllTransports
  | TransportOpen _ => True
  | _ => False
  end.

(** Which callbacks a hook may call: those registered under its name. *)
Definition is_hook_call_of (name : string) (c : BusClient) (e : event)
  : Prop :=
  match e with
  | RunCallback n cb _ => n = name ∧ ∃ b, cb ∈ hooks_for name b c
  | PluginHook n _ => n = name
  | _ => False
  end.

(** ** A world in which nothing goes wrong

    One Redis transport serves every API, every call is answered, no RPC
    ever arrives and results come back at once.  [scripted_world] leaves the
    four answers that the examples vary as parameters. *)
Definition scripted_world
    (tasks : list (task * bool))
    (method : history → string → string → pydict → outcome pyvalue)
    (consume : history → transport → list Api → outcome (list RpcMessage))
    (wait : history → RpcMessage → pyvalue → outcome ResultMessage)
  : World := {|
  cancelled_is_exception := false;
  all_tasks := λ _, tasks;
  cancel := λ _ _, Ok tt;
  run_loop_forever := λ _, Ok tt;
  run_callback := λ _ _ _ _, Ok tt;
  get_all_transports := λ _, [Transport "redis"];
  get_rpc_transport := λ _ _, Ok (Transport "redis");
  get_result_transport := λ _ _, Ok (Transport "redis");
  get_rpc_transports := λ _ names, Ok [(Transport "redis", names)];
  transport_open := λ _ _, Ok tt;
  transport_close := λ _ _, Ok tt;
  transport_consume_rpcs := consume;
  transport_send_result := λ _ _ _ _ _, Ok tt;
  get_return_path := λ _ _ m, Ok ("return_path:" +:+ rpc_id m);
  invoker_stop := λ _, Ok tt;
  wait_for := wait;
  await_future := λ _ _, Raise CancelledError;
  ensure_loaded_from_bus := λ _, Ok tt;
  schema_add_api := λ _ _, Ok tt;
  schema_transport_close := λ _, Ok tt;
  validate := λ _ _ _ _ _, Ok tt;
  validate_name := λ _ _ _ _, Ok tt;
  plugin_execute_hook := λ _ _ _, Ok tt;
  rpc_timeout := λ _, VInt 5;
  cast_values := λ _, false;
  cast_to_signature := λ _ _ _ kw, Ok kw;
  run_method := method;
  deform_to_bus := λ _ v, Ok v;
  deform_kwargs := λ _ kw, Ok kw;
  new_message_id := λ h, "message-" +:+ pretty (length h);
  event_client_listen := λ _ _ _ _ _, Ok VNone
|}.

Definition calm_world : World :=
  scripted_world []
    (λ _ _ _ _, Ok VNone)
    (λ _ _ _, Raise TransportIsClosed)
    (λ _ m _, Ok (mkResultMessage (rpc_id m) (VStr "pong") false None)).

Definition fresh_client : State := mkState (new_BusClient ALL_FEATURES) [].

(** ** Closing *)

(** The tasks a stretch of history cancelled one by one. *)
Definition cancelled_tasks (h : history) : list task :=
  omap (λ e, match e with Cancel [Some t] => Some t | _ => None end) h.

Definition is_cancel_or_log (e : event) : Prop :=
  match e with
  | Cancel _ | LogException _ => True
  | _ => False
  end.

(** [n] calls to [close_async], one after the other: what each of them
    answered, and the state they leave. *)
Fixpoint close_times (W : World) (n : nat) (s : State)
  : list (outcome unit) * State :=
  match n with
  | O => ([], s)
  | S n' =>
      let '(r, s1) := close_async W s in
      let '(rs, s2) := close_times W n' s1 in
      (r :: rs, s2)
  end.

(** The tasks [close_async] cancels: those the loop reports as listeners,
    then the background tasks of the client. *)
Definition tasks_to_cancel (W : World) (s : State) : list task :=
  (fst <$> filter (λ p, snd p = true) (all_tasks W (calls s)))
  ++ _background_tasks (client s).

(** A client with one listener task running and one background task. *)
Definition busy_world : World :=
  scripted_world [(Task 7, true); (Task 8, false)]
    (λ _ _ _ _, Ok VNone)
    (λ _ _ _, Raise TransportIsClosed)
    (λ _ m _, Ok (mkResultMessage (rpc_id m) (VStr "pong") false None)).

Definition busy_client : State :=
  mkState (set_background_tasks [Task 3] (new_BusClient ALL_FEATURES)) [].

Definition busy_client_closed : State :=
  mkState
    (set_closed true (set_background_tasks [Task 3]
                        (new_BusClient ALL_FEATURES)))
    [AllTasks; Cancel [Some (Task 7)]; Cancel [Some (Task 3)];
     GetAllTransports; TransportClose (Transport "redis");
     SchemaTransportClose; InvokerStop].

(** ** Worlds in which a collaborator fails

    In [faulty_world_on] the bus has the transports given; no RPC arrives
    and no result comes back in time; the plugin registry, the opening and
    the closing of a transport answer as they are told to; every other call
    is answered. *)
Definition faulty_world_on (transports : list transport)
    (plugins : history → string → hook_kwargs → outcome unit)
    (opening closing : history → transport → outcome unit) : World := {|
  cancelled_is_exception := false;
  all_tasks := λ _, [];
  cancel := λ _ _, Ok tt;
  run_loop_forever := λ _, Ok tt;
  run_callback := λ _ _ _ _, Ok tt;
  get_all_transports := λ _, transports;
  get_rpc_transport := λ _ _, Ok (Transport "redis");
  get_result_transport := λ _ _, Ok (Transport "redis");
  get_rpc_transports := λ _ names, Ok [(Transport "redis", names)];
  transport_open := opening;
  transport_close := closing;
  transport_consume_rpcs := λ _ _ _, Raise TransportIsClosed;
  transport_send_result := λ _ _ _ _ _, Ok tt;
  get_return_path := λ _ _ m, Ok ("return_path:" +:+ rpc_id m);
  invoker_stop := λ _, Ok tt;
  wait_for := λ _ _ _, Raise TimeoutError;
  await_future := λ _ _, Raise CancelledError;
  ensure_loaded_from_bus := λ _, Ok tt;
  schema_add_api := λ _ _, Ok tt;
  schema_transport_close := λ _, Ok tt;
  validate := λ _ _ _ _ _, Ok tt;
  validate_name := λ _ _ _ _, Ok tt;
  plugin_execute_hook := plugins;
  rpc_timeout := λ _, VInt 5;
  cast_values := λ _, false;
  cast_to_signature := λ _ _ _ kw, Ok kw;
  run_method := λ _ _ _ _, Ok VNone;
  deform_to_bus := λ _ v, Ok v;
  deform_kwargs := λ _ kw, Ok kw;
  new_message_id := λ h, "message-" +:+ pretty (length h);
  event_client_listen := λ _ _ _ _ _, Ok VNone
|}.

(** The same with the one transport [redis]. *)
Definition faulty_world
    (plugins : history → string → hook_kwargs → outcome unit)
    (opening closing : history → transport → outcome unit) : World :=
  faulty_world_on [Transport "redis"] plugins opening closing.

(** No transport can be closed. *)
Definition stuck_world : World :=
  faulty_world (λ _ _ _, Ok tt) (λ _ _, Ok tt)
    (λ _ _, Raise (OtherException "ConnectionError" "reset")).

(** Two transports, of which [redis], the first, cannot be closed. *)
Definition half_stuck_world : World :=
  faulty_world_on [Transport "redis"; Transport "kafka"]
    (λ _ _ _, Ok tt) (λ _ _, Ok tt)
    (λ _ t, if decide (t = Transport "redis")
            then Raise (OtherException "ConnectionError" "reset")
            else Ok tt).

(** The claim that closing works once and is refused ever after: whatever
    the first call to [close_async] on an open client did, it left the
    client closed, and every later call, however many, raises
    [BusAlreadyClosed]. *)
Definition close_is_once_only (W : World) : Prop :=
  ∀ (s : State) r1 s1 (n : nat),
    _closed (client s) = false →
    close_async W s = (r1, s1) →
    _closed (client s1) = true
    ∧ (close_times W n s1).1 = replicate n (Raise BusAlreadyClosed).

(** The busy client after a close that failed on the transport. *)
Definition busy_client_stuck : State :=
  mkState (client busy_client)
    [AllTasks; Cancel [Some (Task 3)]; GetAllTransports;
     TransportClose (Transport "redis"); InvokerStop].

(** ** Lazy initialisation, and callers that overlap

    [lazy_load_now] is a coroutine: at each [await] the loop may run another
    task before it resumes this one.  To talk about callers that overlap,
    the same method is cut at its awaits into steps.  A step runs from one
    await to the next; [lazy_pc] is where a caller stands between steps. *)
Inductive lazy_pc : Type :=
  | AtStart                                  (* has not tested the flag yet *)
  | SchemaLoaded                             (* past ensure_loaded_from_bus *)
  | AddingApis (todo : list Api)             (* inside the first loop *)
  | OpeningTransports (todo : list transport)(* inside the second loop *)
  | Finished (r : outcome unit).

#[global] Instance lazy_pc_eq_dec : EqDecision lazy_pc.
Proof. solve_decision. Defined.

Section LazyStepsModel.

Context (W : World).








End LazyStepsModel.






(** ** Server start-up *)

(** [maintains I P m]: started on a client that satisfies [I], [m] leaves a
    client that satisfies [I] and only makes calls that satisfy [P]. *)
Definition maintains {A} (I : BusClient → Prop) (P : event → Prop)
    (m : M A) : Prop :=
  ∀ s r s', I (client s) → m s = (r, s') →
    I (client s') ∧ ∃ evs, calls s' = calls s ++ evs ∧ Forall P evs.

(** Is [e] the start of the RPC consumer task? *)
Definition is_consumer_spawn (e : event) : Prop :=
  match e with
  | Spawn _ CoConsumeRpcs => True
  | _ => False
  end.

Definition rpcs_disabled (c : BusClient) : Prop := RPCS ∉ features c.

(** ** Serving and calling RPCs *)

(** The APIs [consume_rpcs] is about to serve: the ones it was given, or
    the registry's when it was given [None]. *)
Definition apis_to_serve (apis : option (list Api)) (c : BusClient)
  : list Api :=
  match apis with
  | None => registry_all (api_registry c)
  | Some l => l
  end.

Definition no_apis_message : string :=
  "No APIs to consume on in consume_rpcs(). Either this method was called with apis=[], " +:+
  "or the API registry is empty.".

(** A client serving one API, already initialised. *)
Definition auth_api : Api := mkApi "my_company.auth" ["check_password"].

Definition serving_client : State :=
  mkState
    (set_lazy_load_complete true
       (set_api_registry [auth_api] (new_BusClient ALL_FEATURES)))
    [].

Section CallRpcModel.

Context (W : World).

(** [call_rpc_remote] up to the [try]: initialise, build and validate the
    message, create the future, fire [before_rpc_call].  It hands on the
    message and the deadline. *)
Definition start_rpc_call (a name : string) (kw : pydict)
    (options : option pydict) : M (RpcMessage * pyvalue) :=
  lazy_load_now W ;;
  _ <- perform (GetRpcTransport a) (λ h, get_rpc_transport W h a) ;;
  result_transport <-
    perform (GetResultTransport a) (λ h, get_result_transport W h a) ;;
  kw <- perform (DeformKwargs kw) (λ h, deform_kwargs W h kw) ;;
  id <- perform (NewRpcMessage a name kw) (λ h, Ok (new_message_id W h)) ;;
  let rpc_message := mkRpcMessage id a name kw None in
  path <- perform (GetReturnPath result_transport rpc_message)
            (λ h, get_return_path W h result_transport rpc_message) ;;
  let rpc_message := with_return_path path rpc_message in
  let options := default ∅ options in
  let timeout := effective_timeout W a options in
  perform (ValidateName a "rpc" name) (λ h, validate_name W h a "rpc" name) ;;
  perform (Validate (MsgRpc rpc_message) "outgoing" None None)
    (λ h, validate W h (MsgRpc rpc_message) "outgoing" None None) ;;
  perform (Gather rpc_message options) (λ _, Ok tt) ;;
  _execute_hook W "before_rpc_call" (mkHookKwargs (Some rpc_message) None) ;;
  ret (rpc_message, timeout).

(** [call_rpc_remote] from the [try] on. *)
Definition finish_rpc_call (a name : string) (rpc_message : RpcMessage)
    (timeout : pyvalue) : M pyvalue :=
  result_message <-
    try_except
      (perform (WaitFor rpc_message timeout)
         (λ h, wait_for W h rpc_message timeout))
      (λ e, match e with
            | TimeoutError => Some (drain_and_time_out W rpc_message timeout)
            | _ => None
            end) ;;
  _execute_hook W "after_rpc_call"
    (mkHookKwargs (Some rpc_message) (Some result_message)) ;;
  if negb (error result_message)
  then
    perform (Validate (MsgResult result_message) "incoming" (Some a)
               (Some name))
      (λ h, validate W h (MsgResult result_message) "incoming" (Some a)
              (Some name)) ;;
    ret (result result_message)
  else
    raise (LightbusServerError
             (server_error_message rpc_message result_message)).


End CallRpcModel.

(** What [call_rpc_remote] does with the result message once
    [after_rpc_call] has fired. *)
Definition return_or_raise (W : World) (a name : string) (m : RpcMessage)
    (r : ResultMessage) : M pyvalue :=
  if negb (error r)
  then
    perform (Validate (MsgResult r) "incoming" (Some a) (Some name))
      (λ h, validate W h (MsgResult r) "incoming" (Some a) (Some name)) ;;
    ret (result r)
  else raise (LightbusServerError (server_error_message m r)).


Definition ping_message : RpcMessage :=
  mkRpcMessage "message-3" "svc.acct" "ping" ∅ (Some "return_path:message-3").

(** [part] occurs in [whole]. *)
Definition includes (part whole : string) : Prop :=
  ∃ pre post, whole = pre +:+ part +:+ post.

(** The remote side fails: [error=True, result="boom", trace="T"]. *)
Definition boom_message : ResultMessage :=
  mkResultMessage "message-3" (VStr "boom") true (Some "T").

Definition boom_world : World :=
  scripted_world [] (λ _ _ _ _, Ok VNone) (λ _ _ _, Raise TransportIsClosed)
    (λ _ _ _, Ok boom_message).

Section ConsumeModel.

Context (W : World).

(** What [serve_rpc_message] does before it executes the procedure. *)
Definition announce_rpc (m : RpcMessage) : M unit :=
  perform (Validate (MsgRpc m) "incoming" None None)
    (λ h, validate W h (MsgRpc m) "incoming" None None) ;;
  _execute_hook W "before_rpc_execution" (mkHookKwargs (Some m) None).

(** And what it does with the way the execution ended. *)
Definition conclude_rpc (m : RpcMessage) (r : local_call) : M loop_ctl :=
  match r with
  | Died => ret Stop
  | Caught e => reply W m (VExc e)
  | Returned v =>
      v' <- perform (DeformToBus v) (λ h, deform_to_bus W h v) ;;
      reply W m v'
  end.

(** The error message built from the exception [e] for the call [m]. *)
Definition error_result (m : RpcMessage) (e : exn) : ResultMessage :=
  mkResultMessage (rpc_id m) (VStr (exn_str e)) true (Some (exn_trace e)).

End ConsumeModel.





Definition failing_world : World :=
  scripted_world [] (λ _ _ _ _, Raise (ValueError "bad password"))
    (λ _ _ _, Raise TransportIsClosed)
    (λ _ _ _, Raise TimeoutError).

Definition check_password_message : RpcMessage :=
  mkRpcMessage "rpc-1" "my_company.auth" "check_password" ∅ (Some "return-1").

(** A second call, to make a batch of two with [check_password_message]. *)
Definition second_password_message : RpcMessage :=
  mkRpcMessage "rpc-2" "my_company.auth" "check_password" ∅ (Some "return-2").


Definition is_result_send (e : event) : Prop :=
  match e with
  | TransportSendResult _ _ _ _ => True
  | _ => False
  end.

(** A result message being validated. *)
Definition is_result_validation (e : event) : Prop :=
  match e with
  | Validate (MsgResult _) _ _ _ => True
  | _ => False
  end.


(** ** Features and hooks *)

(** The message of the [UnsupportedUse] that [set_features] raises for the
    entry [x]. *)
Definition unsupported_feature_message (x : feature_arg) : string :=
  "Feature '" +:+ feature_arg_str x +:+ "' is not one of: rpcs, events, tasks
".


(** [bus.client.<hook>()(fn)]: a decorator called without a callback, and
    what it returns applied to [fn]. *)
Definition decorate (name : string) (before_plugins : bool) (fn : callback)
  : M callback :=
  d <- _make_hook_decorator name before_plugins None ;;
  apply_decorator d fn.

(** The client after [fn] has been appended to the callbacks of [name] on
    the side [before_plugins]. *)
Definition with_hook (name : string) (before_plugins : bool) (fn : callback)
    (c : BusClient) : BusClient :=
  set_hook_callbacks
    (<[(name, before_plugins) := hooks_for name before_plugins c ++ [fn]]>
       (_hook_callbacks c)) c.

(** ** More worlds in which a collaborator fails *)


(** No transport can be opened. *)
Definition unreachable_world : World :=
  faulty_world (λ _ _ _, Ok tt)
    (λ _ _, Raise (OtherException "ConnectionError" "refused"))
    (λ _ _, Ok tt).

(** The transports lose the connection while the caller waits. *)
Definition dropped_world : World :=
  scripted_world [] (λ _ _ _ _, Ok VNone) (λ _ _ _, Raise TransportIsClosed)
    (λ _ _ _, Raise (OtherException "ConnectionError" "lost")).

(** The transport has no RPC to hand out, and says so at once. *)
Definition idle_world : World :=
  scripted_world [] (λ _ _ _ _, Ok VNone) (λ _ _ _, Ok [])
    (λ _ _ _, Raise TimeoutError).

(** A client with one callback on each side of the plugins of
    [before_worker_start]. *)
Definition hooked_client : State :=
  mkState
    (set_hook_callbacks
       (<[("before_worker_start", true) := [mkCallback "connect" true]]>
          (<[("before_worker_start", false) := [mkCallback "announce" true]]>
             ∅))
       (new_BusClient ALL_FEATURES))
    [].

(** The same client once [migrate] has been registered before the
    plugins. *)
Definition migrating_client : State :=
  mkState
    (with_hook "before_worker_start" true (mkCallback "migrate" true)
       (client hooked_client))
    [].

(** The serving client with [audit] registered on [before_rpc_execution]. *)
Definition audited_client : State :=
  mkState
    (with_hook "before_rpc_execution" false (mkCallback "audit" true)
       (client serving_client))
    [].

(** A client built for RPCs only, with an event listener and a background
    coroutine registered. *)
Definition rpcs_only_client : State :=
  mkState
    (mkBusClient ["on_order"] [] ["heartbeat"] [] ∅ [RPCS] [] false None 0
       false [] false)
    [].

(** The fresh client after [add_background_task] of [heartbeat]. *)
Definition heartbeat_client : State :=
  mkState
    (set_background_coroutines ["heartbeat"] (new_BusClient ALL_FEATURES))
    [].

(** ** Server start-up, by feature *)

(** Is [e] the start of something that belongs to the feature [f]: the RPC
    consumer, an event listener, a background task? *)
Definition starts_feature (f : Feature) (e : event) : Prop :=
  match f, e with
  | RPCS, Spawn _ CoConsumeRpcs => True
  | EVENTS, StartListener _ => True
  | TASKS, Spawn _ (CoUser _) => True
  | _, _ => False
  end.

(** The background coroutines a stretch of history started, with their
    tasks. *)
Definition user_spawns (h : history) : list (task * string) :=
  omap (λ e, match e with
             | Spawn t (CoUser name) => Some (t, name)
             | _ => None
             end) h.

Section SetupServerModel.

Context (W : World).

(** [_setup_server] up to the hooks: register the internal APIs, publish
    the schemas, initialise, start the schema monitor, fire
    [before_worker_start].  It hands on the monitor task. *)
Definition prepare_server : M task :=
  register_api LightbusStateApi ;;
  register_api LightbusMetricsApi ;;
  add_local_apis W ;;
  lazy_load_now W ;;
  monitor_task <- spawn CoSchemaMonitor ;;
  _execute_hook W "before_worker_start" no_kwargs ;;
  ret monitor_task.

(** The loop that starts the background tasks. *)
Definition start_background_tasks (cos : list string) : M unit :=
  for_each cos
    (λ co, t <- spawn (CoUser co) ;;
           modify_client
             (λ c, set_background_tasks (_background_tasks c ++ [t]) c)).

(** [_setup_server] from there on: start what the features ask for. *)
Definition start_features (monitor_task : task) : M unit :=
  c <- get_client ;;
  consume_rpc_task <-
    (if bool_decide (RPCS ∈ features c)
     then t <- spawn CoConsumeRpcs ;; ret (Some t)
     else ret None) ;;
  c <- get_client ;;
  (if bool_decide (EVENTS ∈ features c)
   then for_each (_event_listeners c)
          (λ l, perform (StartListener l) (λ _, Ok tt))
   else ret tt) ;;
  c <- get_client ;;
  (if bool_decide (TASKS ∈ features c)
   then start_background_tasks (_background_coroutines c)
   else ret tt) ;;
  modify_client (set_server_tasks [consume_rpc_task; Some monitor_task]).

(** [start_server] up to the same point. *)
Definition begin_server : M task :=
  perform WelcomeMessage (λ _, Ok tt) ;;
  modify_client (set_server_shutdown_queue true) ;;
  modify_client (set_server_tasks []) ;;
  shutdown_monitor_task <- spawn CoServerShutdownMonitor ;;
  modify_client (set_shutdown_monitor_task (Some shutdown_monitor_task)) ;;
  prepare_server.

End SetupServerModel.

(** The tasks [spawn] creates for [n] coroutines started one after the
    other, the first after [k] calls. *)
Definition tasks_from (k n : nat) : list task := Task <$> seq k n.

(** The registry once [_setup_server] has added the internal APIs. *)
Definition server_registry (c : BusClient) : list Api :=
  registry_add LightbusMetricsApi
    (registry_add LightbusStateApi (api_registry c)).

(** ** Running, stopping and closing *)

(** Is [e] part of taking the server down: a cancellation, the closing of a
    transport, the stop of the invoker, the [after_worker_stopped] hook? *)
Definition is_teardown_call (e : event) : Prop :=
  match e with
  | Cancel _ | TransportClose _ | SchemaTransportClose | InvokerStop => True
  | RunCallback n _ _ | PluginHook n _ => n = "after_worker_stopped"
  | _ => False
  end.

(** What the guard of [run_forever] logs. *)
Definition disabling_rpcs_notice : string :=
  "Disabling serving of RPCs as no APIs have been registered".

(** What [run_forever] does once the guard is passed. *)
Definition serve_until_stopped (W : World) : M unit :=
  start_server W ;;
  perform RunLoopForever (run_loop_forever W) ;;
  stop_server W ;;
  close W.

(** [close_async]'s [try] block up to the closing of the schema transport. *)
Definition close_connections (W : World) (c : BusClient) : M unit :=
  tasks <- perform AllTasks (λ h, Ok (all_tasks W h)) ;;
  let listener_tasks := fst <$> filter (λ p, snd p = true) tasks in
  for_each (listener_tasks ++ _background_tasks c) (cancel_logged W) ;;
  ts <- perform GetAllTransports (λ h, Ok (get_all_transports W h)) ;;
  for_each ts
    (λ t, perform (TransportClose t) (λ h, transport_close W h t)).

(** ** Serving and calling RPCs, in parts *)

(** The RPC messages a stretch of history sent a result for, in order. *)
Definition replied_to (h : history) : list RpcMessage :=
  omap (λ e, match e with
             | TransportSendResult _ m _ _ => Some m
             | _ => None
             end) h.

(** [reply] up to the sending: fire [after_rpc_execution], validate a result
    that is not an error, initialise, find the result transport. *)
Definition prepare_reply (W : World) (m : RpcMessage) (rm : ResultMessage)
  : M transport :=
  _execute_hook W "after_rpc_execution" (mkHookKwargs (Some m) (Some rm)) ;;
  (if negb (error rm)
   then perform
          (Validate (MsgResult rm) "outgoing"
             (Some (api_name m)) (Some (procedure_name m)))
          (λ h, validate W h (MsgResult rm) "outgoing"
                  (Some (api_name m)) (Some (procedure_name m)))
   else ret tt) ;;
  lazy_load_now W ;;
  perform (GetResultTransport (api_name m))
    (λ h, get_result_transport W h (api_name m)).

Section CheckRpcModel.

Context (W : World).

(** [call_rpc_remote] up to the point where the call is handed to the
    transports: initialise, build the message, validate its name and the
    message itself. *)
Definition check_rpc_call (a name : string) (kw : pydict)
    (options : option pydict) : M (RpcMessage * pyvalue) :=
  lazy_load_now W ;;
  _ <- perform (GetRpcTransport a) (λ h, get_rpc_transport W h a) ;;
  result_transport <-
    perform (GetResultTransport a) (λ h, get_result_transport W h a) ;;
  kw <- perform (DeformKwargs kw) (λ h, deform_kwargs W h kw) ;;
  id <- perform (NewRpcMessage a name kw) (λ h, Ok (new_message_id W h)) ;;
  let rpc_message := mkRpcMessage id a name kw None in
  path <- perform (GetReturnPath result_transport rpc_message)
            (λ h, get_return_path W h result_transport rpc_message) ;;
  let rpc_message := with_return_path path rpc_message in
  let options := default ∅ options in
  let timeout := effective_timeout W a options in
  perform (ValidateName a "rpc" name) (λ h, validate_name W h a "rpc" name) ;;
  perform (Validate (MsgRpc rpc_message) "outgoing" None None)
    (λ h, validate W h (MsgRpc rpc_message) "outgoing" None None) ;;
  ret (rpc_message, timeout).

End CheckRpcModel.

(** Is [e] the creation of the gathered send and receive of a call? *)
Definition is_gather (e : event) : Prop :=
  match e with
  | Gather _ _ => True
  | _ => False
  end.

(** Is [e] a call of any hook? *)
Definition is_any_hook_call (e : event) : Prop :=
  match e with
  | RunCallback _ _ _ | PluginHook _ _ => True
  | _ => False
  end.

(** Does the [except Exception] clause of [_call_rpc_local] take [e]?  The
    clause before it lets [CancelledError] and [SuddenDeathException]
    through. *)
Definition is_logged (W : World) (e : exn) : bool :=
  match e with
  | CancelledError | SuddenDeathException => false
  | _ => is_Exception W e
  end.

(** The [AttributeError] that [getattr(api, name)] raises. *)
Definition missing_attribute (api : Api) (name : string) : exn :=
  AttributeError
    ("'" +:+ meta_name api +:+ "' object has no attribute '" +:+ name +:+ "'").

Section CallLocalModel.

Context (W : World).

(** The [try] block of [_call_rpc_local]. *)
Definition run_local_method (api : Api) (a name : string) (kw : pydict)
  : M pyvalue :=
  getattr_method api name ;;
  kw' <- (if cast_values W a
          then perform (CastToSignature a name kw)
                 (λ h, cast_to_signature W h a name kw)
          else ret kw) ;;
  perform (RunMethod a name kw') (λ h, run_method W h a name kw').

(** What its [except] clauses make of an exception. *)
Definition log_and_reraise (e : exn) : M pyvalue :=
  if is_logged W e
  then perform (LogException e) (λ _, Ok tt) ;; raise e
  else raise e.

End CallLocalModel.

(** * Properties of the client *)

(** ** Calls and frames of the monad's operations *)

Section Emits.

Context {P : event → Prop}.

Lemma emits_ret {A} (a : A) : emits P (ret a).
Proof.
  intros s r s' H. injection H as <- <-. exists []. by rewrite app_nil_r.
Qed.

Lemma emits_raise {A} (e : exn) : emits P (@raise A e).
Proof.
  intros s r s' H. injection H as <- <-. exists []. by rewrite app_nil_r.
Qed.

Lemma emits_get_client : emits P get_client.
Proof.
  intros s r s' H. injection H as <- <-. exists []. by rewrite app_nil_r.
Qed.

Lemma emits_modify_client f : emits P (modify_client f).
Proof.
  intros s r s' H. injection H as <- <-. exists []. by rewrite app_nil_r.
Qed.

Lemma emits_pure {A} (x : outcome A) : emits P (λ s, (x, s)).
Proof.
  intros s r s' H. injection H as <- <-. exists []. by rewrite app_nil_r.
Qed.

Lemma emits_perform {A} ev (f : history → outcome A) :
  P ev → emits P (perform ev f).
Proof.
  intros Hev s r s' H. injection H as <- <-. exists [ev]. split; auto.
Qed.

Lemma emits_spawn c : (∀ t, P (Spawn t c)) → emits P (spawn c).
Proof.
  intros Hev s r s' H. injection H as <- <-.
  exists [Spawn (Task (length (calls s))) c]. split; auto.
Qed.

Lemma emits_bind {A B} (m : M A) (k : A → M B) :
  emits P m → (∀ a, emits P (k a)) → emits P (bind m k).
Proof.
  intros Hm Hk s r s' H. unfold bind in H.
  destruct (m s) as [[a|e] s1] eqn:E.
  - destruct (Hm _ _ _ E) as (evs1 & H1 & F1).
    destruct (Hk a _ _ _ H) as (evs2 & H2 & F2).
    exists (evs1 ++ evs2). rewrite H2, H1, app_assoc. split; [done|].
    by apply Forall_app.
  - injection H as <- <-. eauto.
Qed.

Lemma emits_try_except {A} (body : M A) handler :
  emits P body → (∀ e h, handler e = Some h → emits P h) →
  emits P (try_except body handler).
Proof.
  intros Hb Hh s r s' H. unfold try_except in H.
  destruct (body s) as [[a|e] s1] eqn:E.
  - injection H as <- <-. eauto.
  - destruct (handler e) as [h|] eqn:Eh.
    + destruct (Hb _ _ _ E) as (evs1 & H1 & F1).
      destruct (Hh _ _ Eh _ _ _ H) as (evs2 & H2 & F2).
      exists (evs1 ++ evs2). rewrite H2, H1, app_assoc. split; [done|].
      by apply Forall_app.
    + injection H as <- <-. eauto.
Qed.

Lemma emits_try_finally {A} (body : M A) final :
  emits P body → emits P final → emits P (try_finally body final).
Proof.
  intros Hb Hf s r s' H. unfold try_finally in H.
  destruct (body s) as [rb s1] eqn:E.
  destruct (final s1) as [[[]|e] s2] eqn:Ef; injection H as <- <-;
    destruct (Hb _ _ _ E) as (evs1 & Hc1 & F1);
    destruct (Hf _ _ _ Ef) as (evs2 & Hc2 & F2);
    exists (evs1 ++ evs2); rewrite Hc2, Hc1, app_assoc;
    (split; [done|]); by apply Forall_app.
Qed.

Lemma emits_for_each {X} (xs : list X) body :
  (∀ x, emits P (body x)) → emits P (for_each xs body).
Proof.
  intros Hb. induction xs as [|x xs IH]; simpl.
  - apply emits_ret.
  - apply emits_bind; auto.
Qed.

Lemma emits_for_each_until {X} (xs : list X) body :
  (∀ x, emits P (body x)) → emits P (for_each_until xs body).
Proof.
  intros Hb. induction xs as [|x xs IH]; simpl.
  - apply emits_ret.
  - apply emits_bind; auto. intros []; auto using emits_ret.
Qed.

End Emits.

Lemma emits_mono {A} (P Q : event → Prop) (m : M A) :
  (∀ e, P e → Q e) → emits P m → emits Q m.
Proof.
  intros HPQ Hm s r s' H. destruct (Hm _ _ _ H) as (evs & ? & F).
  exists evs. split; [done|]. eapply Forall_impl; eauto.
Qed.

Section Keeps.

Context {X : Type} (f : BusClient → X).

Lemma keeps_ret {A} (a : A) : keeps f (ret a).
Proof. intros s r s' H. by injection H as <- <-. Qed.

Lemma keeps_raise {A} (e : exn) : keeps f (@raise A e).
Proof. intros s r s' H. by injection H as <- <-. Qed.

Lemma keeps_get_client : keeps f get_client.
Proof. intros s r s' H. by injection H as <- <-. Qed.

Lemma keeps_pure {A} (x : outcome A) : keeps f (λ s, (x, s)).
Proof. intros s r s' H. by injection H as <- <-. Qed.

Lemma keeps_modify_client g :
  (∀ c, f (g c) = f c) → keeps f (modify_client g).
Proof. intros Hg s r s' H. injection H as <- <-. apply Hg. Qed.

Lemma keeps_perform {A} ev (a : history → outcome A) :
  keeps f (perform ev a).
Proof. intros s r s' H. by injection H as <- <-. Qed.

Lemma keeps_spawn c : keeps f (spawn c).
Proof. intros s r s' H. by injection H as <- <-. Qed.

Lemma keeps_bind {A B} (m : M A) (k : A → M B) :
  keeps f m → (∀ a, keeps f (k a)) → keeps f (bind m k).
Proof.
  intros Hm Hk s r s' H. unfold bind in H.
  destruct (m s) as [[a|e] s1] eqn:E.
  - rewrite (Hk a _ _ _ H). eauto.
  - injection H as <- <-. eauto.
Qed.

Lemma keeps_try_except {A} (body : M A) handler :
  keeps f body → (∀ e h, handler e = Some h → keeps f h) →
  keeps f (try_except body handler).
Proof.
  intros Hb Hh s r s' H. unfold try_except in H.
  destruct (body s) as [[a|e] s1] eqn:E.
  - injection H as <- <-. eauto.
  - destruct (handler e) as [h|] eqn:Eh.
    + rewrite (Hh _ _ Eh _ _ _ H). eauto.
    + injection H as <- <-. eauto.
Qed.

Lemma keeps_try_finally {A} (body : M A) final :
  keeps f body → keeps f final → keeps f (try_finally body final).
Proof.
  intros Hb Hf s r s' H. unfold try_finally in H.
  destruct (body s) as [rb s1] eqn:E.
  destruct (final s1) as [[[]|e] s2] eqn:Ef; injection H as <- <-;
    rewrite (Hf _ _ _ Ef); eauto.
Qed.

Lemma keeps_for_each {Y} (xs : list Y) body :
  (∀ x, keeps f (body x)) → keeps f (for_each xs body).
Proof.
  intros Hb. induction xs as [|x xs IH]; simpl.
  - apply keeps_ret.
  - apply keeps_bind; auto.
Qed.

Lemma keeps_for_each_until {Y} (xs : list Y) body :
  (∀ x, keeps f (body x)) → keeps f (for_each_until xs body).
Proof.
  intros Hb. induction xs as [|x xs IH]; simpl.
  - apply keeps_ret.
  - apply keeps_bind; auto. intros []; auto using keeps_ret.
Qed.

End Keeps.

(** Decompose a goal [emits P m] or [keeps f m] along the shape of [m]. *)
Ltac method_step :=
  lazymatch goal with
  | |- emits _ (bind _ _) => apply emits_bind; [|intros ?]
  | |- emits _ (ret _) => apply emits_ret
  | |- emits _ (raise _) => apply emits_raise
  | |- emits _ get_client => apply emits_get_client
  | |- emits _ (modify_client _) => apply emits_modify_client
  | |- emits _ (perform _ _) => apply emits_perform
  | |- emits _ (spawn _) => apply emits_spawn; intros ?
  | |- emits _ (for_each _ _) => apply emits_for_each; intros ?
  | |- emits _ (for_each_until _ _) => apply emits_for_each_until; intros ?
  | |- emits _ (try_finally _ _) => apply emits_try_finally
  | |- emits _ (try_except _ _) =>
      apply emits_try_except; [|intros ? ? ?]
  | |- emits _ (λ s, (_, s)) => apply emits_pure
  | |- emits _ (if ?b then _ else _) => destruct b
  | |- emits _ (match ?x with _ => _ end) => destruct x
  | |- keeps _ (bind _ _) => apply keeps_bind; [|intros ?]
  | |- keeps _ (ret _) => apply keeps_ret
  | |- keeps _ (raise _) => apply keeps_raise
  | |- keeps _ get_client => apply keeps_get_client
  | |- keeps _ (modify_client _) => apply keeps_modify_client; intros ?
  | |- keeps _ (perform _ _) => apply keeps_perform
  | |- keeps _ (spawn _) => apply keeps_spawn
  | |- keeps _ (for_each _ _) => apply keeps_for_each; intros ?
  | |- keeps _ (for_each_until _ _) => apply keeps_for_each_until; intros ?
  | |- keeps _ (try_finally _ _) => apply keeps_try_finally
  | |- keeps _ (try_except _ _) =>
      apply keeps_try_except; [|intros ? ? ?]
  | |- keeps _ (λ s, (_, s)) => apply keeps_pure
  | |- keeps _ (if ?b then _ else _) => destruct b
  | |- keeps _ (match ?x with _ => _ end) => destruct x
  end.

(** A handler that answered [Some h]: find out which branch it was. *)
Ltac handler_cases :=
  repeat match goal with
  | H : match ?e with _ => _ end = Some _ |- _ => destruct e; try discriminate H
  | H : (if ?b then _ else _) = Some _ |- _ => destruct b; try discriminate H
  | H : Some _ = Some _ |- _ => injection H as <-
  end.

(** ** Loops, hooks and lazy initialisation *)

(** A loop of calls that ran to its end made one call per element, in
    order, and left the client alone. *)
Lemma for_each_perform_ok {X} (xs : list X) (ev : X → event)
    (answer : X → history → outcome unit) s s' :
  for_each xs (λ x, perform (ev x) (answer x)) s = (Ok tt, s') →
  client s' = client s ∧ calls s' = calls s ++ (ev <$> xs).
Proof.
  revert s. induction xs as [|x xs IH]; intros s H; simpl in H.
  - injection H as <-. by rewrite app_nil_r.
  - unfold bind in H at 1. unfold perform in H at 1.
    destruct (answer x (calls s)) as [[]|e]; [|discriminate].
    apply IH in H as [-> ->]. simpl. split; [done|].
    by rewrite <- app_assoc.
Qed.

Lemma _execute_hook_ok W name kw s s' :
  _execute_hook W name kw s = (Ok tt, s') →
  client s' = client s ∧ calls s' = calls s ++ hook_calls name kw (client s).
Proof.
  unfold _execute_hook, hook_calls. intros H.
  unfold bind in H at 1. unfold get_client in H at 1.
  unfold bind in H at 1.
  destruct (for_each _ _ s) as [[[]|e] s1] eqn:E1; [|discriminate].
  apply for_each_perform_ok in E1 as [Hc1 Hh1].
  unfold bind in H at 1. unfold perform in H at 1.
  destruct (plugin_execute_hook W (calls s1) name kw) as [[]|e];
    [|discriminate].
  unfold bind in H at 1. unfold get_client in H at 1. simpl in H.
  apply for_each_perform_ok in H as [Hc2 Hh2]. simpl in *.
  rewrite Hc2, Hh2, Hh1, Hc1. split; [done|].
  by rewrite <- !app_assoc.
Qed.

Lemma _execute_hook_emits W name kw :
  emits (is_hook_call name) (_execute_hook W name kw).
Proof. unfold _execute_hook. repeat method_step; done. Qed.

Lemma lazy_load_now_emits W : emits is_lazy_load_call (lazy_load_now W).
Proof.
  unfold lazy_load_now, add_local_apis, open_transports.
  repeat method_step; done.
Qed.

(** A client that has been initialised is not initialised again. *)
Lemma lazy_load_now_complete W s :
  _lazy_load_complete (client s) = true → lazy_load_now W s = (Ok tt, s).
Proof.
  intros H. unfold lazy_load_now, bind, get_client. by rewrite H.
Qed.

Lemma bind_ok_inv {A B} (m : M A) (k : A → M B) s b s' :
  bind m k s = (Ok b, s') →
  ∃ a s1, m s = (Ok a, s1) ∧ k a s1 = (Ok b, s').
Proof.
  unfold bind. destruct (m s) as [[a|e] s1]; [eauto|discriminate].
Qed.

Lemma bind_inv {A B} (m : M A) (k : A → M B) s r s' :
  bind m k s = (r, s') →
  (∃ a s1, m s = (Ok a, s1) ∧ k a s1 = (r, s'))
  ∨ (∃ e, m s = (Raise e, s') ∧ r = Raise e).
Proof.
  unfold bind. destruct (m s) as [[a|e] s1]; [eauto|].
  intros H. injection H as <- <-. eauto.
Qed.

(** Split the first step off a successful run [H]. *)
Ltac run_ok H a s1 E :=
  apply bind_ok_inv in H as (a & s1 & E & H).

Lemma for_each_perform_calls {X} (xs : list X) (ev : X → event)
    (answer : X → history → outcome unit) s r s' :
  for_each xs (λ x, perform (ev x) (answer x)) s = (r, s') →
  client s' = client s
  ∧ ∃ done, done `prefix_of` xs ∧ calls s' = calls s ++ (ev <$> done).
Proof.
  revert s. induction xs as [|x xs IH]; intros s H; simpl in H.
  - injection H as <- <-. split; [done|]. exists []. by rewrite app_nil_r.
  - unfold bind in H at 1. unfold perform in H at 1.
    destruct (answer x (calls s)) as [[]|e].
    + apply IH in H as (-> & done & Hp & ->). split; [done|].
      exists (x :: done). split; [by apply prefix_cons|].
      simpl. by rewrite <- app_assoc.
    + injection H as <- <-. split; [done|]. exists [x].
      split; [|done]. apply prefix_cons, prefix_nil.
Qed.

Lemma _execute_hook_calls W name kw s r s' :
  _execute_hook W name kw s = (r, s') →
  client s' = client s
  ∧ ∃ evs, calls s' = calls s ++ evs
           ∧ Forall (is_hook_call_of name (client s)) evs.
Proof.
  assert (Hin : ∀ b done, done `prefix_of` hooks_for name b (client s) →
            Forall (is_hook_call_of name (client s))
              ((λ cb, RunCallback name cb kw) <$> done)).
  { intros b done [rest Hp]. apply Forall_fmap, Forall_forall.
    intros cb Hcb. simpl. split; [done|]. exists b. rewrite Hp.
    apply elem_of_app. by left. }
  unfold _execute_hook. intros H.
  unfold bind in H at 1. unfold get_client in H at 1.
  apply bind_inv in H as [(a & s1 & E1 & H)|(e & E1 & ->)];
    apply for_each_perform_calls in E1 as (Hc1 & d1 & Hp1 & Hh1).
  2:{ split; [done|]. eauto. }
  apply bind_inv in H as [([] & s2 & E2 & H)|(e & E2 & ->)].
  2:{ injection E2 as ? <-. simpl. split; [done|].
      exists (((λ cb, RunCallback name cb kw) <$> d1) ++ [PluginHook name kw]).
      rewrite Hh1, <- app_assoc. split; [done|].
      apply Forall_app. split; [eauto|]. by repeat constructor. }
  injection E2 as ? <-.
  unfold bind in H at 1. unfold get_client in H at 1. simpl in H.
  apply for_each_perform_calls in H as (Hc2 & d2 & Hp2 & Hh2). simpl in *.
  rewrite Hc2. split; [done|].
  exists (((λ cb, RunCallback name cb kw) <$> d1) ++ [PluginHook name kw]
          ++ ((λ cb, RunCallback name cb kw) <$> d2)).
  rewrite Hh2, Hh1, <- !app_assoc. split; [done|].
  rewrite Hc1 in Hp2.
  apply Forall_app. split; [eauto|]. apply Forall_cons. split; [done|eauto].
Qed.

(** ** Hook registration *)

Lemma hooks_for_registered name bp fn c :
  hooks_for name bp
    (set_hook_callbacks
       (<[(name, bp) := hooks_for name bp c ++ [fn]]> (_hook_callbacks c)) c)
  = hooks_for name bp c ++ [fn].
Proof. unfold hooks_for. simpl. by rewrite lookup_insert_eq. Qed.

Lemma hooks_for_other name bp name' bp' fn c :
  (name, bp) ≠ (name', bp') →
  hooks_for name' bp'
    (set_hook_callbacks
       (<[(name, bp) := hooks_for name bp c ++ [fn]]> (_hook_callbacks c)) c)
  = hooks_for name' bp' c.
Proof. intros Hne. unfold hooks_for. simpl. by rewrite lookup_insert_ne. Qed.

(** A callable handed to [_make_hook_decorator] is appended to the list of
    its hook and of its side of the plugins, and to no other list. *)
Lemma _make_hook_decorator_registers name bp fn s :
  cb_callable fn = true →
  ∃ s', _make_hook_decorator name bp (Some fn) s = (Ok ReturnedNone, s')
        ∧ calls s' = calls s
        ∧ hooks_for name bp (client s') = hooks_for name bp (client s) ++ [fn]
        ∧ ∀ name' bp', (name, bp) ≠ (name', bp') →
            hooks_for name' bp' (client s') = hooks_for name' bp' (client s).
Proof.
  intros Hc. unfold _make_hook_decorator. rewrite Hc. simpl.
  eexists. split; [reflexivity|]. simpl. split; [done|].
  split; [apply hooks_for_registered|].
  intros name' bp' Hne. by apply hooks_for_other.
Qed.

Lemma _setup_server_runs_start_hooks W s s' :
  _setup_server W s = (Ok tt, s') →
  ∃ before after,
    calls s' = calls s ++ before
               ++ hook_calls "before_worker_start" no_kwargs (client s)
               ++ after
    ∧ Forall (λ e, ¬ is_hook_call "before_worker_start" e) before.
Proof.
  assert (Hk : ∀ W' : World, keeps _hook_callbacks
             (register_api LightbusStateApi ;;
              register_api LightbusMetricsApi ;;
              add_local_apis W' ;; lazy_load_now W' ;; spawn CoSchemaMonitor)).
  { intros W'. unfold lazy_load_now, register_api, add_local_apis,
      open_transports. repeat method_step; done. }
  assert (He : ∀ W' : World,
             emits (λ e, ¬ is_hook_call "before_worker_start" e)
             (register_api LightbusStateApi ;;
              register_api LightbusMetricsApi ;;
              add_local_apis W' ;; lazy_load_now W' ;; spawn CoSchemaMonitor)).
  { intros W'. unfold lazy_load_now, register_api, add_local_apis,
      open_transports. repeat method_step; simpl; tauto. }
  intros H. unfold _setup_server in H.
  run_ok H a1 s1 E1. run_ok H a2 s2 E2. run_ok H a3 s3 E3.
  run_ok H a4 s4 E4. run_ok H a5 s5 E5. run_ok H a6 s6 E6.
  assert (E : (register_api LightbusStateApi ;;
              register_api LightbusMetricsApi ;;
              add_local_apis W ;; lazy_load_now W ;; spawn CoSchemaMonitor) s
              = (Ok a5, s5)).
  { unfold bind at 1. rewrite E1. unfold bind at 1. rewrite E2.
    unfold bind at 1. rewrite E3. unfold bind at 1. by rewrite E4. }
  pose proof (Hk W _ _ _ E) as Hhooks.
  destruct (He W _ _ _ E) as (before & Hb & Fb).
  destruct a6. apply _execute_hook_ok in E6 as [Hc6 Hh6].
  assert (Hafter : emits (λ _, True)
    (c <- get_client ;;
     consume_rpc_task <-
       (if bool_decide (RPCS ∈ features c)
        then t <- spawn CoConsumeRpcs ;; ret (Some t)
        else ret None) ;;
     c <- get_client ;;
     (if bool_decide (EVENTS ∈ features c)
      then for_each (_event_listeners c)
             (λ l, perform (StartListener l) (λ _, Ok tt))
      else ret tt) ;;
     c <- get_client ;;
     (if bool_decide (TASKS ∈ features c)
      then for_each (_background_coroutines c)
             (λ co, t <- spawn (CoUser co) ;;
                modify_client
                  (λ c, set_background_tasks (_background_tasks c ++ [t]) c))
      else ret tt) ;;
     modify_client (set_server_tasks [consume_rpc_task; Some a5]))).
  { repeat method_step; done. }
  destruct (Hafter _ _ _ H) as (after & Ha & _).
  exists before, after. split; [|done].
  rewrite Ha, Hh6, Hb, <- !app_assoc.
  unfold hook_calls, hooks_for. by rewrite Hhooks.
Qed.

Lemma _stop_server_inner_calls W s r s' :
  _stop_server_inner W s = (r, s') →
  ∃ evs, calls s' = calls s ++ Cancel (_server_tasks (client s)) :: evs
         ∧ Forall (is_hook_call_of "after_worker_stopped" (client s)) evs.
Proof.
  unfold _stop_server_inner. intros H.
  unfold bind in H at 1. unfold get_client in H at 1.
  apply bind_inv in H as [([] & s1 & E & H)|(e & E & ->)];
    injection E as ? <-.
  - apply _execute_hook_calls in H as (_ & evs & Hh & F). simpl in *.
    exists evs. by rewrite Hh, <- app_assoc.
  - exists []. done.
Qed.

(** C10.  A callback registered through [on_stop] lands on the
    [before_worker_start] hook and not on [after_worker_stopped]: the lists
    of [after_worker_stopped] are unchanged, server start-up calls the
    callback (under the name [before_worker_start]), and server stop does
    not call it unless it was on [after_worker_stopped] already.  Used as a
    decorator, [on_stop] returns the closure over [before_worker_start].
    Registering through [after_worker_stopped] itself appends the callback
    to the [after_worker_stopped] list and leaves [before_worker_start]
    alone. *)
Theorem on_stop_attaches_to_before_worker_start
    (fn : callback) (before_plugins : bool) (s : State) :
  cb_callable fn = true →
  (∃ s1,
     on_stop (Some fn) before_plugins s = (Ok ReturnedNone, s1)
     ∧ hooks_for "before_worker_start" before_plugins (client s1)
       = hooks_for "before_worker_start" before_plugins (client s) ++ [fn]
     ∧ (∀ b, hooks_for "after_worker_stopped" b (client s1)
             = hooks_for "after_worker_stopped" b (client s))
     ∧ (∀ W s2, _setup_server W s1 = (Ok tt, s2) →
          ∃ new, calls s2 = calls s1 ++ new
                 ∧ RunCallback "before_worker_start" fn no_kwargs ∈ new)
     ∧ (∀ W r s2,
          (∀ b, fn ∉ hooks_for "after_worker_stopped" b (client s)) →
          _stop_server_inner W s1 = (r, s2) →
          ∃ new, calls s2 = calls s1 ++ new
                 ∧ ∀ name kw, RunCallback name fn kw ∉ new))
  ∧ on_stop None before_plugins s
    = (Ok (hook_decorator "before_worker_start" before_plugins), s)
  ∧ (∃ s1,
       after_worker_stopped (Some fn) before_plugins s = (Ok ReturnedNone, s1)
       ∧ hooks_for "after_worker_stopped" before_plugins (client s1)
         = hooks_for "after_worker_stopped" before_plugins (client s) ++ [fn]
       ∧ (∀ b, hooks_for "before_worker_start" b (client s1)
               = hooks_for "before_worker_start" b (client s))).
Proof.
  intros Hc. split; [|split]; [| done |].
  - destruct (_make_hook_decorator_registers "before_worker_start"
                before_plugins fn s Hc) as (s1 & E & Hcalls & Hreg & Hother).
    exists s1. split; [exact E|]. split; [exact Hreg|].
    split; [intros b; by apply Hother|]. split.
    + intros W s2 H.
      apply _setup_server_runs_start_hooks in H as (before & after & -> & _).
      eexists. split; [reflexivity|].
      apply elem_of_app. right. apply elem_of_app. left.
      unfold hook_calls. destruct before_plugins.
      * apply elem_of_app. left. rewrite Hreg, fmap_app.
        apply elem_of_app. right. simpl. apply list_elem_of_singleton. done.
      * apply elem_of_app. right. apply elem_of_cons. right.
        rewrite Hreg, fmap_app.
        apply elem_of_app. right. simpl. apply list_elem_of_singleton. done.
    + intros W r s2 Hnot H.
      apply _stop_server_inner_calls in H as (evs & -> & F).
      eexists. split; [reflexivity|].
      intros name kw Hin. apply elem_of_cons in Hin as [Hin|Hin];
        [discriminate|].
      rewrite Forall_forall in F. apply F in Hin as [_ [b Hb]].
      rewrite Hother in Hb by done. by apply (Hnot b).
  - destruct (_make_hook_decorator_registers "after_worker_stopped"
                before_plugins fn s Hc) as (s1 & E & Hcalls & Hreg & Hother).
    exists s1. split; [exact E|]. split; [exact Hreg|].
    intros b; by apply Hother.
Qed.

Lemma on_stop_attaches_to_before_worker_start_witness :
  cb_callable (mkCallback "say_goodbye" true) = true
  ∧ ∃ s1,
      on_stop (Some (mkCallback "say_goodbye" true)) false fresh_client
      = (Ok ReturnedNone, s1)
      ∧ hooks_for "before_worker_start" false (client s1)
        = [mkCallback "say_goodbye" true]
      ∧ hooks_for "after_worker_stopped" false (client s1) = [].
Proof.
  split; [reflexivity|].
  destruct (on_stop_attaches_to_before_worker_start
              (mkCallback "say_goodbye" true) false fresh_client eq_refl)
    as [(s1 & E & Hreg & Hother & _) _].
  exists s1. split; [exact E|]. split; [exact Hreg|]. apply Hother.
Defined.

(** ** Firing events *)

(** C3.  [fire_event] makes one call, [event_client.listen] with the event's
    api_name, name, kwargs and options, and returns what it answers.  The
    event message is not validated, neither [before_event_sent] nor
    [after_event_sent] fires, and no transport is asked to send anything:
    the method does not run the send path (validate, [before_event_sent],
    [send_event], [after_event_sent]). *)
Theorem fire_event_only_calls_listen
    (W : World) (a name : string) (kw options : option pydict) (s : State) :
  fire_event W a name kw options s
  = (event_client_listen W (calls s) a name kw options,
     mkState (client s) (calls s ++ [EventClientListen a name kw options]))
  ∧ ∀ e, e ∈ [EventClientListen a name kw options] →
         ¬ is_hook_call "before_event_sent" e
         ∧ ¬ is_hook_call "after_event_sent" e
         ∧ (∀ m d x y, e ≠ Validate m d x y).
Proof.
  split; [reflexivity|].
  intros e He. apply list_elem_of_singleton in He as ->. simpl.
  split; [tauto|]. split; [tauto|]. discriminate.
Qed.

Example fire_event_svc_x :
  fire_event calm_world "svc.x" "evt" (Some ∅) None fresh_client
  = (Ok VNone,
     mkState (new_BusClient ALL_FEATURES)
       [EventClientListen "svc.x" "evt" (Some ∅) None]).
Proof. reflexivity. Qed.

(** ** Closing the client *)

Lemma cancel_all_ok W ts s s' :
  for_each ts (cancel_logged W) s = (Ok tt, s') →
  client s' = client s
  ∧ ∃ evs, calls s' = calls s ++ evs
           ∧ cancelled_tasks evs = ts
           ∧ Forall is_cancel_or_log evs.
Proof.
  revert s. induction ts as [|t ts IH]; intros s H; simpl in H.
  - injection H as <-. split; [done|]. exists []. rewrite app_nil_r.
    repeat split. constructor.
  - run_ok H a s1 E. apply IH in H as (Hc & evs & Hh & Hts & F).
    unfold cancel_logged, try_except, perform in E.
    destruct (cancel W (calls s) [Some t]) as [[]|e].
    + injection E as ? <-. simpl in *. split; [done|].
      exists (Cancel [Some t] :: evs). rewrite Hh, <- app_assoc.
      split; [done|]. split; [simpl; by rewrite Hts|].
      by constructor.
    + destruct (is_Exception W e); [|discriminate].
      injection E as ? <-. simpl in *. split; [done|].
      exists (Cancel [Some t] :: LogException e :: evs).
      rewrite Hh, <- !app_assoc. split; [done|].
      split; [simpl; by rewrite Hts|]. by repeat constructor.
Qed.

(** Closing a closed client. *)
Lemma close_async_closed W s :
  _closed (client s) = true →
  close_async W s
  = (match invoker_stop W (calls s) with
     | Ok _ => Raise BusAlreadyClosed
     | Raise e => Raise e
     end,
     mkState (client s) (calls s ++ [InvokerStop])).
Proof.
  intros Hc. unfold close_async, try_finally, bind, get_client, perform.
  rewrite Hc. simpl. by destruct (invoker_stop W (calls s)) as [[]|e].
Qed.

Lemma close_async_ok W s s1 :
  close_async W s = (Ok tt, s1) →
  _closed (client s) = false
  ∧ client s1 = set_closed true (client s)
  ∧ ∃ cancelling,
      let h := calls s ++ [AllTasks] ++ cancelling in
      calls s1
      = h ++ [GetAllTransports]
          ++ (TransportClose <$> get_all_transports W h)
          ++ [SchemaTransportClose; InvokerStop]
      ∧ cancelled_tasks cancelling = tasks_to_cancel W s
      ∧ Forall is_cancel_or_log cancelling.
Proof.
  unfold close_async, try_finally. intros H.
  match type of H with
  | (let '(_, _) := ?b s in _) = _ => destruct (b s) as [rb sb] eqn:Eb
  end.
  unfold perform in H at 1.
  destruct (invoker_stop W (calls sb)) as [[]|e]; [|discriminate].
  injection H as -> <-. simpl.
  unfold bind in Eb at 1. unfold get_client in Eb at 1.
  destruct (_closed (client s)) eqn:Hclosed; [discriminate|].
  split; [done|].
  run_ok Eb tasks s2 E2. injection E2 as <- <-.
  run_ok Eb a3 s3 E3. destruct a3.
  apply cancel_all_ok in E3 as (Hc3 & cancelling & Hh3 & Hts & F).
  run_ok Eb ts s4 E4. injection E4 as <- <-.
  run_ok Eb a5 s5 E5. destruct a5.
  apply for_each_perform_ok in E5 as [Hc5 Hh5].
  run_ok Eb a6 s6 E6. unfold perform in E6.
  injection Eb as <-. simpl in *.
  destruct (schema_transport_close W (calls s5)) as [[]|e]; [|discriminate].
  injection E6 as <- <-. simpl.
  rewrite Hc5, Hc3. split; [done|].
  exists cancelling. split; [|done].
  rewrite Hh5, Hh3. simpl. by rewrite <- !app_assoc.
Qed.

Lemma close_times_closed W n s :
  _closed (client s) = true →
  (∀ h, invoker_stop W h = Ok tt) →
  close_times W n s
  = (replicate n (Raise BusAlreadyClosed),
     mkState (client s) (calls s ++ replicate n InvokerStop)).
Proof.
  intros Hc Hstop. revert s Hc. induction n as [|n IH]; intros s Hc; simpl.
  - rewrite app_nil_r. by destruct s.
  - rewrite close_async_closed, Hstop by done.
    rewrite IH by done. simpl. by rewrite <- app_assoc.
Qed.

(** C2.  A call to [close_async] that completes found the client open, asked
    the loop for its tasks and cancelled the listener tasks and the
    background tasks one by one, closed every transport of the registry and
    the schema transport, marked the client closed and stopped the transport
    invoker.  Every call after it, however many, raises [BusAlreadyClosed]
    and adds nothing to the history but the stop of the transport invoker,
    which the [finally] clause runs on every call.  (The invoker's [stop] is
    taken to return: an exception from it would replace the one being
    raised.) *)
Theorem close_async_once_then_already_closed
    (W : World) (s s1 : State) (n : nat) :
  close_async W s = (Ok tt, s1) →
  (∀ h, invoker_stop W h = Ok tt) →
  (_closed (client s) = false
   ∧ client s1 = set_closed true (client s)
   ∧ ∃ cancelling,
       let h := calls s ++ [AllTasks] ++ cancelling in
       calls s1
       = h ++ [GetAllTransports]
           ++ (TransportClose <$> get_all_transports W h)
           ++ [SchemaTransportClose; InvokerStop]
       ∧ cancelled_tasks cancelling = tasks_to_cancel W s
       ∧ Forall is_cancel_or_log cancelling)
  ∧ close_times W n s1
    = (replicate n (Raise BusAlreadyClosed),
       mkState (client s1) (calls s1 ++ replicate n InvokerStop))
  ∧ close W s = close_async W s.
Proof.
  intros H Hstop. pose proof (close_async_ok _ _ _ H) as Hfirst.
  split; [exact Hfirst|]. split; [|done].
  apply close_times_closed; [|done].
  destruct Hfirst as (_ & -> & _). done.
Qed.

Lemma close_async_once_then_already_closed_witness :
  close_async busy_world busy_client = (Ok tt, busy_client_closed)
  ∧ (∀ h, invoker_stop busy_world h = Ok tt)
  ∧ close_times busy_world 2 busy_client_closed
    = ([Raise BusAlreadyClosed; Raise BusAlreadyClosed],
       mkState (client busy_client_closed)
         (calls busy_client_closed ++ [InvokerStop; InvokerStop])).
Proof.
  split; [reflexivity|]. split; [reflexivity|].
  exact (proj1 (proj2 (close_async_once_then_already_closed
                  busy_world busy_client busy_client_closed 2
                  eq_refl (λ _, eq_refl)))).
Defined.

(** Closing twice when the transport cannot be closed: each call cancels,
    tries the transport, stops the invoker and raises the transport's
    exception. *)
Example close_fails_twice :
  close_async stuck_world busy_client
  = (Raise (OtherException "ConnectionError" "reset"), busy_client_stuck)
  ∧ close_async stuck_world busy_client_stuck
    = (Raise (OtherException "ConnectionError" "reset"),
       mkState (client busy_client)
         (calls busy_client_stuck
          ++ [AllTasks; Cancel [Some (Task 3)]; GetAllTransports;
              TransportClose (Transport "redis"); InvokerStop])).
Proof. split; reflexivity. Qed.

(** C2, as stated, fails.  When a transport fails to close, the first call
    raises before the client is marked closed; the client stays open, and
    the next call does not raise [BusAlreadyClosed] but cancels and closes
    again. *)
Lemma close_not_once_only : ¬ close_is_once_only stuck_world.
Proof.
  intros H.
  destruct (H busy_client _ _ 1%nat eq_refl (proj1 close_fails_twice))
    as [Hclosed Hlater].
  vm_compute in Hlater. discriminate Hlater.
Qed.

(** ** Lazy initialisation once *)

Section LazySteps.

Context (W : World).






End LazySteps.




Lemma lazy_load_now_ok W s s1 :
  _lazy_load_complete (client s) = false →
  lazy_load_now W s = (Ok tt, s1) →
  client s1 = set_lazy_load_complete true (client s)
  ∧ let h := calls s ++ [EnsureLoadedFromBus]
             ++ (SchemaAddApi <$> registry_all (api_registry (client s))) in
    calls s1
    = h ++ [GetAllTransports] ++ (TransportOpen <$> get_all_transports W h).
Proof.
  intros Hc H. unfold lazy_load_now in H.
  unfold bind in H at 1. unfold get_client in H at 1. rewrite Hc in H.
  run_ok H a1 s2 E1. unfold perform in E1. injection E1 as _ <-.
  run_ok H a2 s3 E2. destruct a2. unfold add_local_apis in E2.
  unfold bind in E2 at 1. unfold get_client in E2 at 1.
  apply for_each_perform_ok in E2 as [Hc3 Hh3]. simpl in *.
  run_ok H a3 s4 E3. destruct a3. unfold open_transports in E3.
  run_ok E3 ts s5 E4. injection E4 as <- <-.
  apply for_each_perform_ok in E3 as [Hc4 Hh4]. simpl in *.
  injection H as <-. simpl. rewrite Hc4, Hc3. split; [done|].
  rewrite Hh4, Hh3. by rewrite <- !app_assoc.
Qed.



(** ** Server start-up and the RPCS feature *)

Section Maintains.

Context (I : BusClient → Prop) (P : event → Prop).

Lemma maintains_bind {A B} (m : M A) (k : A → M B) :
  maintains I P m → (∀ a, maintains I P (k a)) → maintains I P (bind m k).
Proof.
  intros Hm Hk s r s' HI H.
  apply bind_inv in H as [(a & s1 & E & H)|(e & E & ->)].
  - destruct (Hm _ _ _ HI E) as (HI1 & evs1 & H1 & F1).
    destruct (Hk a _ _ _ HI1 H) as (HI2 & evs2 & H2 & F2).
    split; [done|]. exists (evs1 ++ evs2).
    rewrite H2, H1, app_assoc. split; [done|]. by apply Forall_app.
  - eauto.
Qed.

(** After [c <- get_client], the continuation knows that [c] satisfies the
    invariant. *)
Lemma maintains_get_client {B} (k : BusClient → M B) :
  (∀ c, I c → maintains I P (k c)) → maintains I P (bind get_client k).
Proof.
  intros Hk s r s' HI H. unfold bind, get_client in H. eapply Hk; eauto.
Qed.

Lemma maintains_emits_keeps {A X} (f : BusClient → X) (m : M A) :
  (∀ c c', f c' = f c → I c → I c') →
  emits P m → keeps f m → maintains I P m.
Proof.
  intros HfI He Hkeep s r s' HI H. split.
  - eapply HfI; [|exact HI]. eapply Hkeep; eauto.
  - eapply He; eauto.
Qed.

End Maintains.

Lemma rpcs_disabled_features c c' :
  features c' = features c → rpcs_disabled c → rpcs_disabled c'.
Proof. unfold rpcs_disabled. by intros ->. Qed.

(** With RPCS off, [_setup_server] starts no RPC consumer and leaves the
    features alone. *)
Lemma _setup_server_rpcs_disabled W :
  maintains rpcs_disabled (λ e, ¬ is_consumer_spawn e) (_setup_server W).
Proof.
  unfold _setup_server.
  do 6 (apply maintains_bind;
          [apply (maintains_emits_keeps _ _ features);
           [apply rpcs_disabled_features
           |unfold lazy_load_now, register_api, add_local_apis,
              open_transports, _execute_hook; repeat method_step; simpl; tauto
           |unfold lazy_load_now, register_api, add_local_apis,
              open_transports, _execute_hook; repeat method_step; done]
          |intros ?]).
  apply maintains_get_client. intros c Hc.
  rewrite bool_decide_eq_false_2 by exact Hc.
  apply (maintains_emits_keeps _ _ features);
    [apply rpcs_disabled_features
    |repeat method_step; simpl; tauto
    |repeat method_step; done].
Qed.

Lemma list_remove_NoDup `{EqDecision X} (x : X) (l : list X) :
  NoDup l → x ∉ list_remove x l.
Proof.
  induction 1 as [|y l Hy Hl IH]; simpl.
  - apply not_elem_of_nil.
  - destruct (decide (y = x)) as [->|Hne]; [done|].
    rewrite not_elem_of_cons. split; [congruence|done].
Qed.

Lemma close_async_rpcs_disabled W :
  maintains rpcs_disabled (λ e, ¬ is_consumer_spawn e) (close_async W).
Proof.
  apply (maintains_emits_keeps _ _ features);
    [apply rpcs_disabled_features
    |unfold close_async, cancel_logged; repeat method_step;
       handler_cases; repeat method_step; simpl; tauto
    |unfold close_async, cancel_logged; repeat method_step;
       handler_cases; repeat method_step; done].
Qed.

Lemma after_guard_rpcs_disabled W :
  maintains rpcs_disabled (λ e, ¬ is_consumer_spawn e)
    (start_server W ;;
     perform RunLoopForever (run_loop_forever W) ;;
     stop_server W ;;
     close W).
Proof.
  assert (Hblock : ∀ {A} (m : M A),
            emits (λ e, ¬ is_consumer_spawn e) m → keeps features m →
            maintains rpcs_disabled (λ e, ¬ is_consumer_spawn e) m).
  { intros A m. apply maintains_emits_keeps, rpcs_disabled_features. }
  unfold start_server.
  apply maintains_bind; [|intros ?].
  { do 5 (apply maintains_bind;
          [apply Hblock; repeat method_step; simpl; tauto || done|intros ?]).
    apply _setup_server_rpcs_disabled. }
  apply maintains_bind; [apply Hblock; repeat method_step; simpl; tauto|].
  intros ?. apply maintains_bind; [|intros ?; apply close_async_rpcs_disabled].
  apply Hblock; unfold stop_server, _stop_server_inner, _execute_hook;
    repeat method_step; simpl; tauto || done.
Qed.

(** When RPCS is listed once and no API is registered, [run_forever] takes
    it off the features and starts no RPC consumer, however the run ends. *)
Lemma run_forever_disables_rpcs_listed_once W s r s' :
  registry_all (api_registry (client s)) = [] →
  NoDup (features (client s)) →
  run_forever W s = (r, s') →
  (RPCS ∉ features (client s'))
  ∧ ∃ evs, calls s' = calls s ++ evs
           ∧ Forall (λ e, ¬ is_consumer_spawn e) evs.
Proof.
  intros Hreg Hnd H. unfold run_forever in H.
  apply bind_inv in H as [([] & s1 & E & H)|(e & E & ->)].
  - assert (rpcs_disabled (client s1)
            ∧ ∃ evs, calls s1 = calls s ++ evs
                     ∧ Forall (λ e, ¬ is_consumer_spawn e) evs)
      as (Hdis & evs1 & Hh1 & F1).
    { unfold disable_rpcs_if_no_apis, bind, get_client in E.
      rewrite Hreg in E. simpl in E.
      destruct (bool_decide (RPCS ∈ features (client s))) eqn:Hin.
      - injection E as <-. simpl. split.
        + by apply list_remove_NoDup.
        + eexists. split; [reflexivity|]. repeat constructor. simpl. tauto.
      - injection E as <-. apply bool_decide_eq_false in Hin.
        split; [exact Hin|]. exists []. by rewrite app_nil_r. }
    destruct (after_guard_rpcs_disabled W _ _ _ Hdis H)
      as (Hdis' & evs2 & Hh2 & F2).
    split; [exact Hdis'|]. exists (evs1 ++ evs2).
    rewrite Hh2, Hh1, app_assoc. split; [done|]. by apply Forall_app.
  - unfold disable_rpcs_if_no_apis, bind, get_client in E.
    destruct (_ && _); discriminate.
Qed.

(** C8.  A client built with RPCS listed twice and no API registered:
    [run_forever] logs that it disables the serving of RPCs and removes one
    RPCS, the other stays in [features], and [_setup_server] starts the RPC
    consumer task. *)
Theorem run_forever_keeps_duplicate_rpcs :
  BusClient_init [FeatureName "rpcs"; FeatureName "rpcs"]
  = Ok (new_BusClient [RPCS; RPCS])
  ∧ registry_all (api_registry (new_BusClient [RPCS; RPCS])) = []
  ∧ RPCS ∈ features (new_BusClient [RPCS; RPCS])
  ∧ ∃ s',
      run_forever calm_world (mkState (new_BusClient [RPCS; RPCS]) [])
      = (Ok tt, s')
      ∧ features (client s') = [RPCS]
      ∧ LogInfo "Disabling serving of RPCs as no APIs have been registered"
        ∈ calls s'
      ∧ Spawn (Task 12) CoConsumeRpcs ∈ calls s'
      ∧ _server_tasks (client s') = [Some (Task 12); Some (Task 10)].
Proof.
  split; [reflexivity|]. split; [reflexivity|].
  split; [by apply (bool_decide_unpack _)|].
  eexists. split; [vm_compute; reflexivity|]. simpl.
  split; [reflexivity|].
  split; [by apply (bool_decide_unpack _)|].
  split; [by apply (bool_decide_unpack _)|reflexivity].
Qed.

(** ** Which APIs are served *)

Lemma registry_get_all_raises names reg e :
  registry_get_all names reg = Raise e → ∃ n, e = UnknownApi n.
Proof.
  induction names as [|n names IH]; simpl; [discriminate|].
  destruct (registry_get n reg) as [a|e'] eqn:E.
  - destruct (registry_get_all names reg); [discriminate|].
    intros H. injection H as ->. by apply IH.
  - intros H. injection H as ->. clear IH.
    induction reg as [|a reg IH]; simpl in E.
    + injection E as <-. eauto.
    + destruct (decide (meta_name a = n)); [discriminate|by apply IH].
Qed.

Lemma consumer_coroutines_raises groups reg e :
  consumer_coroutines groups reg = Raise e → ∃ n, e = UnknownApi n.
Proof.
  induction groups as [|[t names] groups IH]; simpl; [discriminate|].
  destruct (registry_get_all names reg) as [apis|e'] eqn:E.
  - destruct (consumer_coroutines groups reg); [discriminate|].
    intros H. injection H as ->. by apply IH.
  - intros H. injection H as ->. by eapply registry_get_all_raises.
Qed.

(** C9.  Once lazy initialisation has returned, [consume_rpcs] looks at the
    APIs to serve after defaulting.  If there are none (called with [[]], or
    with [None] on an empty registry) it raises [NoApisToListenOn] and does
    nothing else.  If there are some, it asks the transport registry to
    group their names by RPC transport; what follows is decided by that
    answer and by the look-up of the grouped names: when both succeed, one
    task gathering a consumer per group is started and recorded in
    [_consumers].  Unless the transport registry itself raises it,
    [NoApisToListenOn] is raised exactly when there are no APIs to serve. *)
Theorem consume_rpcs_raises_iff_no_apis
    (W : World) (apis : option (list Api)) (s s1 : State) :
  lazy_load_now W s = (Ok tt, s1) →
  let served := apis_to_serve apis (client s1) in
  let names := meta_name <$> served in
  let asked := mkState (client s1) (calls s1 ++ [GetRpcTransports names]) in
  let t := Task (length (calls asked)) in
  (served = [] →
   consume_rpcs W apis s = (Raise (NoApisToListenOn no_apis_message), s1))
  ∧ (served ≠ [] →
     consume_rpcs W apis s
     = match get_rpc_transports W (calls s1) names with
       | Raise e => (Raise e, asked)
       | Ok groups =>
           match consumer_coroutines groups (api_registry (client s1)) with
           | Raise e => (Raise e, asked)
           | Ok coroutines =>
               (Ok tt,
                mkState
                  (set_consumers (_consumers (client s1) ++ [t]) (client s1))
                  (calls asked ++ [Spawn t (CoGatherConsumers coroutines)]))
           end
       end)
  ∧ ((∀ m, get_rpc_transports W (calls s1) names
           ≠ Raise (NoApisToListenOn m)) →
     (∃ m, (consume_rpcs W apis s).1 = Raise (NoApisToListenOn m))
     ↔ served = []).
Proof.
  intros Hlazy served names asked t.
  assert (Hempty : served = [] →
    consume_rpcs W apis s = (Raise (NoApisToListenOn no_apis_message), s1)).
  { intros Hs. unfold consume_rpcs, bind. rewrite Hlazy. simpl.
    fold (apis_to_serve apis (client s1)). fold served. by rewrite Hs. }
  assert (Hsome : served ≠ [] →
     consume_rpcs W apis s
     = match get_rpc_transports W (calls s1) names with
       | Raise e => (Raise e, asked)
       | Ok groups =>
           match consumer_coroutines groups (api_registry (client s1)) with
           | Raise e => (Raise e, asked)
           | Ok coroutines =>
               (Ok tt,
                mkState
                  (set_consumers (_consumers (client s1) ++ [t]) (client s1))
                  (calls asked ++ [Spawn t (CoGatherConsumers coroutines)]))
           end
       end).
  { intros Hs. unfold consume_rpcs, bind. rewrite Hlazy. simpl.
    fold (apis_to_serve apis (client s1)). fold served.
    destruct served as [|a rest] eqn:Es; [done|].
    fold names. unfold perform.
    destruct (get_rpc_transports W (calls s1) names) as [groups|e];
      [|done]. simpl.
    destruct (consumer_coroutines groups (api_registry (client s1)));
      done. }
  split; [exact Hempty|]. split; [exact Hsome|].
  intros Hreg. split.
  - intros [m Hm]. destruct (decide (served = [])) as [|Hne]; [done|].
    exfalso. rewrite (Hsome Hne) in Hm.
    destruct (get_rpc_transports W (calls s1) names) as [groups|e] eqn:Eg.
    + destruct (consumer_coroutines groups (api_registry (client s1)))
        as [cs|e] eqn:Ec; simpl in Hm; [discriminate|].
      apply consumer_coroutines_raises in Ec as [n ->]. discriminate.
    + simpl in Hm. injection Hm as ->. by apply (Hreg m).
  - intros Hs. exists no_apis_message. by rewrite (Hempty Hs).
Qed.

Lemma consume_rpcs_raises_iff_no_apis_witness :
  lazy_load_now calm_world serving_client = (Ok tt, serving_client)
  ∧ consume_rpcs calm_world None serving_client
    = (Ok tt,
       mkState
         (set_consumers [Task 1] (client serving_client))
         [GetRpcTransports ["my_company.auth"];
          Spawn (Task 1)
            (CoGatherConsumers [(Transport "redis", [auth_api])])])
  ∧ consume_rpcs calm_world (Some []) serving_client
    = (Raise (NoApisToListenOn no_apis_message), serving_client).
Proof.
  split; [reflexivity|].
  pose proof (consume_rpcs_raises_iff_no_apis calm_world None
                serving_client serving_client eq_refl) as [_ [H _]].
  pose proof (consume_rpcs_raises_iff_no_apis calm_world (Some [])
                serving_client serving_client eq_refl) as [H0 _].
  split; [apply H; discriminate|apply H0; reflexivity].
Defined.

(** ** Calling an RPC *)

Lemma bind_assoc {A B C} (m : M A) (f : A → M B) (g : B → M C) s :
  bind (bind m f) g s = bind m (λ a, bind (f a) g) s.
Proof. unfold bind. by destruct (m s) as [[a|e] s1]. Qed.

Lemma bind_ext {A B} (m : M A) (k k' : A → M B) s :
  (∀ a s1, k a s1 = k' a s1) → bind m k s = bind m k' s.
Proof. intros H. unfold bind. by destruct (m s) as [[a|e] s1]. Qed.

Section CallRpc.

Context (W : World).

Lemma call_rpc_remote_split a name kw options s :
  call_rpc_remote W a name kw options s
  = (p <- start_rpc_call W a name kw options ;;
     finish_rpc_call W a name p.1 p.2) s.
Proof.
  symmetry. unfold call_rpc_remote, start_rpc_call, finish_rpc_call.
  cbv zeta.
  repeat (rewrite bind_assoc; apply bind_ext; intros ? ?).
  reflexivity.
Qed.



End CallRpc.


(** A call that has reached the [try] and whose result message arrives
    goes on to fire [after_rpc_call] with it. *)
Lemma call_rpc_remote_arrived W a name kw options s m timeout s1 r :
  start_rpc_call W a name kw options s = (Ok (m, timeout), s1) →
  wait_for W (calls s1) m timeout = Ok r →
  call_rpc_remote W a name kw options s
  = (_execute_hook W "after_rpc_call" (mkHookKwargs (Some m) (Some r)) ;;
     return_or_raise W a name m r)
      (mkState (client s1) (calls s1 ++ [WaitFor m timeout])).
Proof.
  intros Hstart Hwait.
  rewrite call_rpc_remote_split. unfold bind at 1. rewrite Hstart.
  cbn [fst snd]. unfold finish_rpc_call, bind at 1.
  unfold try_except at 1, perform at 1. rewrite Hwait. reflexivity.
Qed.



Lemma string_app_assoc (a b c : string) : (a +:+ b) +:+ c = a +:+ b +:+ c.
Proof.
  induction a as [|x a IH]; [done|].
  change (String x ((a +:+ b) +:+ c) = String x (a +:+ b +:+ c)).
  by f_equal.
Qed.

Lemma string_app_empty_r (a : string) : a +:+ "" = a.
Proof.
  induction a as [|x a IH]; [done|].
  change (String x (a +:+ "") = String x a). by f_equal.
Qed.

Lemma server_error_message_includes m r :
  includes (py_str (result r)) (server_error_message m r)
  ∧ includes (py_str_opt (trace r)) (server_error_message m r).
Proof.
  unfold server_error_message, includes. split.
  - exists ("Error while calling " +:+ canonical_name m +:+ ": "). eexists.
    rewrite !string_app_assoc. reflexivity.
  - exists ("Error while calling " +:+ canonical_name m +:+ ": "
            +:+ py_str (result r) +:+ "
Remote stack trace:
"), "".
    rewrite !string_app_assoc, string_app_empty_r. reflexivity.
Qed.

(** C5.  Take a call whose result message has arrived and whose
    [after_rpc_call] hook has returned.  If the message has [error] set, the
    call raises [LightbusServerError] and nothing else happens; the text of
    the exception contains the remote result and the remote trace.  If
    [error] is not set, the message is validated as incoming for the API and
    procedure, and the call returns its [result] when the validation
    passes. *)
Theorem call_rpc_remote_error_or_payload
    (W : World) (a name : string) (kw : pydict) (options : option pydict)
    (s : State) (m : RpcMessage) (timeout : pyvalue) (s1 : State)
    (r : ResultMessage) (s2 : State) :
  start_rpc_call W a name kw options s = (Ok (m, timeout), s1) →
  wait_for W (calls s1) m timeout = Ok r →
  _execute_hook W "after_rpc_call" (mkHookKwargs (Some m) (Some r))
    (mkState (client s1) (calls s1 ++ [WaitFor m timeout]))
  = (Ok tt, s2) →
  (error r = true →
   call_rpc_remote W a name kw options s
   = (Raise (LightbusServerError (server_error_message m r)), s2)
   ∧ includes (py_str (result r)) (server_error_message m r)
   ∧ includes (py_str_opt (trace r)) (server_error_message m r))
  ∧ (error r = false →
     call_rpc_remote W a name kw options s
     = (match validate W (calls s2) (MsgResult r) "incoming" (Some a)
                (Some name) with
        | Ok _ => Ok (result r)
        | Raise e => Raise e
        end,
        mkState (client s2)
          (calls s2
           ++ [Validate (MsgResult r) "incoming" (Some a) (Some name)]))).
Proof.
  intros Hstart Hwait Hhook.
  pose proof (call_rpc_remote_arrived W a name kw options s m timeout s1 r
                Hstart Hwait) as Harrived.
  split; intros He; rewrite Harrived; unfold bind at 1;
    rewrite Hhook; unfold return_or_raise; rewrite He; simpl.
  - split; [reflexivity|]. apply server_error_message_includes.
  - unfold bind, perform, ret.
    by destruct (validate W (calls s2) (MsgResult r) "incoming" (Some a)
                   (Some name)) as [[]|e].
Qed.

Example boom_error_text :
  server_error_message ping_message boom_message
  = "Error while calling svc.acct.ping: boom
Remote stack trace:
T".
Proof. reflexivity. Qed.

Lemma call_rpc_remote_error_or_payload_witness :
  start_rpc_call boom_world "svc.acct" "ping" ∅ None serving_client
  = (Ok (ping_message, VInt 5),
     (start_rpc_call boom_world "svc.acct" "ping" ∅ None serving_client).2)
  ∧ (call_rpc_remote boom_world "svc.acct" "ping" ∅ None serving_client).1
    = Raise (LightbusServerError
               (server_error_message ping_message boom_message))
  ∧ (call_rpc_remote calm_world "svc.acct" "ping" ∅ None serving_client).1
    = Ok (VStr "pong").
Proof.
  assert (H : start_rpc_call boom_world "svc.acct" "ping" ∅ None
                serving_client
              = (Ok (ping_message, VInt 5),
                 (start_rpc_call boom_world "svc.acct" "ping" ∅ None
                    serving_client).2))
    by (vm_compute; reflexivity).
  assert (H' : start_rpc_call calm_world "svc.acct" "ping" ∅ None
                 serving_client
               = (Ok (ping_message, VInt 5),
                  (start_rpc_call calm_world "svc.acct" "ping" ∅ None
                     serving_client).2))
    by (vm_compute; reflexivity).
  split; [exact H|]. split.
  - destruct (call_rpc_remote_error_or_payload boom_world "svc.acct" "ping"
                ∅ None serving_client ping_message (VInt 5) _ boom_message _
                H eq_refl eq_refl) as [Herr _].
    destruct (Herr eq_refl) as [-> _]. reflexivity.
  - destruct (call_rpc_remote_error_or_payload calm_world "svc.acct" "ping"
                ∅ None serving_client ping_message (VInt 5) _
                (mkResultMessage "message-3" (VStr "pong") false None) _
                H' eq_refl eq_refl) as [_ Hok].
    rewrite (Hok eq_refl). reflexivity.
Defined.

(** ** The RPC consume loop *)

Section Consume.

Context (W : World).

Lemma serve_rpc_message_split m s :
  serve_rpc_message W m s
  = (announce_rpc W m ;; r <- call_local_guarded W m ;; conclude_rpc W m r) s.
Proof.
  unfold serve_rpc_message, announce_rpc. rewrite bind_assoc. reflexivity.
Qed.




End Consume.

Lemma lazy_load_now_emits_any W (P : event → Prop) :
  (∀ e, is_lazy_load_call e → P e) → emits P (lazy_load_now W).
Proof. intros H. eapply emits_mono, lazy_load_now_emits. exact H. Qed.

Lemma _execute_hook_emits_any W name kw (P : event → Prop) :
  (∀ e, is_hook_call name e → P e) → emits P (_execute_hook W name kw).
Proof. intros H. eapply emits_mono, _execute_hook_emits. exact H. Qed.

Lemma before_reply_emits W m :
  emits (λ e, ¬ is_result_send e ∧ ¬ is_result_validation e)
    (announce_rpc W m ;; call_local_guarded W m).
Proof.
  unfold announce_rpc, call_local_guarded, _call_rpc_local, getattr_method.
  apply emits_bind; [|intros _].
  { apply emits_bind; [apply emits_perform; simpl; tauto|intros _].
    apply _execute_hook_emits_any. intros []; simpl; tauto. }
  apply emits_try_except.
  - apply emits_bind; [|intros ?; apply emits_ret].
    apply emits_bind;
      [apply lazy_load_now_emits_any; intros []; simpl; tauto|intros _].
    repeat method_step; handler_cases; repeat method_step; simpl; tauto.
  - intros e h He. handler_cases; apply emits_ret.
Qed.







Example failing_method_is_answered :
  ∃ s',
    serve_rpc_message failing_world check_password_message serving_client
    = (Ok Next, s')
    ∧ last (calls s')
      = Some (TransportSendResult (Transport "redis") check_password_message
                (error_result check_password_message
                   (ValueError "bad password"))
                (Some "return-1")).
Proof. eexists. split; [vm_compute; reflexivity|reflexivity]. Qed.

(** ** The result messages the loop sends *)

Lemma split_at_marker {X} (P : X → Prop) (l1 l2 pre post : list X) x :
  l1 ++ l2 = pre ++ x :: post → Forall P l1 → ¬ P x →
  ∃ pre', pre = l1 ++ pre' ∧ l2 = pre' ++ x :: post.
Proof.
  revert pre. induction l1 as [|a l1 IH]; intros pre H F Hx.
  - exists pre. done.
  - apply Forall_cons in F as [Ha F]. destruct pre as [|b pre].
    + simpl in H. injection H as -> _. done.
    + simpl in H. injection H as -> H.
      destruct (IH pre H F Hx) as (pre' & -> & ->). by exists pre'.
Qed.

Lemma marker_in {X} (P : X → Prop) (l pre post : list X) x :
  l = pre ++ x :: post → Forall P l → P x.
Proof.
  intros -> F. apply Forall_app in F as [_ F].
  by apply Forall_cons in F as [? _].
Qed.







(** * Further properties

    What the methods do at their edges: invalid arguments, collaborators
    that fail, features that are switched off; and how the methods compose. *)

(** ** Features *)

Lemma convert_features_ok xs :
  Forall (λ x, ∃ f, Feature_of x = Ok f) xs →
  ∃ fs, convert_features xs = Ok fs
        ∧ Forall2 (λ x f, Feature_of x = Ok f) xs fs.
Proof.
  induction 1 as [|x xs [f Hf] _ (fs & IH & F2)]; simpl.
  - exists []. split; [done|constructor].
  - rewrite Hf, IH. exists (f :: fs). split; [done|by constructor].
Qed.

Lemma convert_features_first_invalid pre x post e :
  Forall (λ x, ∃ f, Feature_of x = Ok f) pre →
  Feature_of x = Raise e →
  convert_features (pre ++ x :: post)
  = Raise (UnsupportedUse (unsupported_feature_message x)).
Proof.
  intros Hpre Hx. induction Hpre as [|y pre [f Hf] _ IH]; simpl.
  - by rewrite Hx.
  - by rewrite Hf, IH.
Qed.

(** X1.  [set_features] takes all of a list or nothing.  When every entry
    is a member of [Feature] or the value of one, the client's features
    become the members the entries stand for, in the order given and with
    their repetitions.  Otherwise it raises [UnsupportedUse], naming the
    first entry that is not a feature, and leaves the client as it was; the
    constructor, which calls [set_features], then builds no client. *)
Theorem set_features_all_or_nothing (xs : list feature_arg) (s : State) :
  (Forall (λ x, ∃ f, Feature_of x = Ok f) xs →
   ∃ fs, Forall2 (λ x f, Feature_of x = Ok f) xs fs
         ∧ set_features xs s
           = (Ok tt, mkState (set_features_field fs (client s)) (calls s))
         ∧ BusClient_init xs = Ok (new_BusClient fs))
  ∧ (∀ pre x post e,
       xs = pre ++ x :: post →
       Forall (λ x, ∃ f, Feature_of x = Ok f) pre →
       Feature_of x = Raise e →
       set_features xs s
       = (Raise (UnsupportedUse (unsupported_feature_message x)), s)
       ∧ BusClient_init xs
         = Raise (UnsupportedUse (unsupported_feature_message x))).
Proof.
  split.
  - intros H. destruct (convert_features_ok xs H) as (fs & E & F2).
    exists fs. unfold set_features, BusClient_init. rewrite E. done.
  - intros pre x post e -> Hpre Hx.
    unfold set_features, BusClient_init.
    by rewrite (convert_features_first_invalid pre x post e Hpre Hx).
Qed.

(** ** Hooks *)

Lemma hooks_for_with_hook name bp fn c name' bp' :
  hooks_for name' bp' (with_hook name bp fn c)
  = if decide ((name, bp) = (name', bp'))
    then hooks_for name' bp' c ++ [fn]
    else hooks_for name' bp' c.
Proof.
  unfold with_hook. destruct (decide _) as [Heq|Hne].
  - injection Heq as <- <-. apply hooks_for_registered.
  - by apply hooks_for_other.
Qed.

(** X2.  A callable registered on a hook is called when the hook fires, after
    the callbacks registered before it on the same side of the plugins: a
    hook that fires to its end calls the "before plugins" callbacks in
    registration order, the plugin registry, then the "after plugins"
    callbacks in registration order, and leaves the client as it was. *)
Theorem hook_callbacks_run_in_registration_order
    (W : World) (name : string) (before_plugins : bool) (fn : callback)
    (kw : hook_kwargs) (s s1 s2 : State) :
  _make_hook_decorator name before_plugins (Some fn) s = (Ok ReturnedNone, s1) →
  _execute_hook W name kw s1 = (Ok tt, s2) →
  let run := λ cb, RunCallback name cb kw in
  client s2 = client s1
  ∧ calls s2
    = calls s
      ++ (run <$> hooks_for name true (client s))
      ++ (if before_plugins then [run fn] else [])
      ++ [PluginHook name kw]
      ++ (run <$> hooks_for name false (client s))
      ++ (if before_plugins then [] else [run fn]).
Proof.
  intros Hreg Hrun run.
  assert (Hs1 : s1 = mkState (with_hook name before_plugins fn (client s))
                       (calls s)).
  { unfold _make_hook_decorator in Hreg.
    destruct (cb_callable fn); [|discriminate]. by injection Hreg as <-. }
  apply _execute_hook_ok in Hrun as [Hc Hh]. split; [exact Hc|].
  rewrite Hh, Hs1. cbn [client calls]. unfold hook_calls. fold run.
  rewrite !hooks_for_with_hook.
  destruct before_plugins.
  - rewrite decide_True by done. rewrite decide_False by congruence.
    rewrite fmap_app, <- !app_assoc. simpl. by rewrite app_nil_r.
  - rewrite decide_False by congruence. rewrite decide_True by done.
    by rewrite fmap_app.
Qed.

Lemma hook_callbacks_run_in_registration_order_witness :
  _make_hook_decorator "before_worker_start" true
    (Some (mkCallback "migrate" true)) hooked_client
  = (Ok ReturnedNone, migrating_client)
  ∧ _execute_hook calm_world "before_worker_start" no_kwargs migrating_client
    = (Ok tt,
       (_execute_hook calm_world "before_worker_start" no_kwargs
          migrating_client).2)
  ∧ calls (_execute_hook calm_world "before_worker_start" no_kwargs
             migrating_client).2
    = [RunCallback "before_worker_start" (mkCallback "connect" true)
         no_kwargs;
       RunCallback "before_worker_start" (mkCallback "migrate" true)
         no_kwargs;
       PluginHook "before_worker_start" no_kwargs;
       RunCallback "before_worker_start" (mkCallback "announce" true)
         no_kwargs].
Proof.
  assert (H1 : _make_hook_decorator "before_worker_start" true
                 (Some (mkCallback "migrate" true)) hooked_client
               = (Ok ReturnedNone, migrating_client))
    by reflexivity.
  assert (H2 : _execute_hook calm_world "before_worker_start" no_kwargs
                 migrating_client
               = (Ok tt,
                  (_execute_hook calm_world "before_worker_start" no_kwargs
                     migrating_client).2))
    by (vm_compute; reflexivity).
  split; [exact H1|]. split; [exact H2|].
  destruct (hook_callbacks_run_in_registration_order calm_world
              "before_worker_start" true (mkCallback "migrate" true)
              no_kwargs hooked_client migrating_client _ H1 H2) as [_ ->].
  vm_compute. reflexivity.
Defined.




(** X4.  The two ways to register a callback differ in one check.  Called
    without a callback, a hook decorator returns a closure, and the closure
    appends whatever it is applied to, callable or not, to the callbacks of
    its hook and returns it.  Called with a callback (one Python takes as
    true), it appends a callable the same way and returns [None], and
    raises [AssertionError] for a callback that is not callable,
    registering nothing.  Either way only the list of that hook and that
    side of the plugins changes. *)
Theorem hook_decorator_skips_callable_check
    (name : string) (before_plugins : bool) (fn : callback) (s : State) :
  decorate name before_plugins fn s
  = (Ok fn, mkState (with_hook name before_plugins fn (client s)) (calls s))
  ∧ _make_hook_decorator name before_plugins (Some fn) s
    = (if cb_callable fn
       then (Ok ReturnedNone,
             mkState (with_hook name before_plugins fn (client s)) (calls s))
       else (Raise (AssertionError "The provided callback is not callable"),
             s))
  ∧ (∀ name' bp',
       hooks_for name' bp' (with_hook name before_plugins fn (client s))
       = if decide ((name, before_plugins) = (name', bp'))
         then hooks_for name' bp' (client s) ++ [fn]
         else hooks_for name' bp' (client s)).
Proof.
  split; [reflexivity|]. split.
  - unfold _make_hook_decorator. by destruct (cb_callable fn).
  - intros name' bp'. apply hooks_for_with_hook.
Qed.

Lemma serve_after_announce_appends W m :
  emits (λ _, True) (r <- call_local_guarded W m ;; conclude_rpc W m r).
Proof.
  unfold call_local_guarded, conclude_rpc, _call_rpc_local, reply,
    send_result, getattr_method, lazy_load_now, add_local_apis,
    open_transports, _execute_hook.
  repeat (repeat method_step; handler_cases); done.
Qed.

(** X5.  A callable registered through [before_rpc_execution] is called by
    the consume loop for a message it serves to the end: with that message,
    after the message was validated as incoming and before any method
    runs. *)
Theorem before_rpc_execution_sees_the_message_first
    (W : World) (fn : callback) (before_plugins : bool) (m : RpcMessage)
    (s s1 : State) (c : loop_ctl) (s2 : State) :
  before_rpc_execution (Some fn) before_plugins s = (Ok ReturnedNone, s1) →
  serve_rpc_message W m s1 = (Ok c, s2) →
  ∃ pre post,
    calls s2
    = calls s ++ pre
      ++ RunCallback "before_rpc_execution" fn (mkHookKwargs (Some m) None)
      :: post
    ∧ Validate (MsgRpc m) "incoming" None None ∈ pre
    ∧ Forall (λ e, ∀ a n kw, e ≠ RunMethod a n kw) pre.
Proof.
  intros Hreg H.
  assert (Hs1 : calls s1 = calls s
                ∧ hooks_for "before_rpc_execution" before_plugins (client s1)
                  = hooks_for "before_rpc_execution" before_plugins (client s)
                    ++ [fn]).
  { unfold before_rpc_execution, _make_hook_decorator in Hreg.
    destruct (cb_callable fn); [|discriminate]. injection Hreg as <-.
    split; [done|]. apply hooks_for_registered. }
  destruct Hs1 as [Hc1 Hh1].
  rewrite serve_rpc_message_split in H.
  run_ok H a3 s3 E3. destruct a3.
  destruct (serve_after_announce_appends W m _ _ _ H) as (rest & Hrest & _).
  unfold announce_rpc in E3. run_ok E3 a4 s4 E4.
  unfold perform in E4. injection E4 as _ <-.
  apply _execute_hook_ok in E3 as [_ Hh3]. cbn [client calls] in Hh3.
  set (kw := mkHookKwargs (Some m) None) in *.
  set (run := λ cb, RunCallback "before_rpc_execution" cb kw).
  set (v := Validate (MsgRpc m) "incoming" None None) in *.
  assert (Fno : ∀ l, Forall (λ e, ∀ a n kw0, e ≠ RunMethod a n kw0)
                       (run <$> l))
    by (intros l; apply Forall_fmap, Forall_forall; done).
  unfold hook_calls in Hh3. fold run in Hh3.
  destruct before_plugins.
  - rewrite Hh1, fmap_app in Hh3.
    exists (v :: (run <$> hooks_for "before_rpc_execution" true (client s))),
      (PluginHook "before_rpc_execution" kw
       :: (run <$> hooks_for "before_rpc_execution" false (client s1))
       ++ rest).
    split; [|split; [by left|by constructor]].
    rewrite Hrest, Hh3, Hc1, <- !app_assoc. reflexivity.
  - rewrite Hh1, fmap_app in Hh3.
    exists (v :: (run <$> hooks_for "before_rpc_execution" true (client s1))
            ++ PluginHook "before_rpc_execution" kw
            :: (run <$> hooks_for "before_rpc_execution" false (client s))),
      rest.
    split; [|split; [by left|]].
    + rewrite Hrest, Hh3, Hc1, <- !app_assoc. simpl.
      by rewrite <- !app_assoc.
    + constructor; [done|]. apply Forall_app. split; [done|].
      by constructor.
Qed.

Lemma before_rpc_execution_sees_the_message_first_witness :
  before_rpc_execution (Some (mkCallback "audit" true)) false serving_client
  = (Ok ReturnedNone, audited_client)
  ∧ serve_rpc_message calm_world check_password_message audited_client
    = (Ok Next,
       (serve_rpc_message calm_world check_password_message
          audited_client).2)
  ∧ ∃ pre post,
      calls (serve_rpc_message calm_world check_password_message
               audited_client).2
      = calls serving_client ++ pre
        ++ RunCallback "before_rpc_execution" (mkCallback "audit" true)
             (mkHookKwargs (Some check_password_message) None)
        :: post
      ∧ Validate (MsgRpc check_password_message) "incoming" None None ∈ pre.
Proof.
  assert (H1 : before_rpc_execution (Some (mkCallback "audit" true)) false
                 serving_client
               = (Ok ReturnedNone, audited_client))
    by reflexivity.
  assert (H2 : serve_rpc_message calm_world check_password_message
                 audited_client
               = (Ok Next,
                  (serve_rpc_message calm_world check_password_message
                     audited_client).2))
    by (vm_compute; reflexivity).
  split; [exact H1|]. split; [exact H2|].
  destruct (before_rpc_execution_sees_the_message_first calm_world
              (mkCallback "audit" true) false check_password_message
              serving_client audited_client Next _ H1 H2)
    as (pre & post & Hc & Hin & _).
  exists pre, post. split; [exact Hc|exact Hin].
Defined.

(** ** Executing a procedure *)

Lemma _call_rpc_local_split W a name kw s :
  _call_rpc_local W a name kw s
  = (lazy_load_now W ;;
     c <- get_client ;;
     api <- (λ s, (registry_get a (api_registry c), s)) ;;
     perform (ValidateName a "rpc" name)
       (λ h, validate_name W h a "rpc" name) ;;
     λ s1, match run_local_method W api a name kw s1 with
           | (Ok v, s2) => (Ok v, s2)
           | (Raise e, s2) => log_and_reraise W e s2
           end) s.
Proof.
  unfold _call_rpc_local.
  repeat (apply bind_ext; intros ? ?).
  unfold try_except, run_local_method, log_and_reraise.
  match goal with
  | |- match ?b with _ => _ end = _ => destruct b as [[v|e] sb]
  end; [done|].
  unfold is_logged. destruct e; try done; by destruct (is_Exception W _).
Qed.

Lemma run_local_method_run W api a name kw s r s' :
  run_local_method W api a name kw s = (r, s') →
  client s' = client s
  ∧ ((∃ msg, (name ∉ api_methods api) ∧ r = Raise (AttributeError msg)
             ∧ calls s' = calls s)
     ∨ (∃ e, name ∈ api_methods api ∧ cast_values W a = true
             ∧ cast_to_signature W (calls s) a name kw = Raise e
             ∧ r = Raise e
             ∧ calls s' = calls s ++ [CastToSignature a name kw])
     ∨ (∃ casting kw',
          name ∈ api_methods api
          ∧ (if cast_values W a
             then casting = [CastToSignature a name kw]
             else casting = [] ∧ kw' = kw)
          ∧ r = match run_method W (calls s ++ casting) a name kw' with
                | Ok v => Ok v
                | Raise e => Raise e
                end
          ∧ calls s' = calls s ++ casting ++ [RunMethod a name kw'])).
Proof.
  unfold run_local_method, getattr_method. intros H.
  unfold bind in H at 1.
  destruct (bool_decide (name ∈ api_methods api)) eqn:Hin.
  2:{ injection H as <- <-. split; [done|]. left.
      apply bool_decide_eq_false in Hin. eauto. }
  apply bool_decide_eq_true in Hin. unfold ret in H at 1.
  destruct (cast_values W a) eqn:Hcast.
  - unfold bind, perform in H.
    destruct (cast_to_signature W (calls s) a name kw) as [kw'|e] eqn:Ec.
    + injection H as <- <-. cbn [client calls]. split; [done|].
      right. right. exists [CastToSignature a name kw], kw'.
      split; [done|]. split; [done|]. rewrite <- app_assoc.
      split; [|done]. by destruct (run_method W _ a name kw').
    + injection H as <- <-. cbn [client calls]. split; [done|].
      right. left. exists e. done.
  - unfold bind, perform, ret in H. injection H as <- <-.
    cbn [client calls]. split; [done|].
    right. right. exists [], kw. rewrite app_nil_r.
    split; [done|]. split; [done|].
    split; [|done]. by destruct (run_method W _ a name kw).
Qed.

Lemma log_and_reraise_run W e s :
  log_and_reraise W e s
  = (Raise e,
     mkState (client s)
       (calls s ++ if is_logged W e then [LogException e] else [])).
Proof.
  unfold log_and_reraise. destruct (is_logged W e).
  - reflexivity.
  - unfold raise. rewrite app_nil_r. by destruct s.
Qed.

Lemma _call_rpc_local_missing_attribute W a name kw s s1 api :
  lazy_load_now W s = (Ok tt, s1) →
  registry_get a (api_registry (client s1)) = Ok api →
  validate_name W (calls s1) a "rpc" name = Ok tt →
  name ∉ api_methods api →
  _call_rpc_local W a name kw s
  = (Raise (missing_attribute api name),
     mkState (client s1)
       (calls s1 ++ [ValidateName a "rpc" name;
                     LogException (missing_attribute api name)])).
Proof.
  intros Hlazy Hreg Hvn Hnot. rewrite _call_rpc_local_split.
  unfold bind at 1. rewrite Hlazy.
  unfold bind at 1. unfold get_client at 1.
  unfold bind at 1. rewrite Hreg.
  unfold bind at 1. unfold perform at 1. rewrite Hvn.
  unfold run_local_method, getattr_method.
  rewrite bool_decide_eq_false_2 by exact Hnot.
  unfold bind at 1. unfold raise at 1.
  rewrite log_and_reraise_run. cbn [client calls is_logged is_Exception].
  unfold missing_attribute. by rewrite <- app_assoc.
Qed.

(** A list with a marked element, compared with a short list. *)
Ltac short_list Heq pre :=
  repeat (destruct pre as [|? pre]; simpl in Heq;
          [try discriminate Heq | injection Heq as ? Heq; try discriminate]);
  try (by destruct pre).

(** X6.  However [_call_rpc_local] ends:
    - it logs an exception only as the last thing it does, and then raises
      that same exception, which is neither [CancelledError] nor
      [SuddenDeathException] and is a subclass of [Exception];
    - it runs a method at most once, the procedure asked for, after the
      name was validated and, when the API casts values, after the
      arguments were cast (otherwise with the arguments as given); what the
      method returns is returned, what it raises is raised again, logged
      first unless it is one of the three above;
    - it returns a value only from the method.
    And when the API is registered and the name is valid but the API has no
    attribute of that name, the [AttributeError] of [getattr] is logged and
    raised, and nothing else is done: no cast, no method run. *)
Theorem call_rpc_local_logs_what_it_reraises
    (W : World) (a name : string) (kw : pydict) (s : State)
    (r : outcome pyvalue) (s' : State) :
  _call_rpc_local W a name kw s = (r, s') →
  (∃ new, calls s' = calls s ++ new
    ∧ (∀ pre e post, new = pre ++ LogException e :: post →
         post = [] ∧ r = Raise e ∧ is_logged W e = true)
    ∧ (∀ pre a' n' kw' post, new = pre ++ RunMethod a' n' kw' :: post →
         a' = a ∧ n' = name
         ∧ ValidateName a "rpc" name ∈ pre
         ∧ (if cast_values W a
            then CastToSignature a name kw ∈ pre else kw' = kw)
         ∧ match run_method W (calls s ++ pre) a name kw' with
           | Ok v => r = Ok v ∧ post = []
           | Raise e =>
               r = Raise e
               ∧ post = if is_logged W e then [LogException e] else []
           end)
    ∧ (∀ v, r = Ok v → ∃ pre kw', new = pre ++ [RunMethod a name kw']))
  ∧ (∀ s1 api,
       lazy_load_now W s = (Ok tt, s1) →
       registry_get a (api_registry (client s1)) = Ok api →
       validate_name W (calls s1) a "rpc" name = Ok tt →
       name ∉ api_methods api →
       r = Raise (missing_attribute api name)
       ∧ s' = mkState (client s1)
                (calls s1 ++ [ValidateName a "rpc" name;
                              LogException (missing_attribute api name)])).
Proof.
  intros H. split.
  2:{ intros s1 api Hlazy Hreg Hvn Hnot.
      rewrite (_call_rpc_local_missing_attribute W a name kw s s1 api
                 Hlazy Hreg Hvn Hnot) in H.
      by injection H as <- <-. }
  rewrite _call_rpc_local_split in H.
  apply bind_inv in H as [([] & s1 & E1 & H)|(e & E1 & ->)];
    destruct (lazy_load_now_emits W _ _ _ E1) as (evs & Hevs & F).
  2:{ exists evs. split; [done|]. split; [|split].
      - intros pre e0 post Heq. exfalso.
        by apply (marker_in _ _ _ _ _ Heq F).
      - intros pre a' n' kw' post Heq. exfalso.
        by apply (marker_in _ _ _ _ _ Heq F).
      - discriminate. }
  assert (Flog : Forall (λ e, ∀ x, e ≠ LogException x) evs)
    by (eapply Forall_impl; [exact F|]; by intros []).
  assert (Frun : Forall (λ e, ∀ x y z, e ≠ RunMethod x y z) evs)
    by (eapply Forall_impl; [exact F|]; by intros []).
  unfold bind in H at 1. unfold get_client in H at 1.
  unfold bind in H at 1.
  destruct (registry_get a (api_registry (client s1))) as [api|e0].
  2:{ injection H as <- <-. exists evs. split; [done|]. split; [|split].
      - intros pre e post Heq. exfalso.
        by apply (marker_in _ _ _ _ _ Heq F).
      - intros pre a' n' kw' post Heq. exfalso.
        by apply (marker_in _ _ _ _ _ Heq F).
      - discriminate. }
  unfold bind in H at 1. unfold perform in H at 1.
  destruct (validate_name W (calls s1) a "rpc" name) as [[]|e0].
  2:{ injection H as <- <-. cbn [calls].
      exists (evs ++ [ValidateName a "rpc" name]).
      split; [by rewrite Hevs, <- app_assoc|]. split; [|split].
      - intros pre e post Heq.
        destruct (split_at_marker _ _ _ _ _ _ Heq Flog) as (p & -> & Ht);
          [by intros Hn; apply (Hn e)|].
        exfalso. short_list Ht p.
      - intros pre a' n' kw' post Heq.
        destruct (split_at_marker _ _ _ _ _ _ Heq Frun) as (p & -> & Ht);
          [by intros Hn; apply (Hn a' n' kw')|].
        exfalso. short_list Ht p.
      - discriminate. }
  set (s2 := mkState (client s1) (calls s1 ++ [ValidateName a "rpc" name]))
    in H.
  destruct (run_local_method W api a name kw s2) as [rb sb] eqn:Eb.
  apply run_local_method_run in Eb as [Hcb Hcases].
  assert (Hs' : r = match rb with Ok v => Ok v | Raise e => Raise e end
                ∧ calls s' = calls sb
                    ++ match rb with
                       | Ok _ => []
                       | Raise e =>
                           if is_logged W e then [LogException e] else []
                       end).
  { destruct rb as [v|e].
    - injection H as <- <-. by rewrite app_nil_r.
    - rewrite log_and_reraise_run in H. by injection H as <- <-. }
  destruct Hs' as [Hr Hc]. clear H. subst s2. cbn [client calls] in *.
  destruct Hcases as [(msg & Hnot & -> & Hcalls)
                     |[(e & Hin & Hcast & Hans & -> & Hcalls)
                      |(casting & kw1 & Hin & Hcast & Hrb & Hcalls)]].
  - (* the attribute is missing *)
    rewrite Hcalls in Hc. cbn [is_logged is_Exception] in Hc.
    exists (evs ++ [ValidateName a "rpc" name;
                    LogException (AttributeError msg)]).
    split; [by rewrite Hc, Hevs, <- !app_assoc|]. split; [|split].
    + intros pre e post Heq.
      destruct (split_at_marker _ _ _ _ _ _ Heq Flog) as (p & -> & Ht);
        [by intros Hn; apply (Hn e)|].
      short_list Ht p. by simplify_eq.
    + intros pre a' n' kw' post Heq.
      destruct (split_at_marker _ _ _ _ _ _ Heq Frun) as (p & -> & Ht);
        [by intros Hn; apply (Hn a' n' kw')|].
      exfalso. short_list Ht p.
    + by rewrite Hr.
  - (* the cast fails *)
    rewrite Hcalls in Hc.
    exists (evs ++ [ValidateName a "rpc" name; CastToSignature a name kw]
            ++ if is_logged W e then [LogException e] else []).
    split; [by rewrite Hc, Hevs, <- !app_assoc|]. split; [|split].
    + intros pre e0 post Heq.
      destruct (split_at_marker _ _ _ _ _ _ Heq Flog) as (p & -> & Ht);
        [by intros Hn; apply (Hn e0)|].
      destruct (is_logged W e) eqn:Hl; simpl in Ht; short_list Ht p.
      by simplify_eq.
    + intros pre a' n' kw' post Heq.
      destruct (split_at_marker _ _ _ _ _ _ Heq Frun) as (p & -> & Ht);
        [by intros Hn; apply (Hn a' n' kw')|].
      exfalso. destruct (is_logged W e); simpl in Ht; short_list Ht p.
    + by rewrite Hr.
  - (* the method ran *)
    rewrite Hcalls in Hc.
    set (tail := match rb with
                 | Ok _ => []
                 | Raise e => if is_logged W e then [LogException e] else []
                 end) in *.
    exists (evs ++ [ValidateName a "rpc" name] ++ casting
            ++ [RunMethod a name kw1] ++ tail).
    split; [by rewrite Hc, Hevs, <- !app_assoc|].
    assert (Hcasting : casting = [] ∨ casting = [CastToSignature a name kw])
      by (destruct (cast_values W a); tauto).
    split; [|split].
    + intros pre e0 post Heq.
      destruct (split_at_marker _ _ _ _ _ _ Heq Flog) as (p & -> & Ht);
        [by intros Hn; apply (Hn e0)|].
      subst tail. rewrite Hr.
      destruct rb as [v|e]; [|destruct (is_logged W e) eqn:Hl];
        destruct Hcasting as [-> | ->]; simpl in Ht; short_list Ht p;
        by simplify_eq.
    + intros pre a' n' kw' post Heq.
      destruct (split_at_marker _ _ _ _ _ _ Heq Frun) as (p & -> & Ht);
        [by intros Hn; apply (Hn a' n' kw')|].
      assert (Hp : p = ValidateName a "rpc" name :: casting
                   ∧ a' = a ∧ n' = name ∧ kw' = kw1 ∧ post = tail).
      { subst tail.
        destruct rb as [v|e]; [|destruct (is_logged W e) eqn:Hl];
          destruct Hcasting as [-> | ->]; simpl in Ht; short_list Ht p;
          by simplify_eq. }
      destruct Hp as (-> & -> & -> & -> & ->).
      split; [done|]. split; [done|].
      split; [apply elem_of_app; right; by left|].
      split.
      * destruct (cast_values W a).
        -- subst casting. apply elem_of_app. right. right. by left.
        -- by destruct Hcast.
      * rewrite Hevs, <- !app_assoc in Hrb. simpl in Hrb.
        destruct (run_method W _ a name kw1) as [v|e];
          subst rb; rewrite Hr; subst tail; done.
    + intros v Hv. rewrite Hr in Hv. subst tail.
      destruct rb as [v'|]; [|discriminate].
      exists (evs ++ [ValidateName a "rpc" name] ++ casting), kw1.
      by rewrite <- !app_assoc.
Qed.

Lemma call_rpc_local_logs_what_it_reraises_witness :
  _call_rpc_local failing_world "my_company.auth" "check_password" ∅
    serving_client
  = (Raise (ValueError "bad password"),
     mkState (client serving_client)
       [ValidateName "my_company.auth" "rpc" "check_password";
        RunMethod "my_company.auth" "check_password" ∅;
        LogException (ValueError "bad password")])
  ∧ (∃ new,
      [ValidateName "my_company.auth" "rpc" "check_password";
       RunMethod "my_company.auth" "check_password" ∅;
       LogException (ValueError "bad password")]
      = calls serving_client ++ new
      ∧ ∀ pre e post, new = pre ++ LogException e :: post →
          post = []
          ∧ Raise (ValueError "bad password") = @Raise pyvalue e
          ∧ is_logged failing_world e = true)
  ∧ _call_rpc_local calm_world "my_company.auth" "reset_password" ∅
      serving_client
    = (Raise (AttributeError
                "'my_company.auth' object has no attribute 'reset_password'"),
       mkState (client serving_client)
         [ValidateName "my_company.auth" "rpc" "reset_password";
          LogException
            (AttributeError
               "'my_company.auth' object has no attribute 'reset_password'")]).
Proof.
  assert (H : _call_rpc_local failing_world "my_company.auth"
                "check_password" ∅ serving_client
              = (Raise (ValueError "bad password"),
                 mkState (client serving_client)
                   [ValidateName "my_company.auth" "rpc" "check_password";
                    RunMethod "my_company.auth" "check_password" ∅;
                    LogException (ValueError "bad password")]))
    by (vm_compute; reflexivity).
  split; [exact H|].
  destruct (call_rpc_local_logs_what_it_reraises _ _ _ _ _ _ _ H)
    as ((new & Hc & Hlog & _) & _).
  split; [exists new; split; [exact Hc|exact Hlog]|].
  assert (H' : _call_rpc_local calm_world "my_company.auth" "reset_password"
                 ∅ serving_client
               = ((_call_rpc_local calm_world "my_company.auth"
                     "reset_password" ∅ serving_client).1,
                  (_call_rpc_local calm_world "my_company.auth"
                     "reset_password" ∅ serving_client).2))
    by (vm_compute; reflexivity).
  destruct (call_rpc_local_logs_what_it_reraises _ _ _ _ _ _ _ H')
    as (_ & Hmissing).
  destruct (Hmissing serving_client auth_api) as [Hr Hs].
  - reflexivity.
  - reflexivity.
  - reflexivity.
  - apply (bool_decide_unpack _). vm_compute. exact I.
  - rewrite H'. rewrite Hr, Hs. reflexivity.
Defined.

(** ** Server start-up, by feature *)

Lemma _setup_server_split W s :
  _setup_server W s = (t <- prepare_server W ;; start_features t) s.
Proof.
  symmetry. unfold _setup_server, prepare_server.
  repeat (rewrite bind_assoc; apply bind_ext; intros ? ?).
  reflexivity.
Qed.

Lemma prepare_server_emits W (P : event → Prop) :
  (∀ e, (∀ f, ¬ starts_feature f e) → P e) →
  emits P (prepare_server W).
Proof.
  intros HP. eapply emits_mono; [exact HP|].
  unfold prepare_server, register_api, lazy_load_now, add_local_apis,
    open_transports, _execute_hook.
  repeat method_step; intros []; simpl; tauto.
Qed.

Lemma prepare_server_keeps {X} (f : BusClient → X) W :
  (∀ v c, f (set_api_registry v c) = f c) →
  (∀ v c, f (set_lazy_load_complete v c) = f c) →
  keeps f (prepare_server W).
Proof.
  intros H1 H2.
  unfold prepare_server, register_api, lazy_load_now, add_local_apis,
    open_transports, _execute_hook.
  repeat method_step; auto.
Qed.

Lemma start_background_tasks_run cos s :
  start_background_tasks cos s
  = (Ok tt,
     mkState
       (set_background_tasks
          (_background_tasks (client s)
           ++ tasks_from (length (calls s)) (length cos))
          (client s))
       (calls s
        ++ zip_with (λ t co, Spawn t (CoUser co))
             (tasks_from (length (calls s)) (length cos)) cos)).
Proof.
  unfold start_background_tasks, tasks_from.
  revert s. induction cos as [|co cos IH]; intros s; simpl.
  - unfold ret. rewrite !app_nil_r. by destruct s as [[] ?].
  - unfold bind at 1. unfold bind at 1. unfold spawn at 1.
    unfold modify_client at 1. cbn [client calls].
    rewrite IH. cbn [client calls _background_tasks set_background_tasks].
    rewrite length_app. simpl length.
    replace (length (calls s) + 1)%nat with (S (length (calls s))) by lia.
    by rewrite <- !app_assoc.
Qed.

Lemma user_spawns_app h1 h2 :
  user_spawns (h1 ++ h2) = user_spawns h1 ++ user_spawns h2.
Proof. apply omap_app. Qed.

Lemma user_spawns_none h :
  Forall (λ e, ¬ starts_feature TASKS e) h → user_spawns h = [].
Proof.
  induction 1 as [|e h He _ IH]; [done|].
  change (user_spawns (e :: h)) with (user_spawns ([e] ++ h)).
  rewrite user_spawns_app, IH, app_nil_r.
  destruct e; try done; destruct c; try done; simpl in He; tauto.
Qed.

Lemma user_spawns_started ts cos :
  length ts = length cos →
  user_spawns (zip_with (λ t co, Spawn t (CoUser co)) ts cos) = zip ts cos.
Proof.
  revert cos. induction ts as [|t ts IH]; intros [|co cos] Hl;
    try done. simpl in Hl. simpl zip_with. simpl zip.
  change (user_spawns ([Spawn t (CoUser co)] ++ zip_with (λ t co, Spawn t (CoUser co)) ts cos)
          = (t, co) :: zip ts cos).
  rewrite user_spawns_app, IH by lia. done.
Qed.

Lemma for_each_perform_always_ok {X} (xs : list X) (ev : X → event) s :
  for_each xs (λ x, perform (ev x) (λ _, Ok tt)) s
  = (Ok tt, mkState (client s) (calls s ++ (ev <$> xs))).
Proof.
  revert s. induction xs as [|x xs IH]; intros s; simpl.
  - unfold ret. rewrite app_nil_r. by destruct s.
  - unfold bind at 1. unfold perform at 1. rewrite IH. cbn [client calls].
    by rewrite <- app_assoc.
Qed.

(** What [start_features] does, by feature. *)
Lemma start_features_run monitor s :
  let c := client s in
  let k := length (calls s) in
  let consumer := if bool_decide (RPCS ∈ features c)
                  then [Spawn (Task k) CoConsumeRpcs] else [] in
  let listeners := if bool_decide (EVENTS ∈ features c)
                   then StartListener <$> _event_listeners c else [] in
  let k' := (k + length consumer + length listeners)%nat in
  let ts := if bool_decide (TASKS ∈ features c)
            then tasks_from k' (length (_background_coroutines c)) else [] in
  start_features monitor s
  = (Ok tt,
     mkState
       (set_server_tasks
          [if bool_decide (RPCS ∈ features c) then Some (Task k) else None;
           Some monitor]
          (set_background_tasks (_background_tasks c ++ ts) c))
       (calls s ++ consumer ++ listeners
        ++ zip_with (λ t co, Spawn t (CoUser co)) ts
             (_background_coroutines c))).
Proof.
  intros c k consumer listeners k' ts. unfold start_features.
  unfold bind at 1. unfold get_client at 1.
  set (s1 := mkState c (calls s ++ consumer)).
  assert (E1 : (if bool_decide (RPCS ∈ features (client s))
                then t <- spawn CoConsumeRpcs ;; ret (Some t)
                else ret None) s
               = (Ok (if bool_decide (RPCS ∈ features c)
                      then Some (Task k) else None), s1)).
  { subst s1 consumer c k.
    destruct (bool_decide (RPCS ∈ features (client s))); simpl.
    - reflexivity.
    - unfold ret. rewrite app_nil_r. by destruct s. }
  unfold bind at 1. rewrite E1.
  unfold bind at 1. unfold get_client at 1. change (client s1) with c.
  set (s2 := mkState c (calls s ++ consumer ++ listeners)).
  assert (E2 : (if bool_decide (EVENTS ∈ features c)
                then for_each (_event_listeners c)
                       (λ l, perform (StartListener l) (λ _, Ok tt))
                else ret tt) s1 = (Ok tt, s2)).
  { subst s2 listeners. destruct (bool_decide (EVENTS ∈ features c)).
    - rewrite for_each_perform_always_ok. subst s1. cbn [client calls].
      by rewrite <- app_assoc.
    - unfold ret. subst s1. by rewrite app_nil_r. }
  unfold bind at 1. rewrite E2.
  unfold bind at 1. unfold get_client at 1. change (client s2) with c.
  subst ts. destruct (bool_decide (TASKS ∈ features c)).
  - unfold bind at 1. rewrite start_background_tasks_run.
    unfold modify_client. subst s2. cbn [client calls].
    rewrite !length_app. fold k. subst k'.
    rewrite Nat.add_assoc. by rewrite <- !app_assoc.
  - unfold bind, ret, modify_client. subst s2. cbn [client calls].
    simpl. rewrite !app_nil_r.
    replace (set_background_tasks (_background_tasks c) c) with c
      by (by destruct c).
    by rewrite <- ?app_assoc.
Qed.

Lemma start_server_split W s :
  start_server W s = (t <- begin_server W ;; start_features t) s.
Proof.
  symmetry. unfold start_server, begin_server.
  repeat (rewrite bind_assoc; apply bind_ext; intros ? ?).
  symmetry. apply _setup_server_split.
Qed.

Lemma begin_server_emits W (P : event → Prop) :
  (∀ e, (∀ f, ¬ starts_feature f e) → P e) →
  emits P (begin_server W).
Proof.
  intros HP. unfold begin_server.
  do 5 (apply emits_bind;
        [repeat method_step; apply HP; intros []; simpl; tauto|intros ?]).
  by apply prepare_server_emits.
Qed.

Lemma begin_server_keeps {X} (f : BusClient → X) W :
  (∀ v c, f (set_api_registry v c) = f c) →
  (∀ v c, f (set_lazy_load_complete v c) = f c) →
  (∀ v c, f (set_server_shutdown_queue v c) = f c) →
  (∀ v c, f (set_server_tasks v c) = f c) →
  (∀ v c, f (set_shutdown_monitor_task v c) = f c) →
  keeps f (begin_server W).
Proof.
  intros H1 H2 H3 H4 H5. unfold begin_server.
  do 5 (apply keeps_bind; [repeat method_step; auto|intros ?]).
  by apply prepare_server_keeps.
Qed.

Lemma Forall_spawned_tasks (P : event → Prop) ts cos :
  (∀ t co, P (Spawn t (CoUser co))) →
  Forall P (zip_with (λ t co, Spawn t (CoUser co)) ts cos).
Proof.
  intros HP. revert cos. induction ts as [|t ts IH]; intros [|co cos];
    simpl; constructor; [apply HP|apply IH].
Qed.

(** X7.  A feature that is not enabled is not started.  However
    [start_server] ends on a client whose features do not include [f], it
    has started nothing that belongs to [f]: no RPC consumer for RPCS, no
    event listener for EVENTS, no background task for TASKS; with TASKS off
    the list of background tasks is as it was.  [start_server] itself never
    changes the features. *)
Theorem start_server_starts_only_enabled_features
    (W : World) (f : Feature) (s : State) (r : outcome unit) (s' : State) :
  f ∉ features (client s) →
  start_server W s = (r, s') →
  features (client s') = features (client s)
  ∧ (f = TASKS → _background_tasks (client s') = _background_tasks (client s))
  ∧ ∃ new, calls s' = calls s ++ new
           ∧ Forall (λ e, ¬ starts_feature f e) new.
Proof.
  intros Hf H. rewrite start_server_split in H.
  apply bind_inv in H as [(t & s1 & E & H)|(e & E & ->)];
    pose proof (begin_server_keeps features W
                  ltac:(done) ltac:(done) ltac:(done) ltac:(done)
                  ltac:(done) _ _ _ E) as Hfeat;
    pose proof (begin_server_keeps _background_tasks W
                  ltac:(done) ltac:(done) ltac:(done) ltac:(done)
                  ltac:(done) _ _ _ E) as Htasks;
    destruct (begin_server_emits W (λ e, ¬ starts_feature f e)
                (λ e He, He f) _ _ _ E) as (evs & Hevs & F).
  2:{ split; [done|]. split; [done|]. eauto. }
  rewrite start_features_run in H. injection H as <- <-.
  cbn [client calls features _background_tasks set_server_tasks
       set_background_tasks].
  rewrite Hfeat. split; [done|]. split.
  - intros ->. rewrite bool_decide_eq_false_2 by done.
    by rewrite app_nil_r.
  - eexists. rewrite Hevs, <- app_assoc. split; [reflexivity|].
    apply Forall_app. split; [exact F|].
    apply Forall_app; split; [|apply Forall_app; split].
    + destruct (bool_decide (RPCS ∈ _)) eqn:Hin; [|constructor].
      apply bool_decide_eq_true in Hin. repeat constructor.
      destruct f; simpl; tauto.
    + destruct (bool_decide (EVENTS ∈ _)) eqn:Hin; [|constructor].
      apply bool_decide_eq_true in Hin. apply Forall_fmap, Forall_forall.
      intros l _. destruct f; simpl; tauto.
    + destruct (bool_decide (TASKS ∈ _)) eqn:Hin; [|constructor].
      apply bool_decide_eq_true in Hin.
      assert (f ≠ TASKS) by (intros ->; tauto).
      apply Forall_spawned_tasks. intros ? ?. destruct f; simpl; tauto.
Qed.

Lemma start_server_starts_only_enabled_features_witness :
  (EVENTS ∉ features (client rpcs_only_client))
  ∧ start_server calm_world rpcs_only_client
    = (Ok tt, (start_server calm_world rpcs_only_client).2)
  ∧ ∃ new,
      calls (start_server calm_world rpcs_only_client).2
      = calls rpcs_only_client ++ new
      ∧ Forall (λ e, ¬ starts_feature EVENTS e) new.
Proof.
  assert (H1 : EVENTS ∉ features (client rpcs_only_client))
    by (apply (bool_decide_eq_false _); reflexivity).
  assert (H2 : start_server calm_world rpcs_only_client
               = (Ok tt, (start_server calm_world rpcs_only_client).2))
    by (vm_compute; reflexivity).
  split; [exact H1|]. split; [exact H2|].
  exact (proj2 (proj2 (start_server_starts_only_enabled_features calm_world
                         EVENTS rpcs_only_client _ _ H1 H2))).
Defined.

Lemma tasks_from_length k n : length (tasks_from k n) = n.
Proof. unfold tasks_from. by rewrite length_fmap, length_seq. Qed.

(** A start-up that completes with TASKS on started every registered
    coroutine, in order, and recorded the tasks. *)
Lemma start_server_spawns W s s' :
  TASKS ∈ features (client s) →
  start_server W s = (Ok tt, s') →
  ∃ new ts, calls s' = calls s ++ new
    ∧ length ts = length (_background_coroutines (client s))
    ∧ user_spawns new = zip ts (_background_coroutines (client s))
    ∧ _background_tasks (client s') = _background_tasks (client s) ++ ts
    ∧ _background_coroutines (client s')
      = _background_coroutines (client s).
Proof.
  intros Hf H. rewrite start_server_split in H.
  run_ok H t s1 E.
  pose proof (begin_server_keeps features W
                ltac:(done) ltac:(done) ltac:(done) ltac:(done)
                ltac:(done) _ _ _ E) as Hfeat.
  pose proof (begin_server_keeps _background_tasks W
                ltac:(done) ltac:(done) ltac:(done) ltac:(done)
                ltac:(done) _ _ _ E) as Htasks.
  pose proof (begin_server_keeps _background_coroutines W
                ltac:(done) ltac:(done) ltac:(done) ltac:(done)
                ltac:(done) _ _ _ E) as Hcos.
  destruct (begin_server_emits W (λ e, ¬ starts_feature TASKS e)
              (λ e He, He TASKS) _ _ _ E) as (evs & Hevs & F).
  rewrite start_features_run in H. injection H as <-.
  cbn [client calls features _background_tasks _background_coroutines
       set_server_tasks set_background_tasks].
  rewrite Hfeat, Htasks, Hcos.
  rewrite (bool_decide_eq_true_2 (TASKS ∈ _)) by done.
  eexists _, _. split; [by rewrite Hevs, <- app_assoc|].
  split; [apply tasks_from_length|].
  split; [|done].
  rewrite !user_spawns_app, (user_spawns_none evs F).
  rewrite user_spawns_started by apply tasks_from_length.
  rewrite (user_spawns_none (if bool_decide (RPCS ∈ _) then _ else _)).
  2:{ destruct (bool_decide (RPCS ∈ _)); repeat constructor. simpl. tauto. }
  rewrite (user_spawns_none (if bool_decide (EVENTS ∈ _) then _ else _)).
  2:{ destruct (bool_decide (EVENTS ∈ _)); [|constructor].
      apply Forall_fmap, Forall_forall. intros ? _. simpl. tauto. }
  by rewrite Hevs.
Qed.

(** X8.  [add_background_task] only stores the coroutine: it makes no call.
    A start-up that completes with TASKS enabled starts every stored
    coroutine once, in the order in which they were added, the one added
    last being started last, and appends their tasks in that order to the
    background tasks, which are the ones [close_async] cancels. *)
Theorem background_tasks_start_in_registration_order
    (W : World) (co : string) (s0 s s' : State) :
  add_background_task co s0 = (Ok tt, s) →
  TASKS ∈ features (client s0) →
  start_server W s = (Ok tt, s') →
  calls s = calls s0
  ∧ ∃ new ts t,
      calls s' = calls s0 ++ new
      ∧ length ts = length (_background_coroutines (client s0))
      ∧ user_spawns new
        = zip ts (_background_coroutines (client s0)) ++ [(t, co)]
      ∧ _background_tasks (client s')
        = _background_tasks (client s0) ++ ts ++ [t].
Proof.
  intros Hadd Hf H. injection Hadd as <-. split; [done|].
  apply start_server_spawns in H as (new & ts' & Hc & Hl & Hu & Hbt & _);
    [|done].
  cbn [client calls _background_coroutines _background_tasks
       set_background_coroutines] in *.
  rewrite length_app in Hl. simpl in Hl.
  destruct (decide (ts' = [])) as [->|Hne]; [simpl in Hl; lia|].
  destruct (exists_last Hne) as (ts & t & ->).
  rewrite length_app in Hl. simpl in Hl.
  exists new, ts, t. split; [done|]. split; [lia|]. split; [|done].
  rewrite Hu.
  assert (Hl' : length ts = length (_background_coroutines (client s0)))
    by lia.
  apply (zip_with_app pair ts [t] _ [co] Hl').
Qed.

Lemma background_tasks_start_in_registration_order_witness :
  add_background_task "heartbeat" fresh_client = (Ok tt, heartbeat_client)
  ∧ TASKS ∈ features (client fresh_client)
  ∧ start_server calm_world heartbeat_client
    = (Ok tt, (start_server calm_world heartbeat_client).2)
  ∧ ∃ new ts t,
      calls (start_server calm_world heartbeat_client).2
      = calls fresh_client ++ new
      ∧ user_spawns new
        = zip ts (_background_coroutines (client fresh_client))
          ++ [(t, "heartbeat")]
      ∧ _background_tasks (client (start_server calm_world
                                     heartbeat_client).2)
        = _background_tasks (client fresh_client) ++ ts ++ [t].
Proof.
  assert (H1 : add_background_task "heartbeat" fresh_client
               = (Ok tt, heartbeat_client))
    by reflexivity.
  assert (H2 : TASKS ∈ features (client fresh_client))
    by (apply (bool_decide_unpack _); reflexivity).
  assert (H3 : start_server calm_world heartbeat_client
               = (Ok tt, (start_server calm_world heartbeat_client).2))
    by (vm_compute; reflexivity).
  split; [exact H1|]. split; [exact H2|]. split; [exact H3|].
  destruct (background_tasks_start_in_registration_order calm_world
              "heartbeat" fresh_client heartbeat_client _ H1 H2 H3)
    as (_ & new & ts & t & Hc & _ & Hu & Hb).
  exists new, ts, t. split; [exact Hc|]. split; [exact Hu|exact Hb].
Defined.

(** X9.  A [_setup_server] that completes has added the two internal APIs
    to the registry and published the schema of every API of the registry,
    in registry order, before anything else.  On a client that was not yet
    initialised it then loads the remote schemas and publishes every one of
    them a second time, inside [lazy_load_now]; after that no schema is
    published. *)
Theorem setup_server_publishes_local_schemas
    (W : World) (s s' : State) :
  _setup_server W s = (Ok tt, s') →
  api_registry (client s') = server_registry (client s)
  ∧ ∃ rest,
      calls s'
      = calls s
        ++ (SchemaAddApi <$> server_registry (client s))
        ++ (if _lazy_load_complete (client s) then []
            else EnsureLoadedFromBus
                 :: (SchemaAddApi <$> server_registry (client s)))
        ++ rest
      ∧ Forall (λ e, ∀ api, e ≠ SchemaAddApi api) rest.
Proof.
  intros H. rewrite _setup_server_split in H.
  run_ok H t s5 E. unfold prepare_server in E.
  run_ok E a1 s1 E1. injection E1 as <- <-.
  run_ok E a2 s2 E2. injection E2 as <- <-.
  run_ok E a3 s3 E3. destruct a3. unfold add_local_apis in E3.
  unfold bind in E3 at 1. unfold get_client in E3 at 1.
  apply for_each_perform_ok in E3 as [Hc3 Hh3].
  cbn [client calls api_registry set_api_registry registry_all] in *.
  fold (server_registry (client s)) in *.
  run_ok E a4 s4 E4. destruct a4.
  assert (Hlazy : api_registry (client s4) = server_registry (client s)
    ∧ ∃ opening,
        calls s4
        = calls s3
          ++ (if _lazy_load_complete (client s) then []
              else EnsureLoadedFromBus
                   :: (SchemaAddApi <$> server_registry (client s)))
          ++ opening
        ∧ Forall (λ e, ∀ api, e ≠ SchemaAddApi api) opening).
  { destruct (_lazy_load_complete (client s)) eqn:Hl.
    - rewrite lazy_load_now_complete in E4 by (by rewrite Hc3).
      injection E4 as <-. rewrite Hc3. split; [done|].
      exists []. by rewrite !app_nil_r.
    - apply lazy_load_now_ok in E4 as [Hc4 Hh4]; [|by rewrite Hc3].
      rewrite Hc4, Hc3. split; [done|]. cbv zeta in Hh4.
      rewrite Hc3 in Hh4.
      cbn [api_registry set_api_registry registry_all] in Hh4.
      fold (server_registry (client s)) in Hh4.
      eexists. rewrite Hh4, <- !app_assoc. split; [reflexivity|].
      constructor; [done|]. apply Forall_fmap, Forall_forall. done. }
  destruct Hlazy as (Hreg4 & opening & Hh4 & Fo).
  assert (Hrest : emits (λ e, ∀ api, e ≠ SchemaAddApi api)
      (monitor_task <- spawn CoSchemaMonitor ;;
       _execute_hook W "before_worker_start" no_kwargs ;;
       ret monitor_task)).
  { unfold _execute_hook. repeat method_step; done. }
  assert (Hkeep : keeps api_registry
      (monitor_task <- spawn CoSchemaMonitor ;;
       _execute_hook W "before_worker_start" no_kwargs ;;
       ret monitor_task)).
  { unfold _execute_hook. repeat method_step; done. }
  destruct (Hrest _ _ _ E) as (evs & Hh5 & F5).
  pose proof (Hkeep _ _ _ E) as Hreg5.
  rewrite start_features_run in H. injection H as <-.
  cbn [client calls api_registry set_server_tasks set_background_tasks].
  rewrite Hreg5, Hreg4. split; [done|].
  eexists. rewrite Hh5, Hh4, Hh3, <- !app_assoc.
  split; [reflexivity|].
  apply Forall_app; split; [exact Fo|].
  apply Forall_app; split; [exact F5|].
  apply Forall_app; split;
    [destruct (bool_decide (RPCS ∈ _)); by repeat constructor|].
  apply Forall_app; split.
  - destruct (bool_decide (EVENTS ∈ _)); [|constructor].
    apply Forall_fmap, Forall_forall. done.
  - apply Forall_spawned_tasks. done.
Qed.

Lemma setup_server_publishes_local_schemas_witness :
  _setup_server calm_world serving_client
  = (Ok tt, (_setup_server calm_world serving_client).2)
  ∧ api_registry (client (_setup_server calm_world serving_client).2)
    = [auth_api; LightbusStateApi; LightbusMetricsApi].
Proof.
  assert (H : _setup_server calm_world serving_client
              = (Ok tt, (_setup_server calm_world serving_client).2))
    by (vm_compute; reflexivity).
  split; [exact H|].
  rewrite (proj1 (setup_server_publishes_local_schemas calm_world
                    serving_client _ H)).
  reflexivity.
Defined.

(** ** Running, stopping and closing *)



Lemma disable_rpcs_if_no_apis_run s :
  let c := client s in
  let off := bool_decide (registry_all (api_registry c) = [])
             && bool_decide (RPCS ∈ features c) in
  disable_rpcs_if_no_apis s
  = (Ok tt,
     if off
     then mkState (set_features_field (list_remove RPCS (features c)) c)
            (calls s ++ [LogInfo disabling_rpcs_notice])
     else s).
Proof.
  intros c off. unfold disable_rpcs_if_no_apis, bind, get_client.
  fold c. fold off. by destruct off.
Qed.

Lemma run_forever_split W s :
  run_forever W s = (disable_rpcs_if_no_apis ;; serve_until_stopped W) s.
Proof. reflexivity. Qed.

Lemma serve_until_stopped_keeps_features W :
  keeps features (serve_until_stopped W).
Proof.
  unfold serve_until_stopped, start_server, _setup_server, stop_server,
    _stop_server_inner, close, close_async, cancel_logged, register_api,
    lazy_load_now, add_local_apis, open_transports, _execute_hook.
  repeat method_step; handler_cases; repeat method_step; done.
Qed.

Lemma start_server_emits_startup W :
  emits (λ e, ¬ is_teardown_call e ∧ e ≠ RunLoopForever) (start_server W).
Proof.
  unfold start_server, _setup_server, register_api,
    lazy_load_now, add_local_apis, open_transports, _execute_hook.
  repeat method_step; simpl; (split; [|done]); try tauto; discriminate.
Qed.




Lemma _setup_server_appends W : emits (λ _, True) (_setup_server W).
Proof.
  unfold _setup_server, register_api,
    lazy_load_now, add_local_apis, open_transports, _execute_hook.
  repeat method_step; done.
Qed.

(** X12.  [run_forever] has no handler around its phases.  When
    [start_server] raises, [run_forever] raises the same exception at once:
    the event loop is not run, nothing is cancelled, no transport is closed,
    the transport invoker is not stopped, [after_worker_stopped] does not
    fire, and the client is no more closed than it was.  The shutdown
    monitor task that [start_server] had started stays recorded on the
    client. *)
Theorem run_forever_startup_failure_skips_teardown
    (W : World) (s s1 : State) (e : exn) :
  start_server W (disable_rpcs_if_no_apis s).2 = (Raise e, s1) →
  run_forever W s = (Raise e, s1)
  ∧ _closed (client s1) = _closed (client s)
  ∧ ∃ new,
      calls s1 = calls s ++ new
      ∧ Forall (λ ev, ¬ is_teardown_call ev ∧ ev ≠ RunLoopForever) new
      ∧ ∃ t, Spawn t CoServerShutdownMonitor ∈ new
             ∧ _shutdown_monitor_task (client s1) = Some t.
Proof.
  intros H. rewrite run_forever_split. unfold bind at 1.
  rewrite disable_rpcs_if_no_apis_run in H |- *. cbv zeta in H |- *.
  cbn [snd] in H.
  set (s0 := if _ && _ then _ else s) in *.
  assert (Hs0 : _closed (client s0) = _closed (client s)
                ∧ ∃ pre, calls s0 = calls s ++ pre
                     ∧ Forall (λ e, ¬ is_teardown_call e
                                    ∧ e ≠ RunLoopForever) pre).
  { subst s0. destruct (_ && _).
    - split; [done|]. eexists. split; [reflexivity|].
      repeat constructor; [tauto|done].
    - split; [done|]. exists []. by rewrite app_nil_r. }
  destruct Hs0 as (Hcl0 & pre & Hpre & Fpre). clearbody s0.
  split; [unfold serve_until_stopped, bind; by rewrite H|].
  assert (Hclosed : keeps _closed (start_server W)).
  { unfold start_server, _setup_server, register_api,
      lazy_load_now, add_local_apis, open_transports, _execute_hook.
    repeat method_step; done. }
  rewrite (Hclosed _ _ _ H). split; [exact Hcl0|].
  destruct (start_server_emits_startup W _ _ _ H) as (new & Hc & F).
  exists (pre ++ new). split; [by rewrite Hc, Hpre, <- app_assoc|].
  split; [by apply Forall_app|].
  exists (Task (S (length (calls s0)))).
  unfold start_server in H.
  apply bind_inv in H as [(a1 & s2 & E1 & H)|(e1 & E1 & _)];
    [|discriminate]. injection E1 as _ <-.
  apply bind_inv in H as [(a2 & s3 & E2 & H)|(e1 & E1 & _)];
    [|discriminate]. injection E2 as _ <-.
  apply bind_inv in H as [(a3 & s4 & E3 & H)|(e1 & E1 & _)];
    [|discriminate]. injection E3 as _ <-.
  apply bind_inv in H as [(a4 & s5 & E4 & H)|(e1 & E1 & _)];
    [|discriminate]. injection E4 as <- <-.
  apply bind_inv in H as [(a5 & s6 & E5 & H)|(e1 & E1 & _)];
    [|discriminate]. injection E5 as _ <-.
  cbn [client calls] in H.
  assert (Hmon : keeps _shutdown_monitor_task (_setup_server W)).
  { unfold _setup_server, register_api,
      lazy_load_now, add_local_apis, open_transports, _execute_hook.
    repeat method_step; done. }
  rewrite (Hmon _ _ _ H). cbn [client _shutdown_monitor_task
    set_shutdown_monitor_task]. rewrite length_app. simpl.
  replace (length (calls s0) + 1)%nat with (S (length (calls s0))) by lia.
  split; [|done].
  destruct (_setup_server_appends W _ _ _ H) as (evs & Hevs & _).
  cbn [calls] in Hevs. rewrite Hevs, <- !app_assoc in Hc.
  apply app_inv_head in Hc. rewrite <- Hc.
  apply elem_of_app. right. simpl. apply elem_of_cons. right.
  rewrite length_app. simpl.
  replace (length (calls s0) + 1)%nat with (S (length (calls s0))) by lia.
  apply elem_of_cons. by left.
Qed.

Lemma run_forever_startup_failure_skips_teardown_witness :
  start_server unreachable_world (disable_rpcs_if_no_apis fresh_client).2
  = (Raise (OtherException "ConnectionError" "refused"),
     (start_server unreachable_world
        (disable_rpcs_if_no_apis fresh_client).2).2)
  ∧ (run_forever unreachable_world fresh_client).1
    = Raise (OtherException "ConnectionError" "refused")
  ∧ _closed (client (start_server unreachable_world
                       (disable_rpcs_if_no_apis fresh_client).2).2)
    = false.
Proof.
  assert (H : start_server unreachable_world
                (disable_rpcs_if_no_apis fresh_client).2
              = (Raise (OtherException "ConnectionError" "refused"),
                 (start_server unreachable_world
                    (disable_rpcs_if_no_apis fresh_client).2).2))
    by (vm_compute; reflexivity).
  split; [exact H|].
  destruct (run_forever_startup_failure_skips_teardown unreachable_world
              fresh_client _ _ H) as (Hrun & Hclosed & _).
  split; [by rewrite Hrun|exact Hclosed].
Defined.

(** X13.  However [run_forever] ends, the only change it makes to the
    features is the one of its guard: when the registry is empty and RPCS
    is enabled, the first RPCS is removed and the notice that RPCs are
    disabled is logged, once, before anything else is done; in every other
    case the features are left as they were and that notice is not logged.
    (The progress messages that the server logs at level info while it
    starts and stops are not part of the model, and not spoken of here.) *)
Theorem run_forever_only_removes_rpcs
    (W : World) (s : State) (r : outcome unit) (s' : State) :
  run_forever W s = (r, s') →
  let c := client s in
  let off := bool_decide (registry_all (api_registry c) = [])
             && bool_decide (RPCS ∈ features c) in
  features (client s')
  = (if off then list_remove RPCS (features c) else features c)
  ∧ ∃ new, calls s' = calls s ++ (if off then [LogInfo disabling_rpcs_notice]
                                  else []) ++ new
           ∧ Forall (λ e, e ≠ LogInfo disabling_rpcs_notice) new.
Proof.
  intros H c off. rewrite run_forever_split in H.
  unfold bind in H at 1. rewrite disable_rpcs_if_no_apis_run in H.
  fold c off in H.
  assert (He : emits (λ e, e ≠ LogInfo disabling_rpcs_notice)
                 (serve_until_stopped W)).
  { unfold serve_until_stopped, start_server, _setup_server, stop_server,
      _stop_server_inner, close, close_async, cancel_logged, register_api,
      lazy_load_now, add_local_apis, open_transports, _execute_hook.
    repeat method_step; handler_cases; repeat method_step; done. }
  pose proof (serve_until_stopped_keeps_features W _ _ _ H) as Hf.
  destruct (He _ _ _ H) as (new & Hc & F).
  rewrite Hf, Hc. destruct off; cbn [client calls features set_features_field].
  - split; [done|]. exists new. by rewrite <- app_assoc.
  - split; [done|]. by exists new.
Qed.

Lemma run_forever_only_removes_rpcs_witness :
  run_forever calm_world fresh_client
  = ((run_forever calm_world fresh_client).1,
     (run_forever calm_world fresh_client).2)
  ∧ features (client (run_forever calm_world fresh_client).2)
    = [EVENTS; TASKS].
Proof.
  assert (H : run_forever calm_world fresh_client
              = ((run_forever calm_world fresh_client).1,
                 (run_forever calm_world fresh_client).2))
    by (vm_compute; reflexivity).
  split; [exact H|].
  rewrite (proj1 (run_forever_only_removes_rpcs calm_world fresh_client
                    _ _ H)).
  reflexivity.
Defined.

Lemma close_connections_emits W c :
  emits (λ e, e ≠ SchemaTransportClose ∧ e ≠ InvokerStop)
    (close_connections W c).
Proof.
  unfold close_connections, cancel_logged.
  repeat method_step; handler_cases; repeat method_step; done.
Qed.

Lemma close_connections_keeps W c : keeps (λ c, c) (close_connections W c).
Proof.
  unfold close_connections, cancel_logged.
  repeat method_step; handler_cases; repeat method_step; done.
Qed.

Lemma try_finally_ext {A} (body body' : M A) final s :
  body s = body' s → try_finally body final s = try_finally body' final s.
Proof. intros H. unfold try_finally. by rewrite H. Qed.

Lemma close_async_split W s :
  close_async W s
  = try_finally
      (if _closed (client s) then raise BusAlreadyClosed
       else
         close_connections W (client s) ;;
         perform SchemaTransportClose (schema_transport_close W) ;;
         modify_client (set_closed true))
      (perform InvokerStop (invoker_stop W)) s.
Proof.
  unfold close_async. apply try_finally_ext.
  unfold bind at 1. unfold get_client at 1.
  destruct (_closed (client s)); [done|].
  symmetry. unfold close_connections. cbv zeta.
  repeat (rewrite bind_assoc; apply bind_ext; intros ? ?).
  reflexivity.
Qed.

Lemma set_closed_same c : set_closed (_closed c) c = c.
Proof. by destruct c. Qed.

Lemma not_last_marker {X} (P : X → Prop) (l pre : list X) x :
  Forall P l → ¬ P x → l ≠ pre ++ [x].
Proof.
  intros F Hx ->. apply Forall_app in F as [_ F].
  by apply Forall_cons in F as [? _].
Qed.

(** The loop that closes the transports stops at the first that fails to
    close: a close that raised is the last call of the loop, and the loop
    raises what it raised. *)
Lemma close_transports_stops W ts s r s1 :
  for_each ts (λ t, perform (TransportClose t) (λ h, transport_close W h t)) s
  = (r, s1) →
  ∃ closes, calls s1 = calls s ++ closes
    ∧ ∀ pre t post e,
        closes = pre ++ TransportClose t :: post →
        transport_close W (calls s ++ pre) t = Raise e →
        post = [] ∧ r = Raise e.
Proof.
  revert s. induction ts as [|x ts IH]; intros s H; simpl in H.
  - injection H as <- <-. exists []. rewrite app_nil_r. split; [done|].
    intros pre t post e Heq. by destruct pre.
  - unfold bind in H at 1. unfold perform in H at 1.
    destruct (transport_close W (calls s) x) as [[]|e0] eqn:Ex.
    + apply IH in H as (closes & Hc & Hlast). cbn [calls] in Hc, Hlast.
      exists (TransportClose x :: closes).
      split; [by rewrite Hc, <- app_assoc|].
      intros pre t post e Heq Hans. destruct pre as [|p pre].
      * simpl in Heq. injection Heq as <- _.
        rewrite app_nil_r, Ex in Hans. discriminate.
      * simpl in Heq. injection Heq as <- Heq.
        apply (Hlast pre t post e Heq).
        by rewrite <- app_assoc.
    + injection H as <- <-. cbn [calls]. exists [TransportClose x].
      split; [done|].
      intros pre t post e Heq Hans. destruct pre as [|p pre].
      * simpl in Heq. injection Heq as <- <-.
        rewrite app_nil_r, Ex in Hans. by injection Hans as <-.
      * simpl in Heq. injection Heq as _ Heq. by destruct pre.
Qed.

Lemma cancel_logged_emits W t : emits is_cancel_or_log (cancel_logged W t).
Proof.
  unfold cancel_logged. repeat method_step; handler_cases;
    repeat method_step; done.
Qed.

Lemma close_connections_stops W c s r s1 :
  close_connections W c s = (r, s1) →
  ∃ evs, calls s1 = calls s ++ evs
    ∧ ∀ pre t post e,
        evs = pre ++ TransportClose t :: post →
        transport_close W (calls s ++ pre) t = Raise e →
        post = [] ∧ r = Raise e.
Proof.
  unfold close_connections. intros H.
  apply bind_inv in H as [(tasks & s2 & E1 & H)|(e & E1 & _)];
    [|discriminate]. injection E1 as _ <-. cbv zeta in H.
  assert (Fno : ∀ l, Forall is_cancel_or_log l →
            Forall (λ e, ∀ t, e ≠ TransportClose t) (AllTasks :: l)).
  { intros l F. constructor; [done|].
    eapply Forall_impl; [exact F|]. by intros []. }
  apply bind_inv in H as [([] & s3 & E2 & H)|(e & E2 & ->)];
    destruct (emits_for_each _ _ (cancel_logged_emits W) _ _ _ E2)
      as (cancelling & Hc2 & F2); cbn [calls] in Hc2.
  2:{ exists (AllTasks :: cancelling).
      split; [by rewrite Hc2, <- app_assoc|].
      intros pre t post e0 Heq. exfalso.
      by apply (marker_in _ _ _ _ _ Heq (Fno _ F2) t). }
  apply bind_inv in H as [(ts & s4 & E3 & H)|(e & E3 & _)];
    [|discriminate]. injection E3 as _ <-.
  apply close_transports_stops in H as (closes & Hc & Hlast).
  cbn [calls] in Hc, Hlast.
  exists ((AllTasks :: cancelling ++ [GetAllTransports]) ++ closes).
  split; [rewrite Hc, Hc2, <- !app_assoc; simpl; by rewrite <- app_assoc|].
  intros pre t post e Heq Hans.
  assert (F : Forall (λ e, ∀ t, e ≠ TransportClose t)
                (AllTasks :: cancelling ++ [GetAllTransports])).
  { constructor; [done|]. apply Forall_app. split; [|by repeat constructor].
    eapply Forall_impl; [exact F2|]. by intros []. }
  destruct (split_at_marker _ _ _ _ _ _ Heq F) as (pre' & -> & Hcl);
    [by intros Hn; apply (Hn t)|].
  apply (Hlast pre' t post e Hcl).
  rewrite Hc2, <- !app_assoc. simpl in Hans.
  rewrite <- !app_assoc in Hans. exact Hans.
Qed.

Lemma try_finally_outcome {A} (body : M A) (final : M unit) s r s' :
  try_finally body final s = (r, s') →
  ∃ rb sb, body s = (rb, sb)
    ∧ ∃ rf, final sb = (rf, s')
        ∧ r = match rf with Ok _ => rb | Raise e => Raise e end.
Proof.
  unfold try_finally. destruct (body s) as [rb sb].
  destruct (final sb) as [[[]|e] sf] eqn:Ef; intros H; injection H as <- <-;
    eauto 10.
Qed.

(** X14.  However [close_async] ends, the last thing it did was to stop the
    transport invoker, once, and all it may have changed of the client is
    the closed flag.  A client that was open is closed afterwards exactly
    when the call got as far as closing the schema transport and that
    returned.  And when the [close] of a transport raises, that was the last
    call before the stopping of the invoker: the transports after it are not
    closed, nor is the schema transport; the closed flag is as it was, so an
    open client stays open; and the call raises that exception, or the one
    of the invoker's [stop] when that raises too. *)
Theorem close_async_always_stops_invoker
    (W : World) (s : State) (r : outcome unit) (s' : State) :
  close_async W s = (r, s') →
  client s' = set_closed (_closed (client s')) (client s)
  ∧ ∃ made,
      calls s' = calls s ++ made ++ [InvokerStop]
      ∧ Forall (λ e, e ≠ InvokerStop) made
      ∧ (_closed (client s') = true
         ↔ _closed (client s) = true
           ∨ ∃ pre, made = pre ++ [SchemaTransportClose]
                    ∧ schema_transport_close W (calls s ++ pre) = Ok tt)
      ∧ ∀ pre t post e,
          made = pre ++ TransportClose t :: post →
          transport_close W (calls s ++ pre) t = Raise e →
          post = []
          ∧ _closed (client s') = _closed (client s)
          ∧ r = match invoker_stop W (calls s ++ made) with
                | Ok _ => Raise e
                | Raise e' => Raise e'
                end.
Proof.
  rewrite close_async_split. intros H.
  apply try_finally_outcome in H as (rb & sb & Eb & rf & Ef & Hr).
  unfold perform in Ef. injection Ef as Hrf Hs'. subst s'.
  cbn [client calls].
  destruct (_closed (client s)) eqn:Hclosed.
  { injection Eb as <- <-. split; [by rewrite set_closed_same|].
    exists []. split; [done|]. split; [constructor|].
    rewrite Hclosed. split; [split; [by left|done]|].
    intros pre t post e Heq. by destruct pre. }
  apply bind_inv in Eb as [([] & s1 & E1 & Eb)|(e & E1 & ->)];
    pose proof (close_connections_keeps W _ _ _ _ E1) as Hk1;
    destruct (close_connections_emits W _ _ _ _ E1) as (evs & Hevs & F);
    destruct (close_connections_stops W _ _ _ _ E1) as (evs' & Hevs' & Hlast);
    simpl in Hk1;
    (assert (evs' = evs) as ->
       by (rewrite Hevs in Hevs'; by apply app_inv_head in Hevs')).
  2:{ rewrite Hk1. split; [by rewrite set_closed_same|]. rewrite Hclosed.
      exists evs. split; [by rewrite Hevs, <- app_assoc|]. split.
      { eapply Forall_impl; [exact F|]. by intros ? [_ ?]. }
      split.
      - split; [done|]. intros [?|(pre & Hpre & _)]; [done|].
        exfalso. eapply (not_last_marker _ evs pre); [exact F|  |exact Hpre].
        tauto.
      - intros pre t post e0 Heq Hans.
        destruct (Hlast pre t post e0 Heq Hans) as [-> He].
        injection He as ->. split; [done|]. split; [done|].
        rewrite Hr, <- Hrf, Hevs. by destruct (invoker_stop W _). }
  apply bind_inv in Eb as [([] & s2 & E2 & Eb)|(e & E2 & ->)];
    unfold perform in E2; injection E2 as E2 <-.
  2:{ cbn [client calls]. rewrite Hk1.
      split; [by rewrite set_closed_same|]. rewrite Hclosed.
      exists (evs ++ [SchemaTransportClose]).
      split; [by rewrite Hevs, <- !app_assoc|]. split.
      { apply Forall_app. split; [|by repeat constructor].
        eapply Forall_impl; [exact F|]. by intros ? [_ ?]. }
      split.
      - split; [done|]. intros [?|(pre & Hpre & Hans)]; [done|].
        apply app_inj_tail in Hpre as [<- _].
        rewrite <- Hevs, E2 in Hans. discriminate.
      - intros pre t post e0 Heq Hans. exfalso.
        destruct (decide (post = [])) as [->|Hne].
        { apply app_inj_tail in Heq as [_ Heq]. discriminate. }
        destruct (exists_last Hne) as (post' & x & ->).
        rewrite app_comm_cons, app_assoc in Heq.
        apply app_inj_tail in Heq as [Heq _].
        destruct (Hlast pre t post' e0 Heq Hans) as [_ He]. discriminate. }
  unfold modify_client in Eb. injection Eb as Hsb. subst sb.
  cbn [client calls _closed set_closed].
  rewrite Hk1. split; [done|].
  exists (evs ++ [SchemaTransportClose]).
  split; [by rewrite Hevs, <- !app_assoc|]. split.
  { apply Forall_app. split; [|by repeat constructor].
    eapply Forall_impl; [exact F|]. by intros ? [_ ?]. }
  split.
  - split; [|done]. intros _. right. exists evs. by rewrite <- Hevs.
  - intros pre t post e0 Heq Hans. exfalso.
    destruct (decide (post = [])) as [->|Hne].
    { apply app_inj_tail in Heq as [_ Heq]. discriminate. }
    destruct (exists_last Hne) as (post' & x & ->).
    rewrite app_comm_cons, app_assoc in Heq.
    apply app_inj_tail in Heq as [Heq _].
    destruct (Hlast pre t post' e0 Heq Hans) as [_ He]. discriminate.
Qed.

Lemma close_async_always_stops_invoker_witness :
  close_async half_stuck_world busy_client
  = (Raise (OtherException "ConnectionError" "reset"),
     mkState (client busy_client)
       [AllTasks; Cancel [Some (Task 3)]; GetAllTransports;
        TransportClose (Transport "redis"); InvokerStop])
  ∧ get_all_transports half_stuck_world [AllTasks; Cancel [Some (Task 3)]]
    = [Transport "redis"; Transport "kafka"]
  ∧ (∃ made,
      [AllTasks; Cancel [Some (Task 3)]; GetAllTransports;
       TransportClose (Transport "redis"); InvokerStop]
      = calls busy_client ++ made ++ [InvokerStop]
      ∧ Forall (λ e, e ≠ InvokerStop) made
      ∧ TransportClose (Transport "kafka") ∉ made)
  ∧ _closed (client busy_client) = false.
Proof.
  assert (H : close_async half_stuck_world busy_client
              = (Raise (OtherException "ConnectionError" "reset"),
                 mkState (client busy_client)
                   [AllTasks; Cancel [Some (Task 3)]; GetAllTransports;
                    TransportClose (Transport "redis"); InvokerStop]))
    by (vm_compute; reflexivity).
  split; [exact H|]. split; [reflexivity|].
  destruct (close_async_always_stops_invoker half_stuck_world busy_client
              _ _ H)
    as (_ & made & Hc & F & _ & Hfail).
  assert (Hmade : made = [AllTasks; Cancel [Some (Task 3)]; GetAllTransports]
                         ++ TransportClose (Transport "redis") :: []).
  { cbn [calls busy_client] in Hc. simpl in Hc.
    change [AllTasks; Cancel [Some (Task 3)]; GetAllTransports;
            TransportClose (Transport "redis"); InvokerStop]
      with ([AllTasks; Cancel [Some (Task 3)]; GetAllTransports;
             TransportClose (Transport "redis")] ++ [InvokerStop]) in Hc.
    by apply app_inv_tail in Hc. }
  destruct (Hfail _ _ _ (OtherException "ConnectionError" "reset") Hmade
              eq_refl) as (_ & Hopen & _).
  split; [|exact Hopen].
  exists made. split; [exact Hc|]. split; [exact F|].
  rewrite Hmade. apply (bool_decide_unpack _). vm_compute. exact I.
Defined.

(** X15.  A [lazy_load_now] that raises leaves the client as it was, so not
    marked as initialised.  It had begun by loading the remote schemas and
    made none but initialisation calls; the next call therefore does not
    resume but starts again, with the loading of the remote schemas. *)
Theorem lazy_load_now_failure_is_retried
    (W : World) (s : State) (e : exn) (s' : State) :
  lazy_load_now W s = (Raise e, s') →
  client s' = client s
  ∧ _lazy_load_complete (client s') = false
  ∧ (∃ made, calls s' = calls s ++ EnsureLoadedFromBus :: made
             ∧ Forall is_lazy_load_call made)
  ∧ ∃ again, calls (lazy_load_now W s').2
             = calls s' ++ EnsureLoadedFromBus :: again.
Proof.
  intros H.
  assert (Hflag : _lazy_load_complete (client s) = false).
  { destruct (_lazy_load_complete (client s)) eqn:Hl; [|done].
    by rewrite lazy_load_now_complete in H. }
  assert (Hfirst : ∀ s0 r s1,
            _lazy_load_complete (client s0) = false →
            lazy_load_now W s0 = (r, s1) →
            ∃ made, calls s1 = calls s0 ++ EnsureLoadedFromBus :: made
                    ∧ Forall is_lazy_load_call made).
  { intros s0 r0 s1 Hl H0. unfold lazy_load_now in H0.
    unfold bind in H0 at 1. unfold get_client in H0 at 1. rewrite Hl in H0.
    apply bind_inv in H0 as [([] & s2 & E & H0)|(e0 & E & ->)];
      unfold perform in E; injection E as _ <-.
    2:{ exists []. done. }
    assert (He : emits is_lazy_load_call
              (add_local_apis W ;; open_transports W ;;
               modify_client (set_lazy_load_complete true)))
      by (unfold add_local_apis, open_transports; repeat method_step; done).
    destruct (He _ _ _ H0) as (made & Hm & F). cbn [calls] in Hm.
    exists made. by rewrite Hm, <- app_assoc. }
  assert (Hk : client s' = client s).
  { unfold lazy_load_now in H.
    unfold bind in H at 1. unfold get_client in H at 1. rewrite Hflag in H.
    assert (K : keeps (λ c, c)
              (perform EnsureLoadedFromBus (ensure_loaded_from_bus W) ;;
               add_local_apis W ;; open_transports W))
      by (unfold add_local_apis, open_transports; repeat method_step; done).
    rewrite <- !bind_assoc in H.
    apply bind_inv in H as [([] & s2 & E & H)|(e0 & E & _)].
    - discriminate.
    - rewrite !bind_assoc in E. apply (K _ _ _ E). }
  split; [exact Hk|]. split; [by rewrite Hk|].
  split; [by apply (Hfirst s (Raise e))|].
  destruct (lazy_load_now W s') as [r2 s2] eqn:E2.
  destruct (Hfirst s' r2 s2) as (again & Ha & _); [by rewrite Hk|done|].
  by exists again.
Qed.

Lemma lazy_load_now_failure_is_retried_witness :
  lazy_load_now unreachable_world fresh_client
  = (Raise (OtherException "ConnectionError" "refused"),
     mkState (client fresh_client)
       [EnsureLoadedFromBus; GetAllTransports;
        TransportOpen (Transport "redis")])
  ∧ ∃ again,
      calls (lazy_load_now unreachable_world
               (mkState (client fresh_client)
                  [EnsureLoadedFromBus; GetAllTransports;
                   TransportOpen (Transport "redis")])).2
      = [EnsureLoadedFromBus; GetAllTransports;
         TransportOpen (Transport "redis")]
        ++ EnsureLoadedFromBus :: again.
Proof.
  assert (H : lazy_load_now unreachable_world fresh_client
              = (Raise (OtherException "ConnectionError" "refused"),
                 mkState (client fresh_client)
                   [EnsureLoadedFromBus; GetAllTransports;
                    TransportOpen (Transport "redis")]))
    by (vm_compute; reflexivity).
  split; [exact H|].
  exact (proj2 (proj2 (proj2 (lazy_load_now_failure_is_retried
                                unreachable_world fresh_client _ _ H)))).
Defined.

(** ** The consume loop, batch by batch *)

Lemma replied_to_app h1 h2 :
  replied_to (h1 ++ h2) = replied_to h1 ++ replied_to h2.
Proof. apply omap_app. Qed.

Lemma replied_to_none h :
  Forall (λ e, ¬ is_result_send e) h → replied_to h = [].
Proof.
  induction 1 as [|e h He _ IH]; [done|].
  change (replied_to (e :: h)) with (replied_to ([e] ++ h)).
  rewrite replied_to_app, IH, app_nil_r.
  destruct e; try done; simpl in He; tauto.
Qed.

Lemma emits_no_reply {A} (m : M A) s r s' :
  emits (λ e, ¬ is_result_send e) m → m s = (r, s') →
  ∃ evs, calls s' = calls s ++ evs ∧ replied_to evs = [].
Proof.
  intros He H. destruct (He _ _ _ H) as (evs & Hc & F).
  exists evs. split; [done|]. by apply replied_to_none.
Qed.

Lemma reply_split W m res s :
  reply W m res s
  = (let rm := new_ResultMessage res (rpc_id m) in
     rt <- prepare_reply W m rm ;;
     perform (TransportSendResult rt m rm (return_path m))
       (λ h, transport_send_result W h rt m rm (return_path m)) ;;
     ret Next) s.
Proof.
  unfold reply, prepare_reply, send_result. cbv zeta.
  repeat (rewrite ?bind_assoc; symmetry; rewrite ?bind_assoc; symmetry;
          first [reflexivity | apply bind_ext; intros ? ?]).
Qed.

Lemma prepare_reply_emits W m rm :
  emits (λ e, ¬ is_result_send e) (prepare_reply W m rm).
Proof.
  unfold prepare_reply.
  apply emits_bind;
    [apply _execute_hook_emits_any; intros []; simpl; tauto|intros _].
  apply emits_bind;
    [destruct (negb (error rm)); repeat method_step; simpl; tauto|intros _].
  apply emits_bind;
    [apply lazy_load_now_emits_any; intros []; simpl; tauto|intros _].
  apply emits_perform; simpl; tauto.
Qed.

(** [reply] sends at most one result, to the message it answers, and does
    not return before it has sent it. *)
Lemma reply_replies W m res s r s' :
  reply W m res s = (r, s') →
  ∃ new, calls s' = calls s ++ new
    ∧ (replied_to new = [] ∨ replied_to new = [m])
    ∧ (∀ c, r = Ok c → c = Next ∧ replied_to new = [m]).
Proof.
  rewrite reply_split. cbv zeta. intros H.
  apply bind_inv in H as [(rt & s1 & E1 & H)|(e & E1 & ->)];
    destruct (emits_no_reply _ _ _ _ (prepare_reply_emits W _ _) E1)
      as (evs & Hc & Hn).
  2:{ exists evs. split; [done|]. split; [by left|discriminate]. }
  assert (Hs' : s' = mkState (client s1)
                       (calls s1 ++ [TransportSendResult rt m
                          (new_ResultMessage res (rpc_id m)) (return_path m)])
                ∧ ∀ c, r = Ok c → c = Next).
  { unfold bind, perform, ret in H.
    destruct (transport_send_result W _ _ _ _ _) as [[]|e];
      injection H as <- <-; split; try done. by intros c [= <-]. }
  destruct Hs' as [-> Hr]. cbn [calls].
  eexists. rewrite Hc, <- app_assoc. split; [reflexivity|].
  rewrite replied_to_app, Hn. split; [by right|].
  intros c Hrc. split; [by apply Hr|done].
Qed.

Lemma serve_rpc_message_replies W m s r s' :
  serve_rpc_message W m s = (r, s') →
  ∃ new, calls s' = calls s ++ new
    ∧ (replied_to new = [] ∨ replied_to new = [m])
    ∧ (r = Ok Next → replied_to new = [m]).
Proof.
  rewrite serve_rpc_message_split. intros H. rewrite <- bind_assoc in H.
  apply bind_inv in H as [(lc & s1 & Eb & H)|(e & Eb & ->)].
  2:{ destruct (before_reply_emits W m _ _ _ Eb) as (evb & Hb & Fb).
      exists evb. split; [done|]. split; [|discriminate]. left.
      apply replied_to_none. eapply Forall_impl; [exact Fb|]. intros ? [? ?]; assumption. }
  destruct (before_reply_emits W m _ _ _ Eb) as (evb & Hb & Fb).
  assert (Hnb : replied_to evb = []).
  { apply replied_to_none. eapply Forall_impl; [exact Fb|]. intros ? [? ?]; assumption. }
  destruct lc as [v|e|]; simpl in H.
  - apply bind_inv in H as [(v' & s2 & Ed & H)|(e & Ed & ->)];
      unfold perform in Ed; injection Ed as _ <-.
    + apply reply_replies in H as (new & Hc & Hor & Hok). cbn [calls] in Hc.
      exists (evb ++ [DeformToBus v] ++ new).
      split; [by rewrite Hc, Hb, <- !app_assoc|].
      rewrite !replied_to_app, Hnb. simpl. split; [exact Hor|].
      intros ->. by apply (Hok Next).
    + cbn [calls]. exists (evb ++ [DeformToBus v]).
      split; [by rewrite Hb, <- app_assoc|]. rewrite replied_to_app, Hnb.
      split; [by left|discriminate].
  - apply reply_replies in H as (new & Hc & Hor & Hok).
    exists (evb ++ new). split; [by rewrite Hc, Hb, <- app_assoc|].
    rewrite replied_to_app, Hnb. simpl. split; [exact Hor|].
    intros ->. by apply (Hok Next).
  - injection H as <- <-. exists evb. split; [done|].
    split; [by left|discriminate].
Qed.

(** X16.  The messages of a batch are answered one by one and in order.
    However the loop over a batch ends, the messages for which the result
    transport was asked to send a result are the first messages of the
    batch, each once and in the order of the batch; when the loop reaches
    the end of the batch, that is every message of the batch. *)
Theorem batch_is_answered_in_order
    (W : World) (ms : list RpcMessage) (s : State) (r : outcome loop_ctl)
    (s' : State) :
  for_each_until ms (serve_rpc_message W) s = (r, s') →
  ∃ new, calls s' = calls s ++ new
    ∧ replied_to new `prefix_of` ms
    ∧ (r = Ok Next → replied_to new = ms).
Proof.
  revert s. induction ms as [|m ms IH]; intros s H; simpl in H.
  - injection H as <- <-. exists []. rewrite app_nil_r. done.
  - apply bind_inv in H as [(c & s1 & E & H)|(e & E & ->)];
      apply serve_rpc_message_replies in E as (new1 & Hc1 & Hor & Hok).
    2:{ exists new1. split; [done|]. split; [|discriminate].
        destruct Hor as [-> | ->]; [apply prefix_nil|].
        apply prefix_cons, prefix_nil. }
    destruct c.
    + apply IH in H as (new2 & Hc2 & Hp & Hall).
      exists (new1 ++ new2). split; [by rewrite Hc2, Hc1, <- app_assoc|].
      rewrite replied_to_app, (Hok eq_refl). simpl.
      split; [by apply prefix_cons|]. intros Hr. by rewrite (Hall Hr).
    + injection H as <- <-. exists new1. split; [done|].
      split; [|discriminate].
      destruct Hor as [-> | ->]; [apply prefix_nil|].
      apply prefix_cons, prefix_nil.
Qed.

Lemma batch_is_answered_in_order_witness :
  for_each_until [check_password_message; second_password_message]
    (serve_rpc_message calm_world) serving_client
  = (Ok Next,
     (for_each_until [check_password_message; second_password_message]
        (serve_rpc_message calm_world) serving_client).2)
  ∧ ∃ new,
      calls (for_each_until [check_password_message; second_password_message]
               (serve_rpc_message calm_world) serving_client).2
      = calls serving_client ++ new
      ∧ replied_to new = [check_password_message; second_password_message].
Proof.
  assert (H : for_each_until
                [check_password_message; second_password_message]
                (serve_rpc_message calm_world) serving_client
              = (Ok Next,
                 (for_each_until
                    [check_password_message; second_password_message]
                    (serve_rpc_message calm_world) serving_client).2))
    by (vm_compute; reflexivity).
  split; [exact H|].
  destruct (batch_is_answered_in_order calm_world _ _ _ _ H)
    as (new & Hc & _ & Hall).
  exists new. split; [exact Hc|exact (Hall eq_refl)].
Defined.

Lemma consume_round_empty W t apis s :
  transport_consume_rpcs W (calls s) t apis = Ok [] →
  consume_round W t apis s
  = (Ok Next, mkState (client s) (calls s ++ [TransportConsumeRpcs t apis])).
Proof.
  intros H. unfold consume_round, bind, try_except, perform, ret.
  by rewrite H.
Qed.

(** X17.  An empty batch does not end the consumer.  With a transport that
    answers every request for RPCs with an empty batch, the loop asks
    again at once, round after round: whatever the fuel, it has not
    returned when the fuel is spent, and all it has done is to ask the
    transport once per round. *)
Theorem consumer_polls_again_after_empty_batch
    (W : World) (t : transport) (apis : list Api) (fuel : nat) (s : State) :
  (∀ h, transport_consume_rpcs W h t apis = Ok []) →
  consume_rounds W fuel t apis s
  = (Ok None,
     mkState (client s)
       (calls s ++ replicate fuel (TransportConsumeRpcs t apis))).
Proof.
  intros Hempty. revert s. induction fuel as [|fuel IH]; intros s; simpl.
  - unfold ret. rewrite app_nil_r. by destruct s.
  - unfold bind. rewrite consume_round_empty by apply Hempty.
    rewrite IH. cbn [client calls]. by rewrite <- app_assoc.
Qed.

Lemma consumer_polls_again_after_empty_batch_witness :
  (∀ h, transport_consume_rpcs idle_world h (Transport "redis") [auth_api]
        = Ok [])
  ∧ consume_rounds idle_world 3 (Transport "redis") [auth_api] serving_client
    = (Ok None,
       mkState (client serving_client)
         [TransportConsumeRpcs (Transport "redis") [auth_api];
          TransportConsumeRpcs (Transport "redis") [auth_api];
          TransportConsumeRpcs (Transport "redis") [auth_api]]).
Proof.
  split; [intros h; reflexivity|].
  exact (consumer_polls_again_after_empty_batch idle_world
           (Transport "redis") [auth_api] 3 serving_client
           (λ h, eq_refl)).
Defined.

(** ** Calling an RPC: what is sent, and what else can go wrong *)

Lemma start_rpc_call_split W a name kw options s :
  start_rpc_call W a name kw options s
  = (p <- check_rpc_call W a name kw options ;;
     perform (Gather p.1 (default ∅ options)) (λ _, Ok tt) ;;
     _execute_hook W "before_rpc_call" (mkHookKwargs (Some p.1) None) ;;
     ret p) s.
Proof.
  unfold start_rpc_call, check_rpc_call. cbv zeta.
  repeat (rewrite ?bind_assoc; symmetry; rewrite ?bind_assoc; symmetry;
          first [reflexivity | apply bind_ext; intros ? ?]).
Qed.

Lemma check_rpc_call_emits W a name kw options :
  emits (λ e, ¬ is_gather e ∧ ¬ is_any_hook_call e)
    (check_rpc_call W a name kw options).
Proof.
  unfold check_rpc_call. cbv zeta.
  apply emits_bind;
    [apply lazy_load_now_emits_any; intros []; simpl; tauto|intros _].
  repeat method_step; simpl; tauto.
Qed.

Lemma check_rpc_call_ok W a name kw options s m timeout s1 :
  check_rpc_call W a name kw options s = (Ok (m, timeout), s1) →
  api_name m = a ∧ procedure_name m = name
  ∧ ∃ pre,
      calls s1 = calls s ++ pre
                 ++ [ValidateName a "rpc" name;
                     Validate (MsgRpc m) "outgoing" None None]
      ∧ validate_name W (calls s ++ pre) a "rpc" name = Ok tt
      ∧ validate W (calls s ++ pre ++ [ValidateName a "rpc" name])
          (MsgRpc m) "outgoing" None None = Ok tt.
Proof.
  unfold check_rpc_call. cbv zeta. intros H.
  run_ok H a1 s2 E1.
  assert (He1 : ∃ evs, calls s2 = calls s ++ evs)
    by (destruct (lazy_load_now_emits W _ _ _ E1) as (evs & ? & _); eauto).
  destruct He1 as [evs1 He1].
  do 5 (let a := fresh "a" in let s := fresh "s" in let E := fresh "E" in
        run_ok H a s E; unfold perform in E;
        match type of E with
        | (?ans, _) = _ => destruct ans eqn:?; [|discriminate E]
        end;
        injection E as <- <-; cbn [client calls] in H).
  run_ok H av sv Ev. unfold perform in Ev.
  destruct (validate_name W _ a "rpc" name) as [[]|] eqn:Hvn;
    [|discriminate Ev].
  injection Ev as _ <-. cbn [client calls] in H.
  run_ok H aw sw Ew. unfold perform in Ew.
  match type of Ew with
  | (?ans, _) = _ => destruct ans as [[]|] eqn:Hv; [|discriminate Ew]
  end.
  injection Ew as _ <-. injection H as <- <- <-. cbn [client calls].
  split; [done|]. split; [done|].
  rewrite He1 in Hvn, Hv |- *.
  match goal with
  | |- context [GetReturnPath ?t ?m0] =>
      exists (evs1 ++ [GetRpcTransport a; GetResultTransport a;
                       DeformKwargs kw; NewRpcMessage a name (kwargs m0);
                       GetReturnPath t m0])
  end.
  cbn [calls kwargs] in Hvn, Hv |- *.
  rewrite <- !app_assoc in Hvn. rewrite <- !app_assoc in Hv.
  rewrite <- !app_assoc. cbn [app] in Hvn, Hv |- *.
  split; [reflexivity|]. split; [exact Hvn|exact Hv].
Qed.

Lemma finish_rpc_call_emits W a name m timeout :
  emits (λ e, ¬ is_gather e) (finish_rpc_call W a name m timeout).
Proof.
  unfold finish_rpc_call, drain_and_time_out, _execute_hook.
  repeat (repeat method_step; handler_cases); simpl; tauto.
Qed.

(** X18.  [call_rpc_remote] hands a call to the transports at most once, and
    only a call that passed both validations.  Wherever the gathered send
    and receive of a message appears in what the call did, the message is
    for the API and the procedure asked for and goes with the caller's
    options; the two calls just before it were the validation of the name
    and the outgoing validation of that message, and both returned; no hook
    had fired yet; and no second send follows. *)
Theorem call_rpc_remote_sends_after_validation
    (W : World) (a name : string) (kw : pydict) (options : option pydict)
    (s : State) (r : outcome pyvalue) (s' : State) :
  call_rpc_remote W a name kw options s = (r, s') →
  ∃ new, calls s' = calls s ++ new
    ∧ ∀ pre m o post, new = pre ++ Gather m o :: post →
        api_name m = a ∧ procedure_name m = name ∧ o = default ∅ options
        ∧ (∃ pre',
             pre = pre' ++ [ValidateName a "rpc" name;
                            Validate (MsgRpc m) "outgoing" None None]
             ∧ validate_name W (calls s ++ pre') a "rpc" name = Ok tt
             ∧ validate W (calls s ++ pre' ++ [ValidateName a "rpc" name])
                 (MsgRpc m) "outgoing" None None = Ok tt)
        ∧ Forall (λ e, ¬ is_gather e ∧ ¬ is_any_hook_call e) pre
        ∧ Forall (λ e, ¬ is_gather e) post.
Proof.
  rewrite call_rpc_remote_split. intros H.
  assert (Hstart : ∃ r1 s1, start_rpc_call W a name kw options s = (r1, s1)
            ∧ ∃ rest, calls s' = calls s1 ++ rest
                      ∧ Forall (λ e, ¬ is_gather e) rest).
  { apply bind_inv in H as [(p & s1 & E & H)|(e & E & ->)].
    - exists (Ok p), s1. split; [done|].
      by apply (finish_rpc_call_emits W a name p.1 p.2 _ _ _ H).
    - exists (Raise e), s'. split; [done|]. exists [].
      by rewrite app_nil_r. }
  destruct Hstart as (r1 & s1 & Hs & rest & Hrest & Frest). clear H.
  rewrite start_rpc_call_split in Hs.
  apply bind_inv in Hs as [([m timeout] & s2 & E & Hs)|(e & E & ->)];
    destruct (check_rpc_call_emits W _ _ _ _ _ _ _ E) as (evs & Hevs & F).
  2:{ exists (evs ++ rest). split; [by rewrite Hrest, Hevs, <- app_assoc|].
      intros pre m o post Heq. exfalso.
      assert (Fall : Forall (λ e, ¬ is_gather e) (evs ++ rest)).
      { apply Forall_app. split; [|done].
        eapply Forall_impl; [exact F|]. intros ? [? ?]; assumption. }
      by apply (marker_in _ _ _ _ _ Heq Fall). }
  apply check_rpc_call_ok in E as (Ha & Hn & pre' & Hc2 & Hvn & Hv).
  cbn [fst] in Hs.
  assert (Hhook : ∃ hooks, calls s1
              = calls s2 ++ Gather m (default ∅ options) :: hooks
              ∧ Forall (λ e, ¬ is_gather e) hooks).
  { apply bind_inv in Hs as [([] & s3 & Eg & Hs)|(e & Eg & _)];
      [|discriminate]. injection Eg as <-.
    assert (He : emits (λ e, ¬ is_gather e)
              (_execute_hook W "before_rpc_call"
                 (mkHookKwargs (Some m) None) ;; ret (m, timeout))).
    { apply emits_bind; [|intros ?; apply emits_ret].
      apply _execute_hook_emits_any. intros []; simpl; tauto. }
    destruct (He _ _ _ Hs) as (hooks & Hh & Fh). cbn [calls] in Hh.
    exists hooks. by rewrite Hh, <- app_assoc. }
  destruct Hhook as (hooks & Hh & Fh).
  exists (evs ++ Gather m (default ∅ options) :: hooks ++ rest).
  split.
  { rewrite Hrest, Hh, Hevs, <- !app_assoc. done. }
  intros pre m' o post Heq.
  assert (Fevs : Forall (λ e, ¬ is_gather e) evs)
    by (eapply Forall_impl; [exact F|]; intros ? [? ?]; assumption).
  destruct (split_at_marker _ _ _ _ _ _ Heq Fevs) as (p' & -> & Htail);
    [simpl; tauto|].
  destruct p' as [|x p'].
  - simpl in Htail. injection Htail as <- <- <-.
    split; [done|]. split; [done|]. split; [done|].
    rewrite app_nil_r. split.
    + exists pre'. rewrite Hevs in Hc2. apply app_inv_head in Hc2.
      by rewrite Hc2.
    + split; [exact F|]. by apply Forall_app.
  - exfalso. simpl in Htail. injection Htail as <- Htail.
    assert (Fall : Forall (λ e, ¬ is_gather e) (hooks ++ rest))
      by (by apply Forall_app).
    by apply (marker_in _ _ _ _ _ Htail Fall).
Qed.

Lemma call_rpc_remote_sends_after_validation_witness :
  call_rpc_remote calm_world "svc.acct" "ping" ∅ None serving_client
  = (Ok (VStr "pong"),
     (call_rpc_remote calm_world "svc.acct" "ping" ∅ None serving_client).2)
  ∧ ∃ new,
      calls (call_rpc_remote calm_world "svc.acct" "ping" ∅ None
               serving_client).2
      = calls serving_client ++ new
      ∧ ∀ pre m o post, new = pre ++ Gather m o :: post →
          api_name m = "svc.acct" ∧ procedure_name m = "ping".
Proof.
  assert (H : call_rpc_remote calm_world "svc.acct" "ping" ∅ None
                serving_client
              = (Ok (VStr "pong"),
                 (call_rpc_remote calm_world "svc.acct" "ping" ∅ None
                    serving_client).2))
    by (vm_compute; reflexivity).
  split; [exact H|].
  destruct (call_rpc_remote_sends_after_validation calm_world _ _ _ _ _ _ _
              H) as (new & Hc & Hg).
  exists new. split; [exact Hc|].
  intros pre m o post Heq.
  destruct (Hg pre m o post Heq) as (Ha & Hn & _). split; [exact Ha|exact Hn].
Defined.

(** X19.  Only a timeout becomes a [LightbusTimeout].  Take a call that has
    reached the [try].  If waiting for the result raises anything but
    [TimeoutError], the call raises that exception as it is: the future is
    not awaited again and [after_rpc_call] does not fire.  If the deadline
    passes and the future, awaited once more, raises anything but
    [CancelledError], the call raises that exception in place of
    [LightbusTimeout]. *)
Theorem call_rpc_remote_other_failures_propagate
    (W : World) (a name : string) (kw : pydict) (options : option pydict)
    (s : State) (m : RpcMessage) (timeout : pyvalue) (s1 : State) (e : exn) :
  start_rpc_call W a name kw options s = (Ok (m, timeout), s1) →
  let waited := mkState (client s1) (calls s1 ++ [WaitFor m timeout]) in
  (wait_for W (calls s1) m timeout = Raise e →
   e ≠ TimeoutError →
   call_rpc_remote W a name kw options s = (Raise e, waited))
  ∧ (wait_for W (calls s1) m timeout = Raise TimeoutError →
     await_future W (calls waited) m = Raise e →
     e ≠ CancelledError →
     call_rpc_remote W a name kw options s
     = (Raise e, mkState (client s1) (calls waited ++ [AwaitFuture m]))).
Proof.
  intros Hstart waited. split.
  - intros Hwait Hne.
    rewrite call_rpc_remote_split. unfold bind at 1. rewrite Hstart.
    cbn [fst snd]. unfold finish_rpc_call, bind at 1.
    unfold try_except at 1, perform at 1. rewrite Hwait.
    by destruct e.
  - intros Hwait Hdrain Hne.
    rewrite call_rpc_remote_split. unfold bind at 1. rewrite Hstart.
    cbn [fst snd]. unfold finish_rpc_call, bind at 1.
    unfold try_except at 1, perform at 1. rewrite Hwait.
    unfold drain_and_time_out, bind, try_except, perform.
    subst waited. cbn [client calls] in *. rewrite Hdrain.
    by destruct e.
Qed.

Lemma call_rpc_remote_other_failures_propagate_witness :
  start_rpc_call dropped_world "svc.acct" "ping" ∅ None serving_client
  = (Ok (ping_message, VInt 5),
     (start_rpc_call dropped_world "svc.acct" "ping" ∅ None serving_client).2)
  ∧ (call_rpc_remote dropped_world "svc.acct" "ping" ∅ None serving_client).1
    = Raise (OtherException "ConnectionError" "lost").
Proof.
  assert (H : start_rpc_call dropped_world "svc.acct" "ping" ∅ None
                serving_client
              = (Ok (ping_message, VInt 5),
                 (start_rpc_call dropped_world "svc.acct" "ping" ∅ None
                    serving_client).2))
    by (vm_compute; reflexivity).
  split; [exact H|].
  destruct (call_rpc_remote_other_failures_propagate dropped_world
              "svc.acct" "ping" ∅ None serving_client ping_message (VInt 5)
              _ (OtherException "ConnectionError" "lost") H) as [Hwait _].
  rewrite (Hwait eq_refl ltac:(discriminate)). reflexivity.
Defined.
